(** * gdownjs: a shallow embedding of the retrieval engine

    The TypeScript sources (parser.ts, cookies.ts, utils.ts, cache.ts,
    download.ts, folder.ts) are embedded as Rocq functions.  JavaScript
    strings are lists of characters, plain objects used as dictionaries
    are [gmap]s, asynchronous code that talks to the network is a
    function of the list of events the network delivers, with the
    cookie jar and the file system passed explicitly. *)

From Stdlib Require Import ZArith QArith Qminmax Ascii.
From stdpp Require Import base tactics option list gmap strings pretty.

Local Open Scope Z_scope.

(** ** JavaScript strings *)

(** A string is the list of its characters; literals are written as
    Rocq strings and read as lists through the coercion. *)
Abbreviation str := (list ascii).

Definition lit (s : string) : str := String.list_ascii_of_string s.
Coercion lit : string >-> list.

Module JS.

Definition code (c : ascii) : N := N_of_ascii c.

Definition between (lo hi c : ascii) : bool :=
  ((code lo <=? code c) && (code c <=? code hi))%N.

Definition isDigit (c : ascii) : bool := between "0" "9" c.
Definition isLower (c : ascii) : bool := between "a" "z" c.
Definition isUpper (c : ascii) : bool := between "A" "Z" c.
Definition isAlnum (c : ascii) : bool := isDigit c || isLower c || isUpper c.

Definition chr (c d : ascii) : bool := bool_decide (c = d).

(** White space of [String.prototype.trim] and of the regular
    expression class [\s], among the code units below 256. *)
Definition isSpace (c : ascii) : bool :=
  ((9 <=? code c) && (code c <=? 13) || (code c =? 32) || (code c =? 160))%N.

(** Line terminators, which the regular expression dot refuses. *)
Definition isLineTerminator (c : ascii) : bool :=
  ((code c =? 10) || (code c =? 13))%N.

Definition toLower (c : ascii) : ascii :=
  if isUpper c then ascii_of_N (code c + 32) else c.

(** A value is truthy when it is neither undefined nor empty. *)
Definition nonEmpty (s : str) : bool :=
  match s with [] => false | _ => true end.

Definition truthy (o : option str) : bool :=
  match o with Some s => nonEmpty s | None => false end.

(** [a || b] on optional strings. *)
Definition orElse (o : option str) (d : str) : str :=
  match o with Some ((_ :: _) as s) => s | _ => d end.

Fixpoint startsWith (p s : str) : bool :=
  match p, s with
  | [], _ => true
  | a :: p', b :: s' => chr a b && startsWith p' s'
  | _ :: _, [] => false
  end.

(** [s.includes(needle)] *)
Fixpoint includes (s needle : str) : bool :=
  startsWith needle s ||
  match s with
  | [] => false
  | _ :: s' => includes s' needle
  end.

Fixpoint takeWhile (p : ascii → bool) (s : str) : str :=
  match s with
  | a :: s' => if p a then a :: takeWhile p s' else []
  | [] => []
  end.

Fixpoint dropWhile (p : ascii → bool) (s : str) : str :=
  match s with
  | a :: s' => if p a then dropWhile p s' else s
  | [] => []
  end.

(** [s.trim()] *)
Definition trim (s : str) : str :=
  reverse (dropWhile isSpace (reverse (dropWhile isSpace s))).

(** [s.split(sep)] for a separator of one character: the pieces
    between the separators, never an empty array. *)
Fixpoint split (sep : ascii) (s : str) : list str :=
  match s with
  | [] => [[]]
  | a :: s' =>
      if chr a sep then [] :: split sep s'
      else match split sep s' with
           | p :: ps => (a :: p) :: ps
           | [] => [[a]]
           end
  end.

(** [s.substring(n)] *)
Definition substring (n : nat) (s : str) : str := drop n s.

(** [parts.join(sep)] *)
Fixpoint join (sep : str) (parts : list str) : str :=
  match parts with
  | [] => []
  | [p] => p
  | p :: ps => p ++ sep ++ join sep ps
  end.

(** [s.replace(/pat/g, by)] for a literal pattern [pat]: a scan from
    the left, where [skip] counts the characters of an occurrence
    that are still to be passed over. *)
Fixpoint replaceFrom (pat by_ : str) (skip : nat) (s : str) : str :=
  match s with
  | [] => []
  | a :: s' =>
      match skip with
      | S skip' => replaceFrom pat by_ skip' s'
      | O =>
          if nonEmpty pat && startsWith pat s
          then by_ ++ replaceFrom pat by_ (length pat - 1) s'
          else a :: replaceFrom pat by_ 0 s'
      end
  end.

Definition replaceAll (pat by_ : str) (s : str) : str := replaceFrom pat by_ 0 s.

(** The decimal rendering of a counter in a template literal. *)
Definition ofNat (n : nat) : str := lit (pretty n).

End JS.

(** ** Regular expressions

    The patterns of the sources use literals, quantified character
    classes (greedy or lazy), sequencing, alternation and capture
    groups.  The matcher below is the backtracking matcher of the
    ECMAScript specification restricted to these forms, written with
    continuations: a quantifier tries its alternatives in priority
    order and the first one whose continuation succeeds wins. *)

Inductive regex : Type :=
| Lit (ci : bool) (s : str)
| Rep (greedy : bool) (lo : nat) (cls : ascii → bool)
| Seq (r1 r2 : regex)
| Alt (r1 r2 : regex)
| Grp (r : regex).

Declare Scope regex_scope.
Delimit Scope regex_scope with re.
Bind Scope regex_scope with regex.
Infix "⋅" := Seq (at level 41, right associativity) : regex_scope.

Definition chrEq (ci : bool) (a b : ascii) : bool :=
  if ci then JS.chr (JS.toLower a) (JS.toLower b) else JS.chr a b.

Fixpoint litMatch (ci : bool) (l s : str) : option str :=
  match l, s with
  | [], _ => Some s
  | a :: l', b :: s' => if chrEq ci a b then litMatch ci l' s' else None
  | _ :: _, [] => None
  end.

Fixpoint atLeast {A} (lo : nat) (cls : ascii → bool) (s : str)
    (k : str → option A) : option A :=
  match lo with
  | O => k s
  | S lo' =>
      match s with
      | a :: s' => if cls a then atLeast lo' cls s' k else None
      | [] => None
      end
  end.

Fixpoint starMatch {A} (greedy : bool) (cls : ascii → bool) (s : str)
    (k : str → option A) : option A :=
  if greedy then
    match s with
    | a :: s' =>
        if cls a then
          match starMatch greedy cls s' k with
          | Some x => Some x
          | None => k s
          end
        else k s
    | [] => k s
    end
  else
    match k s with
    | Some x => Some x
    | None =>
        match s with
        | a :: s' => if cls a then starMatch greedy cls s' k else None
        | [] => None
        end
    end.

Fixpoint rmatch {A} (r : regex) (s : str) (caps : list str)
    (k : str → list str → option A) : option A :=
  match r with
  | Lit ci l =>
      match litMatch ci l s with
      | Some s' => k s' caps
      | None => None
      end
  | Rep g lo cls => atLeast lo cls s (λ s1, starMatch g cls s1 (λ s', k s' caps))
  | Seq r1 r2 => rmatch r1 s caps (λ s' caps', rmatch r2 s' caps' k)
  | Alt r1 r2 =>
      match rmatch r1 s caps k with
      | Some x => Some x
      | None => rmatch r2 s caps k
      end
  | Grp r1 =>
      rmatch r1 s caps
        (λ s' caps', k s' (caps' ++ [take (length s - length s') s]))
  end.

(** The result of [String.prototype.match] and [RegExp.prototype.exec]:
    the text before the match, the capture groups, the text after. *)
Record Match : Type := mkMatch {
  m_before : str;
  m_groups : list str;
  m_after : str
}.

Definition matchHere (r : regex) (s : str) : option (list str * str) :=
  rmatch r s [] (λ s' caps, Some (caps, s')).

Fixpoint searchFrom (r : regex) (before : str) (s : str) : option Match :=
  match matchHere r s with
  | Some (caps, s') => Some (mkMatch (reverse before) caps s')
  | None =>
      match s with
      | [] => None
      | a :: s' => searchFrom r (a :: before) s'
      end
  end.

(** [s.match(r)] without the global flag. *)
Definition search (r : regex) (s : str) : option Match := searchFrom r [] s.

(** The [i]-th capture group of a match. *)
Definition group (m : Match) (i : nat) : str := default [] (m_groups m !! (i - 1)%nat).

(** Character classes of the sources. *)
Definition idChar (c : ascii) : bool :=
  JS.isAlnum c || JS.chr c "_" || JS.chr c "-".
Definition tokenChar (c : ascii) : bool := JS.isAlnum c || JS.chr c "_".
Definition notChr (d : ascii) (c : ascii) : bool := negb (JS.chr c d).
Definition anyChar (c : ascii) : bool := true.
Definition dotChar (c : ascii) : bool := negb (JS.isLineTerminator c).

(** The double quote. *)
Definition dquote : ascii := ascii_of_N 34.

(** ** The Node runtime

    The sources call into Node's [url], [path], [zlib] and [crypto]
    modules.  Their results are taken as given: the embedding is a
    function of a runtime that provides them. *)

(** The parts of a WHATWG [URL] object that the sources read. *)
Record URL : Type := mkURL {
  protocol : str;
  hostname : str;
  pathname : str;
  searchParams : list (str * str)
}.

Class NodeRuntime : Type := {
  (** [new URL(s)]; [None] when the constructor throws *)
  newURL : str → option URL;
  (** [url.toString()] *)
  urlToString : URL → str;
  (** [new URL(location, base).toString()] *)
  resolveURL : str → str → str;
  (** [decodeURIComponent(s)]; [None] when it throws *)
  decodeURIComponent : str → option str;
  (** [path.resolve(process.cwd(), p)] *)
  path_resolve : str → str;
  path_isAbsolute : str → bool;
  path_join : str → str → str;
  path_dirname : str → str;
  (** [path.basename(p)] and [path.basename(p, ext)] *)
  path_basename : str → str;
  path_basenameExt : str → str → str;
  path_extname : str → str;
  (** the hexadecimal SHA-256 digest of a file's content *)
  sha256 : str → str;
  (** [zlib.gunzipSync], [zlib.inflateSync]; [None] when they throw *)
  gunzipSync : str → option str;
  inflateSync : str → option str
}.

(** [searchParams.get(name)]: the first value under that name. *)
Fixpoint searchParams_get (name : str) (ps : list (str * str)) : option str :=
  match ps with
  | [] => None
  | (k, v) :: ps' => if bool_decide (k = name) then Some v else searchParams_get name ps'
  end.

(** [searchParams.set(name, value)]: the first pair under that name gets
    the value and the others go; without one the pair is appended. *)
Fixpoint searchParams_set (name value : str) (ps : list (str * str)) : list (str * str) :=
  match ps with
  | [] => [(name, value)]
  | (k, v) :: ps' =>
      if bool_decide (k = name)
      then (k, value) :: filter (λ p, p.1 ≠ name) ps'
      else (k, v) :: searchParams_set name value ps'
  end.

(** ** types.ts *)

Inductive UrlType : Type :=
| TFile | TFolder | TDocument | TSpreadsheet | TPresentation | TDrawing | TUnknown.

Record ParsedUrl : Type := mkParsedUrl {
  pu_id : str;
  pu_type : UrlType;
  pu_resourceKey : option str
}.

Abbreviation CookieJar := (gmap str str).

Record FileMetadata : Type := mkFileMetadata {
  fm_id : str;
  fm_name : str;
  fm_size : option nat;
  fm_hash : option str;
  fm_mimeType : option str
}.

Inductive EntryType : Type := EFile | EFolder.

Record FolderEntry : Type := mkFolderEntry {
  fe_id : str;
  fe_name : str;
  fe_type : EntryType;
  fe_resourceKey : option str
}.

Record DownloadOptions : Type := mkDownloadOptions {
  opt_format : option str;
  opt_noCookies : bool;
  opt_noCheckCertificate : bool;
  opt_quiet : bool;
  opt_verbose : bool;
  opt_verify : bool;
  opt_remainingOk : bool;
  opt_continue : bool;
  opt_id : option str;
  opt_resourceKey : option str
}.

(** ** errors.ts: the errors the code throws, by class and message *)

Inductive JsError : Type :=
| Error (msg : str)
| TypeError (msg : str)
| RateLimitError (msg : str)
| FileNotFoundError (msg : str)
| PermissionError (msg : str).

Definition message (e : JsError) : str :=
  match e with
  | Error m | TypeError m | RateLimitError m
  | FileNotFoundError m | PermissionError m => m
  end.

(** ** parser.ts *)

Definition fileRe : regex := Lit false "/file/d/" ⋅ Grp (Rep true 1 idChar).

Definition folderRe : regex := Lit false "/drive/folders/" ⋅ Grp (Rep true 1 idChar).

Definition docRe : regex :=
  Lit false "/" ⋅
  Grp (Alt (Lit false "document")
      (Alt (Lit false "spreadsheets")
      (Alt (Lit false "presentation") (Lit false "drawings")))) ⋅
  Lit false "/d/" ⋅ Grp (Rep true 1 idChar).

Definition fuzzyRe : regex := Grp (Rep true 25 idChar).

(** [typeMap[name] || "unknown"] *)
Definition typeMap (name : str) : UrlType :=
  if bool_decide (name = "document") then TDocument
  else if bool_decide (name = "spreadsheets") then TSpreadsheet
  else if bool_decide (name = "presentation") then TPresentation
  else if bool_decide (name = "drawings") then TDrawing
  else TUnknown.

(** [value || undefined] *)
Definition orUndefined (o : option str) : option str :=
  match o with Some ((_ :: _) as s) => Some s | _ => None end.

Section Parser.
Context `{NodeRuntime}.

(** The last resort after the [try] block: a fuzzy match on the raw
    string, without a resource key. *)
Definition lastResort (url : str) : option ParsedUrl :=
  match search fuzzyRe url with
  | Some m => Some (mkParsedUrl (group m 1) TFile None)
  | None => None
  end.

(** The body of the [try] block, once [new URL(url)] has succeeded;
    [None] when it falls through to the last resort. *)
Definition parseStructured (url : str) (urlObj : URL) : option ParsedUrl :=
  let resourceKey := orUndefined (searchParams_get "resourcekey" (searchParams urlObj)) in
  let path := pathname urlObj in
  match (if JS.includes path "/file/d/" then search fileRe path else None) with
  | Some m => Some (mkParsedUrl (group m 1) TFile resourceKey)
  | None =>
  match (if JS.includes path "/drive/folders/" then search folderRe path else None) with
  | Some m => Some (mkParsedUrl (group m 1) TFolder resourceKey)
  | None =>
  match (if JS.includes (hostname urlObj) "docs.google.com"
         then search docRe path else None) with
  | Some m => Some (mkParsedUrl (group m 2) (typeMap (group m 1)) resourceKey)
  | None =>
      let ucId := searchParams_get "id" (searchParams urlObj) in
      if JS.truthy ucId && JS.includes path "/uc"
      then Some (mkParsedUrl (default [] ucId) TFile resourceKey)
      else
        let idParam := searchParams_get "id" (searchParams urlObj) in
        if JS.truthy idParam
        then Some (mkParsedUrl (default [] idParam) TFile resourceKey)
        else
          match search fuzzyRe url with
          | Some m =>
              if JS.includes url "drive.google.com"
              then Some (mkParsedUrl (group m 1) TFile resourceKey)
              else None
          | None => None
          end
  end end end.

Definition parseGoogleDriveUrl (url : str) : option ParsedUrl :=
  match newURL url with
  | Some urlObj =>
      match parseStructured url urlObj with
      | Some p => Some p
      | None => lastResort url
      end
  | None => lastResort url
  end.

(** [new URL("https://drive.google.com/uc")] with its query filled in. *)
Definition buildDownloadUrl (fileId : str) (resourceKey format : option str) : URL :=
  let q0 := searchParams_set "id" fileId (searchParams_set "export" "download" []) in
  let q1 := if JS.truthy resourceKey
            then searchParams_set "resourcekey" (default [] resourceKey) q0 else q0 in
  let q2 := if JS.truthy format
            then searchParams_set "format" (default [] format) q1 else q1 in
  mkURL "https:" "drive.google.com" "/uc" q2.

End Parser.

(** ** cookies.ts

    The jar is a plain object used as a dictionary from cookie names to
    values. *)

(** [cookieHeader]: the pairs of the jar joined by "; ", the entries
    taken in the order of [map_to_list]. *)
Definition cookieHeader (jar : CookieJar) : option str :=
  match map_to_list jar with
  | [] => None
  | entries => Some (JS.join "; " ((λ kv, kv.1 ++ "=" ++ kv.2) <$> entries))
  end.

(** One turn of the loop of [updateCookiesFromHeaders]. *)
Definition updateCookie (jar : CookieJar) (cookie : str) : CookieJar :=
  match JS.split ";" cookie with
  | [] => jar
  | part0 :: _ =>
      let nameValue := default [] (head (JS.split "=" part0)) in
      let value := JS.substring (length nameValue + 1) part0 in
      if JS.nonEmpty nameValue && JS.nonEmpty value
      then <[JS.trim nameValue := JS.trim value]> jar
      else jar
  end.

Definition updateCookiesFromHeaders (jar : CookieJar)
    (setCookieHeaders : option (list str)) : CookieJar :=
  match setCookieHeaders with
  | None => jar
  | Some cookies => foldl updateCookie jar cookies
  end.

(** ** The network and the observable effects

    A request is answered by the next event the network delivers: a
    response (the callback of [client.get] runs), an [error] event on
    the request, or the 60 second timer, whose callback destroys the
    request and rejects the promise.  A run records the requests it
    issues, the delays it waits for (in milliseconds; they are
    rationals because of the powers of 1.5) and the warnings it
    prints. *)

Record Response : Type := mkResponse {
  statusCode : Z;
  h_location : option str;
  h_setCookie : option (list str);
  h_contentEncoding : option str;
  h_contentDisposition : option str;
  rawBody : str
}.

Inductive NetEvent : Type :=
| NetResponse (res : Response)
| NetError (err : JsError)
| NetTimeout.

Inductive Effect : Type :=
| Get (url : str) (cookie : option str)
| Sleep (ms : Q)
| Warn (msg : str).

(** The state of a promise once the events have run out. *)
Inductive Settled (A : Type) : Type :=
| Resolved (a : A)
| Rejected (e : JsError)
| Pending.
Arguments Resolved {A} a.
Arguments Rejected {A} e.
Arguments Pending {A}.

Definition isGet (e : Effect) : bool :=
  match e with Get _ _ => true | _ => false end.

(** ** utils.ts *)

(** [Math.min(2000 * Math.pow(2, retryCount), 60000)], the delay of
    [fetchText] before it retries a 429 response. *)
Definition fetchRateLimitDelay (retryCount : nat) : Z :=
  Z.min (2000 * 2 ^ Z.of_nat retryCount) 60000.

(** [Math.min(2000 * Math.pow(2, retryCount), 30000)], its delay before
    it retries after an [error] event. *)
Definition fetchErrorDelay (retryCount : nat) : Z :=
  Z.min (2000 * 2 ^ Z.of_nat retryCount) 30000.

Record FetchRun : Type := mkFetchRun {
  fr_result : Settled str;
  fr_jar : option CookieJar;
  fr_net : list NetEvent;
  fr_trace : list Effect
}.

Definition fr_after (es : list Effect) (r : FetchRun) : FetchRun :=
  mkFetchRun (fr_result r) (fr_jar r) (fr_net r) (es ++ fr_trace r).

Definition isRedirect (res : Response) : bool :=
  (300 <=? statusCode res) && (statusCode res <? 400) && JS.truthy (h_location res).

Section Utils.
Context `{NodeRuntime}.

Definition decodeBody (buffer : str) (encoding : option str) : option str :=
  if bool_decide (encoding = Some (lit "gzip")) then gunzipSync buffer
  else if bool_decide (encoding = Some (lit "deflate")) then inflateSync buffer
  else Some buffer.

(** [fetchText(url, { jar, maxRetries, retryCount })].  [jar] is
    [options.jar]: when it is undefined every call works on a fresh
    object of its own, which the caller never sees. *)
Fixpoint fetchText (net : list NetEvent) (url : str) (jar : option CookieJar)
    (maxRetries retryCount : nat) : FetchRun :=
  match newURL url with
  | None => mkFetchRun (Rejected (TypeError "Invalid URL")) jar net []
  | Some _ =>
      let req := Get url (cookieHeader (default ∅ jar)) in
      match net with
      | [] => mkFetchRun Pending jar [] [req]
      | NetResponse res :: net' =>
          if isRedirect res then
            let nextUrl := resolveURL (default [] (h_location res)) url in
            fr_after [req] (fetchText net' nextUrl jar maxRetries retryCount)
          else if statusCode res =? 429 then
            if (retryCount <? maxRetries)%nat then
              fr_after [req; Sleep (inject_Z (fetchRateLimitDelay retryCount))]
                (fetchText net' url jar maxRetries (S retryCount))
            else
              mkFetchRun
                (Rejected (RateLimitError
                   ("Rate limited after " ++ JS.ofNat maxRetries ++ " retries")))
                jar net' [req]
          else if 400 <=? statusCode res then
            mkFetchRun
              (Rejected (Error ("HTTP " ++ lit (pretty (statusCode res))
                                ++ " when fetching " ++ url)))
              jar net' [req]
          else
            let jar' := (λ j, updateCookiesFromHeaders j (h_setCookie res)) <$> jar in
            match decodeBody (rawBody res) (h_contentEncoding res) with
            | Some text => mkFetchRun (Resolved text) jar' net' [req]
            | None => mkFetchRun (Rejected (Error "incorrect header check")) jar' net' [req]
            end
      | NetError err :: net' =>
          if (retryCount <? maxRetries)%nat then
            fr_after [req; Sleep (inject_Z (fetchErrorDelay retryCount))]
              (fetchText net' url jar maxRetries (S retryCount))
          else mkFetchRun (Rejected err) jar net' [req]
      | NetTimeout :: net' =>
          mkFetchRun (Rejected (Error "Request timeout")) jar net' [req]
      end
  end.

Definition utfNameRe : regex :=
  Lit true "filename*=UTF-8''" ⋅ Grp (Rep true 1 (notChr ";")).
Definition quotedNameRe : regex :=
  Lit true ("filename=" ++ [dquote]) ⋅ Grp (Rep true 1 (notChr dquote)) ⋅ Lit true [dquote].
Definition bareNameRe : regex :=
  Lit true "filename=" ⋅ Grp (Rep true 1 (notChr ";")).

Definition extractFilenameFromDisposition (disposition : str) : option str :=
  let regular :=
    match search quotedNameRe disposition with
    | Some m => Some (group m 1)
    | None =>
        match search bareNameRe disposition with
        | Some m => Some (JS.trim (group m 1))
        | None => None
        end
    end in
  match search utfNameRe disposition with
  | Some m =>
      match decodeURIComponent (group m 1) with
      | Some name => Some name
      | None => regular
      end
  | None => regular
  end.

(** The characters that [sanitizeFileName] replaces by an underscore. *)
Definition unsafeChar (c : ascii) : bool :=
  existsb (JS.chr c) (lit "<>:/\|?*") || JS.chr c dquote || (JS.code c <=? 31)%N.

Definition sanitizeFileName (name : option str) (fallback : str) : str :=
  let cleaned :=
    JS.trim ((λ c, if unsafeChar c then "_"%char else c) <$> JS.orElse name []) in
  match cleaned with
  | [] => fallback
  | _ => cleaned
  end.

End Utils.

(** ** The file system *)

Inductive FsNode : Type :=
| File (content : str)
| Dir.

Abbreviation FileSystem := (gmap str FsNode).

Definition existsSync (fs : FileSystem) (p : str) : bool :=
  bool_decide (is_Some (fs !! p)).

Definition isDirectory (fs : FileSystem) (p : str) : bool :=
  match fs !! p with Some Dir => true | _ => false end.

(** [fs.statSync(p).size] *)
Definition fileSize (fs : FileSystem) (p : str) : option nat :=
  match fs !! p with Some (File content) => Some (length content) | _ => None end.

Section UniqueName.
Context `{NodeRuntime}.

(** The candidate that the loop of [ensureUniqueName] builds from
    the counter. *)
Definition numbered (base ext : str) (counter : nat) : str :=
  base ++ " (" ++ JS.ofNat counter ++ ")" ++ ext.

(** The [while] loop; the fuel bounds the number of turns. *)
Fixpoint uniqueLoop (fs : FileSystem) (dir base ext : str)
    (fuel : nat) (candidate : str) (counter : nat) : option str :=
  if existsSync fs (path_join dir candidate) then
    match fuel with
    | O => None
    | S fuel' =>
        uniqueLoop fs dir base ext fuel' (numbered base ext counter) (S counter)
    end
  else Some candidate.

(** [ensureUniqueName(dir, desiredName)]; among the first [n + 1]
    numbered candidates one is missing from a file system of [n]
    entries, so that the fuel suffices. *)
Definition ensureUniqueName (fs : FileSystem) (dir desiredName : str) : option str :=
  let ext := path_extname desiredName in
  let base := path_basenameExt desiredName ext in
  uniqueLoop fs dir base ext (S (size fs)) desiredName 1.

End UniqueName.

(** ** cache.ts

    The cache directory holds one JSON file per resource id; it is
    read and written as a map from ids to records. *)

Abbreviation Cache := (gmap str FileMetadata).

Definition loadMetadata (cache : Cache) (fileId : str) : option FileMetadata :=
  cache !! fileId.

Definition saveMetadata (cache : Cache) (metadata : FileMetadata) : Cache :=
  <[fm_id metadata := metadata]> cache.

Section CacheHash.
Context `{NodeRuntime}.

(** [calculateFileHash]; the stream fails on a path that is not a file. *)
Definition calculateFileHash (fs : FileSystem) (filePath : str) : Settled str :=
  match fs !! filePath with
  | Some (File content) => Resolved (sha256 content)
  | Some Dir => Rejected (Error "EISDIR: illegal operation on a directory, read")
  | None => Rejected (Error "ENOENT: no such file or directory")
  end.

Definition verifyFileHash (fs : FileSystem) (filePath expectedHash : str) : bool :=
  match calculateFileHash fs filePath with
  | Resolved actualHash => bool_decide (actualHash = expectedHash)
  | _ => false
  end.

Definition isFileValid (fs : FileSystem) (filePath : str) (expectedHash : option str) : bool :=
  if negb (existsSync fs filePath) then false
  else if JS.truthy expectedHash
       then verifyFileHash fs filePath (default [] expectedHash)
       else true.

End CacheHash.

(** ** formats.ts *)

Definition DOCUMENT_FORMATS : list str :=
  [lit "pdf"; lit "docx"; lit "odt"; lit "rtf"; lit "txt"; lit "html"; lit "epub"].
Definition SPREADSHEET_FORMATS : list str :=
  [lit "xlsx"; lit "ods"; lit "csv"; lit "tsv"; lit "pdf"; lit "html"].
Definition PRESENTATION_FORMATS : list str :=
  [lit "pptx"; lit "odp"; lit "pdf"; lit "txt"; lit "png"; lit "jpg"; lit "svg"].

(** [TABLE[format.toLowerCase()] || null]; every table maps a name to itself. *)
Definition lookupFormat (table : list str) (format : str) : option str :=
  let normalized := JS.toLower <$> format in
  if bool_decide (normalized ∈ table) then Some normalized else None.

Definition getExportFormat (fileType : UrlType) (format : str) : option str :=
  match fileType with
  | TDocument => lookupFormat DOCUMENT_FORMATS format
  | TSpreadsheet => lookupFormat SPREADSHEET_FORMATS format
  | TPresentation => lookupFormat PRESENTATION_FORMATS format
  | _ => None
  end.

(** ** download.ts *)

Record DownloadAttempt : Type := mkAttempt {
  da_success : bool;
  da_filePath : option str;
  da_body : option str;
  da_statusCode : Z
}.

Definition linkTokenRe : regex :=
  Lit false "confirm=" ⋅ Grp (Rep true 1 tokenChar) ⋅ Lit false "&amp;id=".

Definition inputTokenRe : regex :=
  Lit false ("name=" ++ [dquote] ++ "confirm" ++ [dquote]) ⋅ Rep true 1 JS.isSpace ⋅
  Lit false ("value=" ++ [dquote]) ⋅ Grp (Rep true 1 tokenChar) ⋅ Lit false [dquote].

Definition extractConfirmToken (html : str) : option str :=
  match search linkTokenRe html with
  | Some tokenMatch => Some (group tokenMatch 1)
  | None =>
      match search inputTokenRe html with
      | Some inputMatch => Some (group inputMatch 1)
      | None => None
      end
  end.

(** What a download request leaves behind: the promise, the jar (one
    object, updated in place), the file system, the events not yet
    consumed and the effects. *)
Record RequestRun : Type := mkRequestRun {
  rr_result : Settled DownloadAttempt;
  rr_jar : CookieJar;
  rr_fs : FileSystem;
  rr_net : list NetEvent;
  rr_trace : list Effect
}.

Definition rr_after (es : list Effect) (r : RequestRun) : RequestRun :=
  mkRequestRun (rr_result r) (rr_jar r) (rr_fs r) (rr_net r) (es ++ rr_trace r).

Section Download.
Context `{NodeRuntime}.

Fixpoint performDownloadRequest (net : list NetEvent) (urlStr destDir : str)
    (preferredName : option str) (jar : CookieJar) (fs : FileSystem) : RequestRun :=
  match newURL urlStr with
  | None => mkRequestRun (Rejected (TypeError "Invalid URL")) jar fs net []
  | Some _ =>
      let req := Get urlStr (cookieHeader jar) in
      match net with
      | [] => mkRequestRun Pending jar fs [] [req]
      | NetResponse res :: net' =>
          let jar' := updateCookiesFromHeaders jar (h_setCookie res) in
          if statusCode res =? 429 then
            mkRequestRun
              (Resolved (mkAttempt false None (Some (lit "Rate limited (429)")) 429))
              jar' fs net' [req]
          else if isRedirect res then
            let nextUrl := resolveURL (default [] (h_location res)) urlStr in
            rr_after [req] (performDownloadRequest net' nextUrl destDir preferredName jar' fs)
          else if JS.truthy (h_contentDisposition res) && (statusCode res =? 200) then
            let inferredName :=
              extractFilenameFromDisposition (default [] (h_contentDisposition res)) in
            let fallback :=
              sanitizeFileName (Some (JS.orElse preferredName "download")) "download" in
            let baseName :=
              sanitizeFileName (Some (JS.orElse inferredName fallback)) fallback in
            match ensureUniqueName fs destDir baseName with
            | None => mkRequestRun Pending jar' fs net' [req]
            | Some finalName =>
                let filePath := path_join destDir finalName in
                mkRequestRun
                  (Resolved (mkAttempt true (Some filePath) None (statusCode res)))
                  jar' (<[filePath := File (rawBody res)]> fs) net' [req]
            end
          else
            match decodeBody (rawBody res) (h_contentEncoding res) with
            | Some body =>
                mkRequestRun (Resolved (mkAttempt false None (Some body) (statusCode res)))
                  jar' fs net' [req]
            | None =>
                mkRequestRun (Rejected (Error "incorrect header check")) jar' fs net' [req]
            end
      | NetError err :: net' => mkRequestRun (Rejected err) jar fs net' [req]
      | NetTimeout :: net' =>
          mkRequestRun (Rejected (Error "Request timeout")) jar fs net' [req]
      end
  end.

End Download.

(** The state that [downloadFile] works on besides the network: the
    file system, the metadata cache and the cookie file (what
    [loadCookies] reads and [saveCookies] writes). *)
Record World : Type := mkWorld {
  w_fs : FileSystem;
  w_cache : Cache;
  w_cookieFile : CookieJar
}.

Record LoopState : Type := mkLoopState {
  ls_jar : CookieJar;
  ls_world : World;
  ls_net : list NetEvent;
  ls_trace : list Effect
}.

(** How the body of the [try] block of one attempt ends. *)
Inductive TryOutcome : Type :=
| TReturn (filePath : str)
| TNext (confirmToken : option str)
| TThrow (err : JsError)
| TPending.

Definition maxAttempts : nat := 15.

(** [Math.min(5000 * Math.pow(2, attempt), 120000)] *)
Definition downloadRateLimitDelay (attempt : nat) : Z :=
  Z.min (5000 * 2 ^ Z.of_nat attempt) 120000.

(** [Math.min(3000 * Math.pow(1.5, attempt), 30000)] *)
Definition tokenMissingDelay (attempt : nat) : Q :=
  Qred (Qmin (3000 * (3 # 2) ^ Z.of_nat attempt) 30000).

(** [Math.min(2000 + attempt * 1000, 15000)] *)
Definition confirmDelay (attempt : nat) : Z :=
  Z.min (2000 + Z.of_nat attempt * 1000) 15000.

(** [Math.min(2000 * Math.pow(1.5, attempt), 20000)] *)
Definition errorDelay (attempt : nat) : Q :=
  Qred (Qmin (2000 * (3 # 2) ^ Z.of_nat attempt) 20000).

Definition bodyRateLimited (body : str) : bool :=
  JS.includes body "rate limit" || JS.includes body "quota" ||
  JS.includes body "429" || JS.includes body "Too many requests".

Definition messageRateLimited (errorMsg : str) : bool :=
  JS.includes errorMsg "429" || JS.includes errorMsg "rate limit" ||
  JS.includes errorMsg "quota" || JS.includes errorMsg "Too many requests".

Definition ls_sleep (ms : Q) (st : LoopState) : LoopState :=
  mkLoopState (ls_jar st) (ls_world st) (ls_net st) (ls_trace st ++ [Sleep ms]).

(** The URL of one attempt: the download URL, with the confirmation
    token once one has been obtained. *)
Definition requestUrl (downloadUrl : URL) (confirmToken : option str) : URL :=
  if JS.truthy confirmToken
  then mkURL (protocol downloadUrl) (hostname downloadUrl) (pathname downloadUrl)
         (searchParams_set "confirm" (default [] confirmToken) (searchParams downloadUrl))
  else downloadUrl.

Section DownloadFile.
Context `{NodeRuntime}.

Variable options : DownloadOptions.
Variables (fileId destDir : str) (preferredName : option str) (downloadUrl : URL).

(** The [try] block of one turn of the attempt loop.  Console output
    and the progress callback are left out. *)
Definition tryBody (attempt : nat) (confirmToken : option str) (st : LoopState)
    : TryOutcome * LoopState :=
  let url := requestUrl downloadUrl confirmToken in
  let r := performDownloadRequest (ls_net st) (urlToString url) destDir preferredName
             (ls_jar st) (w_fs (ls_world st)) in
  let w := ls_world st in
  let st1 := mkLoopState (rr_jar r) (mkWorld (rr_fs r) (w_cache w) (w_cookieFile w))
               (rr_net r) (ls_trace st ++ rr_trace r) in
  match rr_result r with
  | Pending => (TPending, st1)
  | Rejected e => (TThrow e, st1)
  | Resolved result =>
      if da_success result && JS.truthy (da_filePath result) then
        let filePath := default [] (da_filePath result) in
        let cookieFile := if opt_noCookies options then w_cookieFile w else rr_jar r in
        let st2 := mkLoopState (rr_jar r) (mkWorld (rr_fs r) (w_cache w) cookieFile)
                     (rr_net r) (ls_trace st1) in
        if opt_verify options then
          match calculateFileHash (rr_fs r) filePath with
          | Resolved hash =>
              let metadata :=
                mkFileMetadata fileId (path_basename filePath)
                  (fileSize (rr_fs r) filePath) (Some hash) None in
              (TReturn filePath,
               mkLoopState (rr_jar r)
                 (mkWorld (rr_fs r) (saveMetadata (w_cache w) metadata) cookieFile)
                 (rr_net r) (ls_trace st1))
          | Rejected e => (TThrow e, st2)
          | Pending => (TPending, st2)
          end
        else (TReturn filePath, st2)
      else
        let body := JS.orElse (da_body result) [] in
        if (da_statusCode result =? 429) || bodyRateLimited body then
          (TNext confirmToken,
           ls_sleep (inject_Z (downloadRateLimitDelay attempt)) st1)
        else if JS.includes body "permission" || JS.includes body "access denied"
                || (da_statusCode result =? 403) then
          (TThrow (PermissionError
             "Permission denied. The file may not be publicly accessible."), st1)
        else if JS.includes body "not found" || (da_statusCode result =? 404) then
          (TThrow (FileNotFoundError "File not found on Google Drive."), st1)
        else
          match extractConfirmToken body with
          | None =>
              if (attempt <? maxAttempts - 1)%nat
              then (TNext confirmToken, ls_sleep (tokenMissingDelay attempt) st1)
              else (TThrow (Error "Unable to obtain Google Drive confirmation token"), st1)
          | Some token =>
              if (attempt <? maxAttempts - 1)%nat
              then (TNext (Some token), ls_sleep (inject_Z (confirmDelay attempt)) st1)
              else (TNext (Some token), st1)
          end
  end.

(** The [for] loop with its [catch] clause; the fuel counts the turns
    and is never used up when it starts at [maxAttempts]. *)
Fixpoint attemptLoop (fuel attempt : nat) (confirmToken : option str)
    (st : LoopState) : Settled str * LoopState :=
  if (attempt <? maxAttempts)%nat then
    match fuel with
    | O => (Pending, st)
    | S fuel' =>
        match tryBody attempt confirmToken st with
        | (TReturn filePath, st') => (Resolved filePath, st')
        | (TPending, st') => (Pending, st')
        | (TNext confirmToken', st') => attemptLoop fuel' (S attempt) confirmToken' st'
        | (TThrow err, st') =>
            if messageRateLimited (message err) then
              attemptLoop fuel' (S attempt) confirmToken
                (ls_sleep (inject_Z (downloadRateLimitDelay attempt)) st')
            else if bool_decide (attempt = (maxAttempts - 1)%nat) then (Rejected err, st')
            else
              attemptLoop fuel' (S attempt) confirmToken
                (ls_sleep (errorDelay attempt) st')
        end
    end
  else
    (Rejected (Error "Exceeded maximum attempts while downloading from Google Drive"), st).

End DownloadFile.

Record DownloadRun : Type := mkDownloadRun {
  dr_result : Settled str;
  dr_world : World;
  dr_net : list NetEvent;
  dr_trace : list Effect
}.

Section DownloadFileTop.
Context `{NodeRuntime}.

(** [finalPath] of the cache pre-check: where the file of a cached
    record is looked for. *)
Definition expectedPath (fileId destDir : str) (preferredName : option str)
    (metadata : FileMetadata) : str :=
  if JS.truthy preferredName
  then path_join destDir (default [] preferredName)
  else path_join destDir (JS.orElse (Some (fm_name metadata)) fileId).

(** The cache pre-check of [downloadFile]: the path it returns when
    the cached hash still matches the file. *)
Definition cachedPath (options : DownloadOptions) (w : World)
    (fileId destDir : str) (preferredName : option str) : option str :=
  if opt_verify options then
    match loadMetadata (w_cache w) fileId with
    | Some metadata =>
        if JS.truthy (fm_hash metadata) then
          let finalPath := expectedPath fileId destDir preferredName metadata in
          if isFileValid (w_fs w) finalPath (fm_hash metadata)
          then Some finalPath else None
        else None
    | None => None
    end
  else None.

(** The id, the resource key and the type that [downloadFile] works
    with; [None] when the reference cannot be resolved. *)
Definition resolveId (options : DownloadOptions) (urlOrId : str)
    : option (str * option str * option UrlType) :=
  if JS.truthy (opt_id options)
  then Some (default [] (opt_id options), opt_resourceKey options, None)
  else
    match parseGoogleDriveUrl urlOrId with
    | None => None
    | Some p =>
        Some (pu_id p,
              (if JS.truthy (pu_resourceKey p)
               then pu_resourceKey p else opt_resourceKey options),
              Some (pu_type p))
    end.

(** The destination directory, the preferred file name and the file
    system once the directory has been made. *)
Definition resolveOutput (fs : FileSystem) (output : option str) (fileId : str)
    : str * option str * FileSystem :=
  let outputPath :=
    if JS.truthy output
    then (if path_isAbsolute (default [] output)
          then default [] output else path_resolve (default [] output))
    else path_resolve fileId in
  let isDir := existsSync fs outputPath && isDirectory fs outputPath in
  let destDir := if isDir then outputPath else path_dirname outputPath in
  let preferredName := if isDir then None else Some (path_basename outputPath) in
  (destDir, preferredName,
   if existsSync fs destDir then fs else <[destDir := Dir]> fs).

Definition exportUrl (options : DownloadOptions) (fileId : str)
    (resourceKey : option str) (fileType : option UrlType) : URL :=
  let plainUrl := buildDownloadUrl fileId resourceKey None in
  match opt_format options, fileType with
  | Some ((_ :: _) as format), Some ty =>
      match getExportFormat ty format with
      | Some exportFormat => buildDownloadUrl fileId resourceKey (Some exportFormat)
      | None => plainUrl
      end
  | _, _ => plainUrl
  end.

(** The attempt loop from its first turn on. *)
Definition downloadAttempts (options : DownloadOptions) (fileId destDir : str)
    (preferredName : option str) (downloadUrl : URL) (jar : CookieJar)
    (w : World) (net : list NetEvent) : DownloadRun :=
  let '(result, st) :=
    attemptLoop options fileId destDir preferredName downloadUrl
      maxAttempts 0 None (mkLoopState jar w net []) in
  mkDownloadRun result (ls_world st) (ls_net st) (ls_trace st).

Definition downloadFile (urlOrId : str) (output : option str)
    (options : DownloadOptions) (w : World) (net : list NetEvent) : DownloadRun :=
  match resolveId options urlOrId with
  | None =>
      mkDownloadRun
        (Rejected (Error ("Unable to extract Google Drive ID from: " ++ urlOrId))) w net []
  | Some (fileId, resourceKey, fileType) =>
      let '(destDir, preferredName, fs1) := resolveOutput (w_fs w) output fileId in
      let w1 := mkWorld fs1 (w_cache w) (w_cookieFile w) in
      let jar : CookieJar := if opt_noCookies options then ∅ else w_cookieFile w in
      match cachedPath options w1 fileId destDir preferredName with
      | Some finalPath => mkDownloadRun (Resolved finalPath) w1 net []
      | None =>
          downloadAttempts options fileId destDir preferredName
            (exportUrl options fileId resourceKey fileType) jar w1 net
      end
  end.

End DownloadFileTop.

(** ** folder.ts *)

Definition MAX_FILES_PER_FOLDER : nat := 50.

Definition decodeHtmlEntities (value : str) : str :=
  JS.replaceAll "&#x2F;" "/"
    (JS.replaceAll "&#39;" "'"
      (JS.replaceAll "&quot;" [dquote]
        (JS.replaceAll "&gt;" ">"
          (JS.replaceAll "&lt;" "<"
            (JS.replaceAll "&amp;" "&" value))))).

(** The pattern of one entry of a listing page: the entry id, the
    link and the title are its three groups. *)
Definition entryRegex : regex :=
  Lit false ("<div class=" ++ [dquote] ++ "flip-entry" ++ [dquote]
             ++ " id=" ++ [dquote] ++ "entry-") ⋅
  Grp (Rep true 1 (notChr dquote)) ⋅ Lit false [dquote] ⋅
  Rep false 0 anyChar ⋅
  Lit false ("<a href=" ++ [dquote]) ⋅
  Grp (Rep true 1 (notChr dquote)) ⋅ Lit false [dquote] ⋅
  Rep true 0 (notChr ">") ⋅ Lit false ">" ⋅
  Rep false 0 anyChar ⋅
  Lit false ("<div class=" ++ [dquote] ++ "flip-entry-title" ++ [dquote] ++ ">") ⋅
  Grp (Rep false 0 dotChar) ⋅ Lit false "</div>".

Record FolderRun : Type := mkFolderRun {
  fo_result : Settled (list FolderEntry);
  fo_net : list NetEvent;
  fo_trace : list Effect
}.

Definition folderWarning : str :=
  "Warning: Folder contains more than " ++ JS.ofNat MAX_FILES_PER_FOLDER
  ++ " files. Only the first " ++ JS.ofNat MAX_FILES_PER_FOLDER ++ " will be downloaded.".

Section Folder.
Context `{NodeRuntime}.

Definition classifyDriveHref (href : str) : option str * EntryType * option str :=
  match newURL href with
  | None => (None, EFile, None)
  | Some u =>
      let resourceKey := orUndefined (searchParams_get "resourcekey" (searchParams u)) in
      if JS.includes (pathname u) "/drive/folders/" then
        (match search folderRe (pathname u) with
         | Some m => Some (group m 1)
         | None => None
         end, EFolder, resourceKey)
      else if JS.includes (pathname u) "/file/d/" then
        (match search fileRe (pathname u) with
         | Some m => Some (group m 1)
         | None => None
         end, EFile, resourceKey)
      else
        let idParam := searchParams_get "id" (searchParams u) in
        if JS.truthy idParam then (idParam, EFile, resourceKey)
        else (None, EFile, None)
  end.

(** What one match of [entryRegex] contributes: nothing when the
    link carries no id (the [continue] of the loop). *)
Definition entryOfMatch (m : Match) : option FolderEntry :=
  let href := decodeHtmlEntities (group m 2) in
  let title := JS.trim (decodeHtmlEntities (group m 3)) in
  match classifyDriveHref href with
  | (Some ((_ :: _) as id), type, childResourceKey) =>
      Some (mkFolderEntry id (JS.orElse (Some title) id) type childResourceKey)
  | _ => None
  end.

(** The [while] loop over [entryRegex.exec(html)]: [rest] is the
    text from [lastIndex] on.  Every match consumes text, so that a
    fuel above the length of the page is never used up. *)
Fixpoint entriesLoop (fuel : nat) (rest : str) (entries : list FolderEntry)
    (fileCount : nat) : list FolderEntry * nat :=
  match fuel with
  | O => (entries, fileCount)
  | S fuel' =>
      match search entryRegex rest with
      | None => (entries, fileCount)
      | Some m =>
          if (fileCount <? MAX_FILES_PER_FOLDER)%nat then
            match entryOfMatch m with
            | None => entriesLoop fuel' (m_after m) entries fileCount
            | Some entry =>
                entriesLoop fuel' (m_after m) (entries ++ [entry]) (S fileCount)
            end
          else (entries, fileCount)
      end
  end.

(** The part of [fetchDriveFolderEntries] after the page has been
    fetched: the entries and the warnings printed. *)
Definition parseFolderPage (quiet : bool) (html : str) : list FolderEntry * list Effect :=
  let '(entries, fileCount) := entriesLoop (S (length html)) html [] 0 in
  (entries,
   if (MAX_FILES_PER_FOLDER <=? fileCount)%nat && negb quiet
   then [Warn folderWarning] else []).

Definition folderListingUrl (folderId : str) (resourceKey : option str) : str :=
  "https://drive.google.com/embeddedfolderview?id=" ++ folderId
  ++ (if JS.truthy resourceKey then "&resourcekey=" ++ default [] resourceKey else [])
  ++ "#list".

Definition fetchDriveFolderEntries (folderId : str) (resourceKey : option str)
    (options : DownloadOptions) (w : World) (net : list NetEvent) : FolderRun :=
  let url := folderListingUrl folderId resourceKey in
  let jar : CookieJar := if opt_noCookies options then ∅ else w_cookieFile w in
  let r := fetchText net url (Some jar) 5 0 in
  match fr_result r with
  | Resolved html =>
      let '(entries, warnings) := parseFolderPage (opt_quiet options) html in
      mkFolderRun (Resolved entries) (fr_net r) (fr_trace r ++ warnings)
  | Rejected e => mkFolderRun (Rejected e) (fr_net r) (fr_trace r)
  | Pending => mkFolderRun Pending (fr_net r) (fr_trace r)
  end.

(** All the entries of a page, without the cap: what the matches of
    [entryRegex] yield one after the other. *)
Fixpoint allEntries (fuel : nat) (rest : str) : list FolderEntry :=
  match fuel with
  | O => []
  | S fuel' =>
      match search entryRegex rest with
      | None => []
      | Some m => option_list (entryOfMatch m) ++ allEntries fuel' (m_after m)
      end
  end.

Definition pageEntries (html : str) : list FolderEntry := allEntries (S (length html)) html.

End Folder.

(** ** A runtime for the examples

    URLs of the plain form [scheme://host/path?query#fragment] without
    escapes, POSIX paths without dot segments under the working
    directory [/cwd], bodies that are not compressed, and the content
    itself standing for its digest. *)

Definition simpleQuery (q : str) : list (str * str) :=
  (λ kv, let k := JS.takeWhile (notChr "=") kv in (k, drop (S (length k)) kv))
  <$> filter (λ kv, kv ≠ []) (JS.split "&" q).

Definition simpleURL (s : str) : option URL :=
  match search (Lit false "://") s with
  | None => None
  | Some m =>
      let noFragment := JS.takeWhile (notChr "#") (m_after m) in
      let beforeQuery := JS.takeWhile (notChr "?") noFragment in
      let query := drop (S (length beforeQuery)) noFragment in
      let host := JS.takeWhile (notChr "/") beforeQuery in
      let path := drop (length host) beforeQuery in
      Some (mkURL (m_before m ++ ":") host (match path with [] => lit "/" | _ => path end)
              (simpleQuery query))
  end.

Definition simpleUrlToString (u : URL) : str :=
  protocol u ++ "//" ++ hostname u ++ pathname u ++
  match searchParams u with
  | [] => []
  | ps => "?" ++ JS.join "&" ((λ kv, kv.1 ++ "=" ++ kv.2) <$> ps)
  end.

Definition simpleBasename (p : str) : str :=
  reverse (JS.takeWhile (notChr "/") (reverse p)).

Definition simpleDirname (p : str) : str :=
  match reverse (drop 1 (JS.dropWhile (notChr "/") (reverse p))) with
  | [] => lit "/"
  | d => d
  end.

Definition simpleExtname (p : str) : str :=
  let b := simpleBasename p in
  let e := reverse (JS.takeWhile (notChr ".") (reverse b)) in
  if bool_decide (length e + 1 < length b)%nat
  then drop (length b - length e - 1) b else [].

Definition simpleBasenameExt (p ext : str) : str :=
  let b := simpleBasename p in
  if JS.nonEmpty ext && bool_decide (drop (length b - length ext) b = ext)
     && bool_decide (length ext < length b)%nat
  then take (length b - length ext) b else b.

Definition exampleRuntime : NodeRuntime := {|
  newURL := simpleURL;
  urlToString := simpleUrlToString;
  resolveURL := λ location _, location;
  decodeURIComponent := Some;
  path_resolve := λ p, "/cwd/" ++ p;
  path_isAbsolute := JS.startsWith "/";
  path_join := λ a b, a ++ "/" ++ b;
  path_dirname := simpleDirname;
  path_basename := simpleBasename;
  path_basenameExt := simpleBasenameExt;
  path_extname := simpleExtname;
  sha256 := λ content, "sha256:" ++ content;
  gunzipSync := Some;
  inflateSync := Some
|}.

Definition defaultOptions : DownloadOptions :=
  mkDownloadOptions None false false false false false false false None None.

Definition emptyWorld : World := mkWorld ∅ ∅ ∅.

(** A response with nothing but a status and a body. *)
Definition plainResponse (status : Z) (body : str) : Response :=
  mkResponse status None None None None body.

(** ** What a pattern matches

    [Matches r s s' caps]: the pattern [r] matches a prefix of [s],
    [s'] is what follows the match, [caps] are the texts of its
    groups.  The matcher is sound and complete for this relation; which
    of several matches it returns is fixed by the priorities. *)

Inductive Matches : regex → str → str → list str → Prop :=
| M_Lit ci l s s' :
    litMatch ci l s = Some s' → Matches (Lit ci l) s s' []
| M_Rep g lo cls t s' :
    (lo ≤ length t)%nat → Forall (λ c, cls c = true) t →
    Matches (Rep g lo cls) (t ++ s') s' []
| M_Seq r1 r2 s s1 s2 c1 c2 :
    Matches r1 s s1 c1 → Matches r2 s1 s2 c2 → Matches (Seq r1 r2) s s2 (c1 ++ c2)
| M_AltL r1 r2 s s' cs :
    Matches r1 s s' cs → Matches (Alt r1 r2) s s' cs
| M_AltR r1 r2 s s' cs :
    Matches r2 s s' cs → Matches (Alt r1 r2) s s' cs
| M_Grp r t s' cs :
    Matches r (t ++ s') s' cs → Matches (Grp r) (t ++ s') s' (cs ++ [t]).

(** The pattern occurs in [s] after the prefix [p]. *)
Definition OccursAt (r : regex) (s p : str) : Prop :=
  ∃ q s' cs, s = p ++ q ∧ Matches r q s' cs.


(** ** Where the patterns of the confirmation token occur

    [LinkTokenAt html pre tok]: after the prefix [pre] the page reads
    [confirm=tok&amp;id=]; [InputTokenAt html pre tok]: after [pre] it
    reads the hidden field [name="confirm" value="tok"], with white
    space between the two attributes. *)

Definition isToken (tok : str) : Prop :=
  tok ≠ [] ∧ Forall (λ c, tokenChar c = true) tok.

Definition LinkTokenAt (html pre tok : str) : Prop :=
  ∃ post, html = pre ++ "confirm=" ++ tok ++ "&amp;id=" ++ post ∧ isToken tok.

Definition InputTokenAt (html pre tok : str) : Prop :=
  ∃ ws post,
    html = pre ++ ("name=" ++ [dquote] ++ "confirm" ++ [dquote]) ++ ws
               ++ ("value=" ++ [dquote]) ++ tok ++ [dquote] ++ post ∧
    ws ≠ [] ∧ Forall (λ c, JS.isSpace c = true) ws ∧ isToken tok.

(** The occurrence that starts first. *)
Definition Leftmost {B} (P : str → B → Prop) (tok : B) : Prop :=
  ∃ pre, P pre tok ∧ ∀ pre' tok', P pre' tok' → (length pre ≤ length pre')%nat.

(** Pages for the examples: a download link with a token, a hidden
    form field with another one, and a page with both, the form field
    first. *)
Definition linkPrefix : str := "<a href=" ++ [dquote] ++ "/uc?export=download&amp;".
Definition linkSuffix : str := "FILE1" ++ [dquote] ++ ">Download anyway</a>".
Definition linkPage : str := linkPrefix ++ "confirm=t0K_n&amp;id=" ++ linkSuffix.
Definition fieldPrefix : str := "<input type=" ++ [dquote] ++ "hidden" ++ [dquote] ++ " ".
Definition fieldPage : str :=
  fieldPrefix ++ "name=" ++ [dquote] ++ "confirm" ++ [dquote] ++ " value="
  ++ [dquote] ++ "Ab_9" ++ [dquote] ++ ">".
Definition bothPage : str := fieldPage ++ linkPage.

(** ** Where the patterns of a resource id occur

    [IdAt prefix path pre id]: after [pre] the path reads [prefix] and
    then the id, a run of id characters that ends where they end.
    [DocIdAt path pre (word, id)]: after [pre] it reads [/word/d/] and
    then the id, for one of the four editor names. *)

Definition endsRun (cls : ascii → bool) (rest : str) : Prop :=
  match rest with [] => True | c :: _ => cls c = false end.

Definition isId (id : str) : Prop :=
  id ≠ [] ∧ Forall (λ c, idChar c = true) id.

Definition IdAt (prefix path pre id : str) : Prop :=
  ∃ rest, path = pre ++ prefix ++ id ++ rest ∧ isId id ∧ endsRun idChar rest.

Definition docWords : list str :=
  [lit "document"; lit "spreadsheets"; lit "presentation"; lit "drawings"].

Definition DocIdAt (path pre : str) (wid : str * str) : Prop :=
  ∃ rest, path = pre ++ "/" ++ wid.1 ++ "/d/" ++ wid.2 ++ rest ∧
          wid.1 ∈ docWords ∧ isId wid.2 ∧ endsRun idChar rest.

(** URLs for the examples, as the WHATWG parser reads them. *)
Definition folderThenFileUrl : str :=
  "https://drive.google.com/drive/folders/FOLDER1/file/d/FILE2".
Definition emptyKeyUrl : str :=
  "https://drive.google.com/file/d/ABC123/view?resourcekey=".
Definition fileUrl : str := "https://drive.google.com/file/d/ABC123/view?resourcekey=0-k".
Definition folderUrl : str := "https://drive.google.com/drive/folders/XYZ987".
Definition sheetUrl : str := "https://docs.google.com/spreadsheets/d/SHEET1/edit".

(** ** The lines of a Set-Cookie header

    [SetCookieLine cookie name value]: the line reads [name=value],
    followed by nothing or by a semicolon and attributes.  The line
    [Writes] a key when neither part is empty and the trimmed name is
    that key. *)

Definition SetCookieLine (cookie name value : str) : Prop :=
  ∃ attrs,
    cookie = name ++ "=" ++ value ++ attrs ∧
    Forall (λ c, notChr "=" c = true ∧ notChr ";" c = true) name ∧
    Forall (λ c, notChr ";" c = true) value ∧
    endsRun (notChr ";") attrs.

Definition Writes (cookie key : str) : Prop :=
  ∃ name value, SetCookieLine cookie name value ∧ name ≠ [] ∧ value ≠ [] ∧ JS.trim name = key.

(** A jar and header lines for the examples. *)
Definition sessionJar : CookieJar := {[ lit "sid" := lit "1" ]}.
Definition sidLine : str := "sid= 3 ; HttpOnly".
Definition emptyLine : str := "theme=; Path=/".
Definition langLine : str := "lang=en".

(** A directory that holds a report, and the same one after a first
    download of a file of that name. *)
Definition reportDir : FileSystem :=
  {[ lit "/cwd/out" := Dir; lit "/cwd/out/report.pdf" := File "first" ]}.
Definition reportDir1 : FileSystem :=
  <[ lit "/cwd/out/report (1).pdf" := File "second" ]> reportDir.

(** ** What [fetchText] retries

    A 429 response and an [error] event are the two events that
    [fetchText] answers by a retry.  [retryDelay] is the delay before
    the retry when the counter stands at [retryCount], [giveUp] the
    rejection once the counter has reached the ceiling, [retryTrace] the
    effects of a run of retries that starts at [retryCount]. *)

Definition Retryable (e : NetEvent) : Prop :=
  match e with
  | NetResponse res => statusCode res = 429
  | NetError _ => True
  | NetTimeout => False
  end.

Definition retryDelay (e : NetEvent) (retryCount : nat) : Z :=
  match e with
  | NetResponse _ => fetchRateLimitDelay retryCount
  | _ => fetchErrorDelay retryCount
  end.

Definition giveUp (maxRetries : nat) (e : NetEvent) : JsError :=
  match e with
  | NetResponse _ =>
      RateLimitError ("Rate limited after " ++ JS.ofNat maxRetries ++ " retries")
  | NetError err => err
  | NetTimeout => Error "Request timeout"
  end.

Fixpoint retryTrace (url : str) (cookie : option str) (retryCount : nat)
    (events : list NetEvent) : list Effect :=
  match events with
  | [] => []
  | e :: events' =>
      Get url cookie :: Sleep (inject_Z (retryDelay e retryCount))
      :: retryTrace url cookie (S retryCount) events'
  end.

(** Events for the examples. *)
Definition tooManyRequests : NetEvent := NetResponse (plainResponse 429 "").
Definition connectionReset : NetEvent := NetError (Error "read ECONNRESET").
Definition listingPage : NetEvent := NetResponse (plainResponse 200 "<html></html>").
Definition listingUrl : str := "https://drive.google.com/embeddedfolderview?id=F1#list".

(** The delays of a trace, in order. *)
Definition sleeps (trace : list Effect) : list Q :=
  omap (λ e, match e with Sleep ms => Some ms | _ => None end) trace.

(** The requests of a trace, in order. *)
Definition requests (trace : list Effect) : list (str * option str) :=
  omap (λ e, match e with Get url cookie => Some (url, cookie) | _ => None end) trace.

(** Responses that set a session cookie: a redirect, a rate-limit
    response and an error response. *)
Definition withCookie (status : Z) (location : option str) : Response :=
  mkResponse status location (Some [lit "NID=abc; Path=/"]) None None "".
Definition redirectWithCookie : NetEvent :=
  NetResponse (withCookie 302 (Some (lit "https://drive.google.com/next"))).
Definition rateLimitWithCookie : NetEvent := NetResponse (withCookie 429 None).
Definition forbiddenWithCookie : NetEvent := NetResponse (withCookie 403 None).

(** The response without its Set-Cookie header. *)
Definition withoutSetCookie (res : Response) : Response :=
  mkResponse (statusCode res) (h_location res) None (h_contentEncoding res)
    (h_contentDisposition res) (rawBody res).

(** The record that a verified download stores in the cache. *)
Definition storedMetadata `{NodeRuntime} (fileId filePath content : str) : FileMetadata :=
  mkFileMetadata fileId (path_basename filePath) (Some (length content))
    (Some (sha256 content)) None.


(** Worlds and responses for the examples of [downloadFile]: a
    download directory, an attachment as the service sends it, the
    world after that attachment has been downloaded with verification,
    and the same world after the file has been edited. *)
Definition verifyOptions : DownloadOptions :=
  mkDownloadOptions None false false false false true false false (Some (lit "FILE1")) None.

Definition plainOptions : DownloadOptions :=
  mkDownloadOptions None false false false false false false false (Some (lit "FILE1")) None.

Definition outWorld : World := mkWorld {[ lit "/cwd/out" := Dir ]} ∅ ∅.

Definition attachment : NetEvent :=
  NetResponse
    (mkResponse 200 None None None
       (Some ("attachment; filename=" ++ [dquote] ++ "report.pdf" ++ [dquote])) "DATA").

Definition downloadedWorld : World :=
  mkWorld {[ lit "/cwd/out" := Dir; lit "/cwd/out/report.pdf" := File "DATA" ]}
    {[ lit "FILE1" := mkFileMetadata "FILE1" "report.pdf" (Some 4%nat)
                        (Some (lit "sha256:DATA")) None ]}
    ∅.

Definition editedWorld : World :=
  mkWorld {[ lit "/cwd/out" := Dir; lit "/cwd/out/report.pdf" := File "EDITED" ]}
    (w_cache downloadedWorld) ∅.

Definition fileUrl1 : str := "https://drive.google.com/uc?export=download&id=FILE1".

Definition cachedRecord : FileMetadata :=
  mkFileMetadata "FILE1" "report.pdf" (Some 4%nat) (Some (lit "sha256:DATA")) None.

(** Error pages of the service. *)
Definition accessDenied : NetEvent :=
  NetResponse (plainResponse 403 "<html>access denied</html>").
Definition notFound : NetEvent :=
  NetResponse (plainResponse 404 "<html>not found</html>").

(** The warnings of a trace, in order. *)
Definition warnings (trace : list Effect) : list str :=
  omap (λ e, match e with Warn msg => Some msg | _ => None end) trace.

(** A synthetic listing page of [n] entries, the files ID1 to IDn. *)
Definition entryBlock (i : nat) : str :=
  "<div class=" ++ [dquote] ++ "flip-entry" ++ [dquote] ++ " id=" ++ [dquote] ++ "entry-ID"
  ++ JS.ofNat i ++ [dquote] ++ "><a href=" ++ [dquote]
  ++ "https://drive.google.com/file/d/ID" ++ JS.ofNat i ++ "/view?usp=drive_web" ++ [dquote]
  ++ " target=" ++ [dquote] ++ "_blank" ++ [dquote] ++ "><div class=" ++ [dquote]
  ++ "flip-entry-title" ++ [dquote] ++ ">File " ++ JS.ofNat i ++ "</div></a></div>".

Definition syntheticPage (n : nat) : str :=
  "<html><body>" ++ concat (entryBlock <$> seq 1 n) ++ "</body></html>".

Definition syntheticEntry (i : nat) : FolderEntry :=
  mkFolderEntry ("ID" ++ JS.ofNat i) ("File " ++ JS.ofNat i) EFile None.

Definition quietOptions : DownloadOptions :=
  mkDownloadOptions None false false true false false false false None None.

(** * Further parts of the sources *)

(** ** What a sanitized name looks like

    [trimmed s]: the string neither starts nor ends with white space;
    [cleanName s]: a non-empty trimmed string without any of the
    characters that [sanitizeFileName] replaces. *)

Definition trimmed (s : str) : Prop :=
  (∀ c, head s = Some c → JS.isSpace c = false) ∧
  (∀ c, last s = Some c → JS.isSpace c = false).

Definition cleanName (s : str) : Prop :=
  s ≠ [] ∧ Forall (λ c, unsafeChar c = false) s ∧ trimmed s.

(** A string of blanks: spaces and no-break spaces, the white space
    that is left once the control characters have been replaced. *)
Definition blank (s : str) : Prop :=
  Forall (λ c, JS.isSpace c = true ∧ unsafeChar c = false) s.

(** ** Where a keyword followed by a run of characters occurs

    [sameText ci l kw]: the text [kw] reads [l], letter case apart when
    [ci] is set.  [RunAt ci l cls lo s pre g]: after the prefix [pre]
    the string [s] reads the keyword [l] and then [g], a run of at
    least [lo] characters of the class [cls] that ends where they
    end. *)

Definition sameText (ci : bool) (l kw : str) : Prop :=
  Forall2 (λ a b, chrEq ci a b = true) l kw.

Definition RunAt (ci : bool) (l : str) (cls : ascii → bool) (lo : nat)
    (s pre g : str) : Prop :=
  ∃ kw rest, s = pre ++ kw ++ g ++ rest ∧ sameText ci l kw ∧
             (lo ≤ length g)%nat ∧ Forall (λ c, cls c = true) g ∧ endsRun cls rest.

(** The three forms of a file name in a Content-Disposition header:
    [filename*=UTF-8''<name>] and [filename=<name>], where the name runs
    up to the next semicolon, and [filename="<name>"]; the keyword is
    read without regard to letter case. *)
Definition UtfNameAt : str → str → str → Prop :=
  RunAt true "filename*=UTF-8''" (notChr ";") 1.

Definition BareNameAt : str → str → str → Prop :=
  RunAt true "filename=" (notChr ";") 1.

Definition QuotedNameAt (s pre g : str) : Prop :=
  ∃ kw rest, s = pre ++ kw ++ g ++ [dquote] ++ rest ∧
             sameText true ("filename=" ++ [dquote]) kw ∧
             g ≠ [] ∧ Forall (λ c, notChr dquote c = true) g.

(** Headers for the examples. *)
Definition quotedHeader : str :=
  "attachment; filename=" ++ [dquote] ++ "report.pdf" ++ [dquote] ++ "; size=4".
Definition bothHeader : str :=
  "attachment; FILENAME=" ++ [dquote] ++ "old.pdf" ++ [dquote]
  ++ "; filename*=UTF-8''new.pdf".
Definition bareHeader : str := "attachment; filename= notes.txt ; size=4".

(** ** parser.ts: the id extractors *)

Section Extractors.
Context `{NodeRuntime}.

(** [parsed?.id || null] *)
Definition extractFileId (url : str) : option str :=
  match parseGoogleDriveUrl url with
  | Some parsed => orUndefined (Some (pu_id parsed))
  | None => None
  end.

(** [parsed?.type === "folder" ? parsed.id : null] *)
Definition extractFolderId (url : str) : option str :=
  match parseGoogleDriveUrl url with
  | Some parsed =>
      match pu_type parsed with
      | TFolder => Some (pu_id parsed)
      | _ => None
      end
  | None => None
  end.

End Extractors.

(** [IdRunAt s pre g]: after [pre] the string reads [g], a run of at
    least 25 id characters that ends where they end: what the fuzzy
    pattern of [parseGoogleDriveUrl] looks for. *)
Definition IdRunAt : str → str → str → Prop := RunAt false [] idChar 25.

(** A bare id, and a string that is too short to be one. *)
Definition bareId : str := "1aBcD_efGh-IjKlMnOpQrStUvWxYz012".
Definition shortId : str := "ABC123".

(** ** cookies.ts: the cookie file

    [loadCookies] reads the cookie file, one [name=value] per line, and
    then the environment variable GDOWN_COOKIES, in the Netscape format
    of seven fields separated by tabs; [saveCookies] writes the jar back
    to the file.  The file is given by its content ([None] when it is
    missing or cannot be read), the variable by its value. *)

Definition newline : ascii := ascii_of_N 10.
Definition tab : ascii := ascii_of_N 9.

(** One turn of the loop over the lines of the file. *)
Definition loadFileLine (jar : CookieJar) (line : str) : CookieJar :=
  let trimmed := JS.trim line in
  if JS.nonEmpty trimmed && negb (JS.startsWith "#" trimmed) then
    match JS.split "=" trimmed with
    | name :: valueParts =>
        if JS.nonEmpty name && (0 <? length valueParts)%nat
        then <[JS.trim name := JS.trim (JS.join "=" valueParts)]> jar
        else jar
    | [] => jar
    end
  else jar.

(** One turn of the loop over the lines of the variable. *)
Definition loadEnvLine (jar : CookieJar) (line : str) : CookieJar :=
  let trimmed := JS.trim line in
  if JS.nonEmpty trimmed && negb (JS.startsWith "#" trimmed) then
    let parts := JS.split tab trimmed in
    if (7 <=? length parts)%nat then
      let name := default [] (parts !! 5%nat) in
      let value := default [] (parts !! 6%nat) in
      if JS.nonEmpty name && JS.nonEmpty value then <[name := value]> jar else jar
    else jar
  else jar.

Definition loadCookies (cookieFile envCookies : option str) : CookieJar :=
  let jar :=
    match cookieFile with
    | Some content => foldl loadFileLine ∅ (JS.split newline content)
    | None => ∅
    end in
  match envCookies with
  | Some ((_ :: _) as value) => foldl loadEnvLine jar (JS.split newline value)
  | _ => jar
  end.

(** The content that [saveCookies] writes to the file. *)
Definition saveCookies (jar : CookieJar) : str :=
  JS.join [newline] ((λ kv, kv.1 ++ "=" ++ kv.2) <$> map_to_list jar).

(** A cookie that the file can hold: the name is not empty, has no
    equals sign and does not start with the comment sign; neither the
    name nor the value has a line break or white space at its ends. *)
Definition storable (name value : str) : Prop :=
  name ≠ [] ∧ trimmed name ∧ trimmed value ∧
  Forall (λ c, notChr "=" c = true ∧ notChr newline c = true) name ∧
  Forall (λ c, notChr newline c = true) value ∧
  head name ≠ Some "#"%char.

Definition twoCookies : CookieJar := {[ lit "NID" := lit "abc=="; lit "sid" := lit "1" ]}.

(** ** What a run of [downloadFile] leaves behind *)

(** The longest delay of the attempt loop, in milliseconds. *)
Definition longestDelay : Q := 120000.

(** Responses for the examples: a rate-limit response that sets a
    cookie, and options that keep the cookie file out of the run. *)
Definition noCookiesOptions : DownloadOptions :=
  mkDownloadOptions None true false false false false false false (Some (lit "FILE1")) None.

Definition cookieWorld : World :=
  mkWorld {[ lit "/cwd/out" := Dir; lit "/cwd/out/report.pdf" := File "first" ]} ∅
    {[ lit "sid" := lit "1" ]}.

(** What is kept from one state of the attempt loop to a later one:
    the names of the jar, the entries of the file system, the events
    still to come (a suffix), the warnings (none is added); [slept] are
    the delays added. *)
Definition keeps (st st' : LoopState) (slept : list Q) : Prop :=
  (∀ k, is_Some (ls_jar st !! k) → is_Some (ls_jar st' !! k)) ∧
  w_fs (ls_world st) ⊆ w_fs (ls_world st') ∧
  (∃ used, ls_net st = used ++ ls_net st') ∧
  warnings (ls_trace st') = warnings (ls_trace st) ∧
  sleeps (ls_trace st') = sleeps (ls_trace st) ++ slept ∧
  Forall (λ ms, (ms <= longestDelay)%Q) slept.

(** [path.join] keeps the numbered candidates of a name apart: the
    condition under which the loop of [ensureUniqueName] ends. *)
Definition JoinKeepsApart `{NodeRuntime} : Prop :=
  ∀ dir name n m,
    path_join dir (numbered (path_basenameExt name (path_extname name)) (path_extname name) n)
    = path_join dir (numbered (path_basenameExt name (path_extname name)) (path_extname name) m)
    → n = m.

(** The options with another export format. *)
Definition withFormat (format : option str) (o : DownloadOptions) : DownloadOptions :=
  mkDownloadOptions format (opt_noCookies o) (opt_noCheckCertificate o) (opt_quiet o)
    (opt_verbose o) (opt_verify o) (opt_remainingOk o) (opt_continue o) (opt_id o)
    (opt_resourceKey o).

(** The error after the last turn of the attempt loop. *)
Definition exceededAttempts : JsError :=
  Error "Exceeded maximum attempts while downloading from Google Drive".

(** The requests of a run of rate-limit responses: the same URL every
    time, with the cookies that the responses so far have set. *)
Fixpoint rateLimitedRequests (url : str) (jar : CookieJar) (rs : list Response)
    : list (str * option str) :=
  match rs with
  | [] => []
  | res :: rs' =>
      (url, cookieHeader jar)
      :: rateLimitedRequests url (updateCookiesFromHeaders jar (h_setCookie res)) rs'
  end.

(** Options for the examples: a spreadsheet to be exported as PDF, by
    its URL and by its id. *)
Definition pdfOptions : DownloadOptions :=
  mkDownloadOptions (Some (lit "pdf")) false false false false false false false None None.
Definition pdfIdOptions : DownloadOptions :=
  mkDownloadOptions (Some (lit "pdf")) false false false false false false false
    (Some (lit "SHEET1")) None.

(** A confirmation page. *)
Definition confirmPage : NetEvent := NetResponse (plainResponse 200 linkPage).

(** ** Confirmation pages

    [PageResponse res html]: the response is neither a rate-limit
    response, a redirect nor a download, its status is not one that is
    classified, and its body decodes to [html].  [Unclassified html]:
    the page holds none of the words by which the attempt loop
    classifies a body. *)
Definition PageResponse `{NodeRuntime} (res : Response) (html : str) : Prop :=
  statusCode res ≠ 429 ∧ statusCode res ≠ 403 ∧ statusCode res ≠ 404 ∧
  isRedirect res = false ∧
  JS.truthy (h_contentDisposition res) && (statusCode res =? 200) = false ∧
  decodeBody (rawBody res) (h_contentEncoding res) = Some html.

Definition Unclassified (html : str) : Prop :=
  bodyRateLimited html = false ∧
  JS.includes html "permission" = false ∧ JS.includes html "access denied" = false ∧
  JS.includes html "not found" = false.

(** ** Redirects

    [hops url rs]: the URLs that are asked for when the responses [rs]
    redirect one after the other, starting from [url];
    [followRedirects url rs]: the URL that the last of them points
    to. *)
Section Redirects.
Context `{NodeRuntime}.

Fixpoint hops (url : str) (rs : list Response) : list str :=
  match rs with
  | [] => []
  | res :: rs' => url :: hops (resolveURL (default [] (h_location res)) url) rs'
  end.

Fixpoint followRedirects (url : str) (rs : list Response) : str :=
  match rs with
  | [] => url
  | res :: rs' => followRedirects (resolveURL (default [] (h_location res)) url) rs'
  end.

End Redirects.

(** A redirect for the examples. *)
Definition movedTo (location : str) : Response :=
  mkResponse 302 (Some location) None None None "".

(** ** formats.ts: the getters and the MIME types *)

Definition getDocumentFormat (format : str) : option str :=
  lookupFormat DOCUMENT_FORMATS format.
Definition getSpreadsheetFormat (format : str) : option str :=
  lookupFormat SPREADSHEET_FORMATS format.
Definition getPresentationFormat (format : str) : option str :=
  lookupFormat PRESENTATION_FORMATS format.

Definition mimeTypes : list (str * str) :=
  [(lit "pdf", lit "application/pdf");
   (lit "docx", lit "application/vnd.openxmlformats-officedocument.wordprocessingml.document");
   (lit "odt", lit "application/vnd.oasis.opendocument.text");
   (lit "rtf", lit "application/rtf");
   (lit "txt", lit "text/plain");
   (lit "html", lit "text/html");
   (lit "epub", lit "application/epub+zip");
   (lit "xlsx", lit "application/vnd.openxmlformats-officedocument.spreadsheetml.sheet");
   (lit "ods", lit "application/vnd.oasis.opendocument.spreadsheet");
   (lit "csv", lit "text/csv");
   (lit "tsv", lit "text/tab-separated-values");
   (lit "pptx",
    lit "application/vnd.openxmlformats-officedocument.presentationml.presentation");
   (lit "odp", lit "application/vnd.oasis.opendocument.presentation");
   (lit "png", lit "image/png");
   (lit "jpg", lit "image/jpeg");
   (lit "svg", lit "image/svg+xml")].

Definition octetStream : str := "application/octet-stream".

(** The members of [Object.prototype] whose names are in lower case: a
    lookup in a plain object finds them when the object has no key of
    its own by that name, and what it finds is not a string. *)
Definition inheritedKeys : list str := [lit "constructor"; lit "__proto__"].

Inductive Looked : Type :=
| LString (s : str)
| LInherited (key : str).

Fixpoint assoc (key : str) (table : list (str * str)) : option str :=
  match table with
  | [] => None
  | (k, v) :: table' => if bool_decide (k = key) then Some v else assoc key table'
  end.

(** [mimeTypes[format.toLowerCase()] || "application/octet-stream"] *)
Definition getFormatMimeType (format : str) : Looked :=
  let key := JS.toLower <$> format in
  match assoc key mimeTypes with
  | Some mime => LString mime
  | None =>
      if bool_decide (key ∈ inheritedKeys) then LInherited key else LString octetStream
  end.

(** The table of a kind of resource; the kinds without one cannot be
    exported. *)
Definition formatTable (fileType : UrlType) : list str :=
  match fileType with
  | TDocument => DOCUMENT_FORMATS
  | TSpreadsheet => SPREADSHEET_FORMATS
  | TPresentation => PRESENTATION_FORMATS
  | _ => []
  end.

(** Links of a listing page for the examples: a folder whose path also
    reads like a file, and a document of the editor. *)
Definition docLink : str := "https://docs.google.com/document/d/DOC1/edit".

(** A match of the entry pattern with the given link and title. *)
Definition entryMatch (href title : str) : Match := mkMatch [] [lit "e1"; href; title] [].

(** ** folder.ts: downloading a folder *)

(** What [downloadFolderRecursive] leaves behind: its promise, the
    world, the events not yet consumed and the effects. *)
Record FolderDownload : Type := mkFolderDownload {
  fd_result : Settled unit;
  fd_world : World;
  fd_net : list NetEvent;
  fd_trace : list Effect
}.

Definition fd_after (es : list Effect) (r : FolderDownload) : FolderDownload :=
  mkFolderDownload (fd_result r) (fd_world r) (fd_net r) (es ++ fd_trace r).

(** [i < 5 ? 2000 : i < 20 ? 3000 : 5000], the delay after an entry
    that has been downloaded, and [i < 5 ? 3000 : i < 20 ? 5000 : 8000],
    the delay after one that has failed. *)
Definition successDelay (i : nat) : Z :=
  if (i <? 5)%nat then 2000 else if (i <? 20)%nat then 3000 else 5000.

Definition failureDelay (i : nat) : Z :=
  if (i <? 5)%nat then 3000 else if (i <? 20)%nat then 5000 else 8000.

Definition entryTypeName (type : EntryType) : str :=
  match type with EFile => lit "file" | EFolder => lit "folder" end.

Definition skipWarning (entry : FolderEntry) (errorMsg : str) : str :=
  "Skipping " ++ entryTypeName (fe_type entry) ++ " " ++ fe_id entry
  ++ " (" ++ fe_name entry ++ "): " ++ errorMsg.

(** [{ ...options, id: entry.id, resourceKey: entry.resourceKey }] *)
Definition entryOptions (options : DownloadOptions) (entry : FolderEntry) : DownloadOptions :=
  mkDownloadOptions (opt_format options) (opt_noCookies options)
    (opt_noCheckCertificate options) (opt_quiet options) (opt_verbose options)
    (opt_verify options) (opt_remainingOk options) (opt_continue options)
    (Some (fe_id entry)) (fe_resourceKey entry).

(** A promise of a path as a promise of nothing. *)
Definition forget {A} (s : Settled A) : Settled unit :=
  match s with
  | Resolved _ => Resolved tt
  | Rejected e => Rejected e
  | Pending => Pending
  end.

Section FolderDownloads.
Context `{NodeRuntime}.
Variable options : DownloadOptions.

(** The call that the [try] block of the loop awaits for one entry:
    [recurse] is [downloadFolderRecursive] itself. *)
Definition downloadEntry
    (recurse : str → str → option str → World → list NetEvent → FolderDownload)
    (destDir : str) (entry : FolderEntry) (w : World) (net : list NetEvent)
    : FolderDownload :=
  let target := path_join destDir (sanitizeFileName (Some (fe_name entry)) (fe_id entry)) in
  match fe_type entry with
  | EFolder =>
      let fs1 := if existsSync (w_fs w) target then w_fs w
                 else <[target := Dir]> (w_fs w) in
      recurse (fe_id entry) target (fe_resourceKey entry)
        (mkWorld fs1 (w_cache w) (w_cookieFile w)) net
  | EFile =>
      let r := downloadFile (fe_id entry) (Some target) (entryOptions options entry) w net in
      mkFolderDownload (forget (dr_result r)) (dr_world r) (dr_net r) (dr_trace r)
  end.

(** The [for] loop over the entries, from the index [i] on; [count] is
    [entries.length]. *)
Fixpoint entriesFor
    (recurse : str → str → option str → World → list NetEvent → FolderDownload)
    (destDir : str) (count i : nat) (entries : list FolderEntry)
    (w : World) (net : list NetEvent) : FolderDownload :=
  match entries with
  | [] => mkFolderDownload (Resolved tt) w net []
  | entry :: rest =>
      let r := downloadEntry recurse destDir entry w net in
      match fd_result r with
      | Pending => r
      | Resolved _ =>
          let wait := if (i <? count - 1)%nat
                      then [Sleep (inject_Z (successDelay i))] else [] in
          fd_after (fd_trace r ++ wait)
            (entriesFor recurse destDir count (S i) rest (fd_world r) (fd_net r))
      | Rejected fileErr =>
          let warn := if opt_quiet options then []
                      else [Warn (skipWarning entry (message fileErr))] in
          if opt_remainingOk options then
            let wait := if (i <? count - 1)%nat
                        then [Sleep (inject_Z (failureDelay i))] else [] in
            fd_after (fd_trace r ++ warn ++ wait)
              (entriesFor recurse destDir count (S i) rest (fd_world r) (fd_net r))
          else
            mkFolderDownload (Rejected fileErr) (fd_world r) (fd_net r) (fd_trace r ++ warn)
      end
  end.

(** [downloadFolderRecursive]; the fuel bounds the depth of the
    recursion, which is never deeper than the number of events, since
    every listing consumes one.  (The depth counter of the source is
    passed on and never read.) *)
Fixpoint downloadFolderRecursive (fuel : nat) (folderId destDir : str)
    (resourceKey : option str) (w : World) (net : list NetEvent) : FolderDownload :=
  match fuel with
  | O => mkFolderDownload Pending w net []
  | S fuel' =>
      let r := fetchDriveFolderEntries folderId resourceKey options w net in
      match fo_result r with
      | Pending => mkFolderDownload Pending w (fo_net r) (fo_trace r)
      | Rejected e => mkFolderDownload (Rejected e) w (fo_net r) (fo_trace r)
      | Resolved [] => mkFolderDownload (Resolved tt) w (fo_net r) (fo_trace r)
      | Resolved entries =>
          fd_after (fo_trace r)
            (entriesFor (downloadFolderRecursive fuel') destDir (length entries) 0 entries
               w (fo_net r))
      end
  end.

(** The folder id and the access key that [downloadFolder] works
    with; [None] when the reference is not one of a folder. *)
Definition resolveFolder (urlOrId : str) : option (str * option str) :=
  if JS.truthy (opt_id options) then Some (default [] (opt_id options), None)
  else
    match parseGoogleDriveUrl urlOrId with
    | Some parsed =>
        match pu_type parsed with
        | TFolder => Some (pu_id parsed, pu_resourceKey parsed)
        | _ => None
        end
    | None => None
    end.

(** [outputPath] of [downloadFolder]. *)
Definition folderOutputPath (output : option str) (folderId : str) : str :=
  if JS.truthy output
  then (if path_isAbsolute (default [] output)
        then default [] output else path_resolve (default [] output))
  else path_resolve folderId.

Definition downloadFolder (urlOrId : str) (output : option str)
    (w : World) (net : list NetEvent) : DownloadRun :=
  match resolveFolder urlOrId with
  | None =>
      mkDownloadRun
        (Rejected (Error ("Unable to extract Google Drive folder ID from: " ++ urlOrId)))
        w net []
  | Some (folderId, resourceKey) =>
      let outputPath := folderOutputPath output folderId in
      if existsSync (w_fs w) outputPath && negb (isDirectory (w_fs w) outputPath) then
        mkDownloadRun
          (Rejected (Error ("Output path exists and is not a directory: " ++ outputPath)))
          w net []
      else
        let targetDir := outputPath in
        let fs1 := if existsSync (w_fs w) targetDir then w_fs w
                   else <[targetDir := Dir]> (w_fs w) in
        let r := downloadFolderRecursive (S (length net)) folderId targetDir resourceKey
                   (mkWorld fs1 (w_cache w) (w_cookieFile w)) net in
        mkDownloadRun
          (match fd_result r with
           | Resolved _ => Resolved targetDir
           | Rejected e => Rejected e
           | Pending => Pending
           end)
          (fd_world r) (fd_net r) (fd_trace r)
  end.

(** index.ts: [download], with the [folder] option as its first
    argument. *)
Definition download (folder : bool) (urlOrId : str) (output : option str)
    (w : World) (net : list NetEvent) : DownloadRun :=
  if folder then downloadFolder urlOrId output w net
  else downloadFile urlOrId output options w net.

End FolderDownloads.

(** What a run leaves behind, relative to the world and the events it
    started from: the entries of the file system are kept, the events
    are consumed in their order, the promise is pending only when they
    have run out, and under [quiet] nothing is printed. *)
Definition goodRun (quiet : bool) (w : World) (net : list NetEvent)
    (r : FolderDownload) : Prop :=
  w_fs w ⊆ w_fs (fd_world r) ∧
  (∃ used, net = used ++ fd_net r) ∧
  (fd_result r = Pending → fd_net r = []) ∧
  (quiet = true → warnings (fd_trace r) = []).

(** Options and pages for the examples: a folder of two files, and the
    same options with [remainingOk] set. *)
Definition folderOptions : DownloadOptions :=
  mkDownloadOptions None false false false false false false false None None.
Definition remainingOkOptions : DownloadOptions :=
  mkDownloadOptions None false false false false false true false None None.
Definition quietFolderOptions : DownloadOptions :=
  mkDownloadOptions None false false true false false true false None None.

Definition twoFiles : NetEvent := NetResponse (plainResponse 200 (syntheticPage 2)).

Definition namedAttachment (name content : str) : NetEvent :=
  NetResponse
    (mkResponse 200 None None None
       (Some ("attachment; filename=" ++ [dquote] ++ name ++ [dquote])) content).

(** The error of [downloadFolder] for a reference that is not one of a
    folder. *)
Definition noFolderId (urlOrId : str) : JsError :=
  Error ("Unable to extract Google Drive folder ID from: " ++ urlOrId).

(** A run in which no entry has been skipped: the only warnings are
    those about the cap. *)
Definition nothingSkipped (trace : list Effect) : Prop :=
  Forall (λ msg, msg = folderWarning) (warnings trace).

(** Without [remainingOk] a run either rejects or has skipped
    nothing. *)
Definition strictRun (r : FolderDownload) : Prop :=
  (∃ e, fd_result r = Rejected e) ∨ nothingSkipped (fd_trace r).

(** A folder of two files of which the first one cannot be read. *)
Definition firstDenied : list NetEvent :=
  twoFiles :: replicate 15 accessDenied ++ [namedAttachment "b.txt" "B"].

(** Options with the id of a folder. *)
Definition folderIdOptions : DownloadOptions :=
  mkDownloadOptions None false false false false false false false
    (Some (lit "1aBcD_efGh-IjKlMnOpQrStUvWxYz012")) (Some (lit "0-k")).

(** The entities of [decodeHtmlEntities] other than the ampersand:
    what follows the ampersand, and the character it stands for. *)
Definition entityNames : list (str * str) :=
  [ (lit "lt;", lit "<"); (lit "gt;", lit ">"); (lit "quot;", [dquote]);
    (lit "#39;", lit "'"); (lit "#x2F;", lit "/") ].

Definition amp : ascii := "&"%char.

(** * Properties of the embedding *)

(** ** String functions *)

Lemma chr_true a b : JS.chr a b = true ↔ a = b.
Proof. unfold JS.chr. by rewrite bool_decide_eq_true. Qed.

Lemma startsWith_spec p s : JS.startsWith p s = true ↔ ∃ t, s = p ++ t.
Proof.
  revert s. induction p as [|a p IH]; intros s; simpl.
  - split; [by exists s | done].
  - destruct s as [|b s].
    + split; [done | by intros [t ?]].
    + rewrite andb_true_iff, chr_true, IH. split.
      * intros [-> [t ->]]. by exists t.
      * intros [t [= -> ->]]. eauto.
Qed.

Lemma includes_spec s needle :
  JS.includes s needle = true ↔ ∃ p t, s = p ++ needle ++ t.
Proof.
  induction s as [|a s IH]; simpl.
  - rewrite orb_false_r, startsWith_spec. split.
    + intros [t ->]. by exists [], t.
    + intros (p & t & Heq). destruct p; [by exists t|done].
  - rewrite orb_true_iff, startsWith_spec, IH. split.
    + intros [[t ->] | (p & t & ->)]; [by exists [], t | by exists (a :: p), t].
    + intros (p & t & Heq). destruct p as [|b p]; simpl in Heq.
      * left. by exists t.
      * right. injection Heq as -> ->. by exists p, t.
Qed.

Lemma takeWhile_dropWhile p s : JS.takeWhile p s ++ JS.dropWhile p s = s.
Proof. induction s as [|a s IH]; simpl; [done|]. destruct (p a); simpl; by f_equal. Qed.

Lemma takeWhile_all p s : Forall (λ c, p c = true) (JS.takeWhile p s).
Proof.
  induction s as [|a s IH]; simpl; [constructor|].
  destruct (p a) eqn:E; [by constructor | constructor].
Qed.

Lemma dropWhile_head p s a s' : JS.dropWhile p s = a :: s' → p a = false.
Proof.
  induction s as [|b s IH]; simpl; [done|].
  destruct (p b) eqn:E; [done|]. by intros [= -> ->].
Qed.

(** A run of class characters followed by a character outside of the
    class (or by the end) is what [takeWhile] takes. *)
Lemma takeWhile_app p t s :
  Forall (λ c, p c = true) t →
  match s with [] => True | a :: _ => p a = false end →
  JS.takeWhile p (t ++ s) = t ∧ JS.dropWhile p (t ++ s) = s.
Proof.
  intros Ht Hs. induction Ht as [|a t Ha _ IH]; simpl.
  - destruct s as [|a s]; simpl; [done|]. by rewrite Hs.
  - rewrite Ha. destruct IH as [-> ->]. done.
Qed.

(** ** The matcher *)

Lemma litMatch_exact l s s' : litMatch false l s = Some s' ↔ s = l ++ s'.
Proof.
  revert s. induction l as [|a l IH]; intros s; simpl.
  - split; congruence.
  - destruct s as [|b s]; [done|]. simpl. destruct (JS.chr a b) eqn:E.
    + apply chr_true in E as ->. rewrite IH. split; congruence.
    + split; [done|]. intros [= -> ->]. by rewrite (proj2 (chr_true a a)) in E.
Qed.

Lemma litMatch_suffix ci l s s' :
  litMatch ci l s = Some s' → ∃ t, s = t ++ s' ∧ length t = length l.
Proof.
  revert s. induction l as [|a l IH]; intros s; simpl.
  - intros [= ->]. by exists [].
  - destruct s as [|b s]; [done|]. destruct (chrEq ci a b); [|done].
    intros (t & -> & Hlen)%IH. exists (b :: t). simpl. by rewrite Hlen.
Qed.

Lemma Matches_suffix r s s' cs : Matches r s s' cs → ∃ t, s = t ++ s'.
Proof.
  induction 1 as [ci l s s' Hl | | r1 r2 s s1 s2 c1 c2 _ [t1 ->] _ [t2 ->] | | | ]; eauto.
  - apply litMatch_suffix in Hl as (t & -> & _). eauto.
  - exists (t1 ++ t2). by rewrite <-app_assoc.
Qed.

Lemma take_app_suffix (t s' : str) : take (length (t ++ s') - length s') (t ++ s') = t.
Proof.
  rewrite length_app. replace (length t + length s' - length s')%nat with (length t) by lia.
  by rewrite take_app_length.
Qed.

Section Matcher.
Context {A : Type}.
Implicit Types (k : str → option A) (kc : str → list str → option A).

Lemma starMatch_sound g cls s k x :
  starMatch g cls s k = Some x →
  ∃ t s', s = t ++ s' ∧ Forall (λ c, cls c = true) t ∧ k s' = Some x.
Proof.
  revert x. induction s as [|a s IH]; intros x; destruct g; simpl.
  - intros Hk. by exists [], [].
  - destruct (k []) eqn:E; [|done]. intros [= ->]. by exists [], [].
  - destruct (cls a) eqn:Ha.
    + destruct (starMatch true cls s k) eqn:E.
      * intros [= ->]. destruct (IH _ eq_refl) as (t & s' & -> & Ht & Hk).
        exists (a :: t), s'. repeat split; [by constructor | done].
      * intros Hk. by exists [], (a :: s).
    + intros Hk. by exists [], (a :: s).
  - destruct (k (a :: s)) eqn:E.
    + intros [= ->]. by exists [], (a :: s).
    + destruct (cls a) eqn:Ha; [|done].
      intros (t & s' & -> & Ht & Hk)%IH.
      exists (a :: t), s'. repeat split; [by constructor | done].
Qed.

Lemma starMatch_complete g cls t s' k :
  Forall (λ c, cls c = true) t → is_Some (k s') → is_Some (starMatch g cls (t ++ s') k).
Proof.
  intros Ht Hk. induction Ht as [|a t Ha _ IH].
  - simpl. destruct Hk as [x Hk]. destruct s' as [|b s'], g; simpl; rewrite ?Hk; eauto.
    destruct (cls b); [|eauto]. destruct (starMatch true cls s' k); eauto.
  - destruct g; simpl; rewrite ?Ha.
    + destruct IH as [y ->]. eauto.
    + destruct (k (a :: t ++ s')); eauto.
Qed.

Lemma atLeast_sound lo cls s k x :
  atLeast lo cls s k = Some x →
  ∃ t s', s = t ++ s' ∧ length t = lo ∧ Forall (λ c, cls c = true) t ∧ k s' = Some x.
Proof.
  revert s. induction lo as [|lo IH]; intros s; simpl.
  - intros Hk. by exists [], s.
  - destruct s as [|a s]; [done|]. destruct (cls a) eqn:Ha; [|done].
    intros (t & s' & -> & <- & Ht & Hk)%IH.
    exists (a :: t), s'. repeat split; [by constructor | done].
Qed.

Lemma atLeast_complete lo cls t s' k :
  length t = lo → Forall (λ c, cls c = true) t → atLeast lo cls (t ++ s') k = k s'.
Proof.
  intros <- Ht. induction Ht as [|a t Ha _ IH]; simpl; [done|]. by rewrite Ha.
Qed.

Lemma rmatch_sound r s caps kc x :
  rmatch r s caps kc = Some x →
  ∃ s' cs, Matches r s s' cs ∧ kc s' (caps ++ cs) = Some x.
Proof.
  revert s caps kc x. induction r as [ci l | g lo cls | r1 IH1 r2 IH2 | r1 IH1 r2 IH2 | r IH];
    intros s caps kc x; simpl.
  - destruct (litMatch ci l s) as [s'|] eqn:E; [|done]. intros Hk.
    exists s', []. rewrite app_nil_r. split; [by constructor | done].
  - intros (t1 & s1 & -> & Hlen & Ht1 & (t2 & s' & -> & Ht2 & Hk)%starMatch_sound)%atLeast_sound.
    exists s', []. rewrite app_nil_r, app_assoc. split; [|done].
    constructor; [rewrite length_app; lia | by apply Forall_app].
  - intros (s1 & c1 & Hm1 & (s2 & c2 & Hm2 & Hk)%IH2)%IH1.
    exists s2, (c1 ++ c2). rewrite app_assoc. split; [by econstructor | done].
  - destruct (rmatch r1 s caps kc) eqn:E.
    + intros [= ->]. apply IH1 in E as (s' & cs & Hm & Hk).
      exists s', cs. split; [by apply M_AltL | done].
    + intros (s' & cs & Hm & Hk)%IH2. exists s', cs. split; [by apply M_AltR | done].
  - intros (s' & cs & Hm & Hk)%IH.
    destruct (Matches_suffix _ _ _ _ Hm) as [t ->].
    rewrite take_app_suffix in Hk. exists s', (cs ++ [t]).
    rewrite app_assoc. split; [by constructor | done].
Qed.

Lemma rmatch_complete r s s' cs caps kc :
  Matches r s s' cs → is_Some (kc s' (caps ++ cs)) → is_Some (rmatch r s caps kc).
Proof.
  intros Hm. revert caps kc.
  induction Hm as [ci l s s' Hl | g lo cls t s' Hlo Ht
                  | r1 r2 s s1 s2 c1 c2 _ IH1 _ IH2
                  | r1 r2 s s' cs _ IH | r1 r2 s s' cs _ IH | r t s' cs _ IH];
    intros caps kc Hk; simpl.
  - rewrite Hl. by rewrite app_nil_r in Hk.
  - rewrite app_nil_r in Hk.
    rewrite <-(take_drop lo t), <-app_assoc.
    rewrite atLeast_complete.
    + apply starMatch_complete; [|done]. by apply Forall_drop.
    + rewrite length_take. lia.
    + by apply Forall_take.
  - apply IH1, IH2. by rewrite <-app_assoc.
  - destruct (IH caps kc Hk) as [y ->]. eauto.
  - destruct (rmatch r1 s caps kc); [eauto|]. by apply IH.
  - apply IH. by rewrite take_app_suffix, <-app_assoc.
Qed.

End Matcher.

Lemma matchHere_sound r s caps s' :
  matchHere r s = Some (caps, s') → Matches r s s' caps.
Proof.
  unfold matchHere. intros (s1 & cs & Hm & [= <- <-])%rmatch_sound. done.
Qed.

Lemma matchHere_Some r s caps s' :
  matchHere r s = Some (caps, s') → ∃ mid, s = mid ++ s' ∧ Matches r (mid ++ s') s' caps.
Proof.
  intros Hm%matchHere_sound. destruct (Matches_suffix _ _ _ _ Hm) as [mid ->]. eauto.
Qed.

Lemma matchHere_complete r s s' cs : Matches r s s' cs → is_Some (matchHere r s).
Proof. intros Hm. unfold matchHere. eapply rmatch_complete; [exact Hm | eauto]. Qed.

Lemma matchHere_None r s : matchHere r s = None → ∀ s' cs, ¬ Matches r s s' cs.
Proof.
  intros Hn s' cs Hm. apply matchHere_complete in Hm as [x Hx]. congruence.
Qed.

(** [searchFrom] returns the leftmost position at which the pattern
    matches. *)
Lemma searchFrom_sound r before s m :
  searchFrom r before s = Some m →
  ∃ p mid,
    s = p ++ mid ++ m_after m ∧ m_before m = reverse before ++ p ∧
    Matches r (mid ++ m_after m) (m_after m) (m_groups m) ∧
    matchHere r (mid ++ m_after m) = Some (m_groups m, m_after m) ∧
    ∀ p' q, s = p' ++ q → (length p' < length p)%nat → ¬ OccursAt r q [].
Proof.
  revert before. induction s as [|a s IH]; intros before; simpl.
  - destruct (matchHere r []) as [[caps s']|] eqn:E; [|done]. intros [= <-]. simpl.
    destruct (matchHere_Some _ _ _ _ E) as (mid & Hs & Hm).
    exists [], mid. simpl.
    split_and!; [exact Hs | by rewrite app_nil_r | exact Hm | by rewrite <-Hs |].
    intros; simpl in *; lia.
  - destruct (matchHere r (a :: s)) as [[caps s']|] eqn:E.
    + intros [= <-]. simpl.
      destruct (matchHere_Some _ _ _ _ E) as (mid & Hs & Hm).
      exists [], mid. simpl.
      split_and!; [exact Hs | by rewrite app_nil_r | exact Hm | by rewrite <-Hs |].
      intros; simpl in *; lia.
    + intros (p & mid & -> & Hb & Hm & Hh & Hleft)%IH.
      exists (a :: p), mid. repeat split; try done.
      * rewrite Hb, reverse_cons, <-app_assoc. done.
      * intros p' q Heq Hlen (q' & s' & cs & Hq & Hm').
        simpl in Hq. subst q'. destruct p' as [|b p']; simpl in Heq.
        -- subst q. by eapply matchHere_None.
        -- injection Heq as -> Heq. apply (Hleft p' q Heq); [simpl in Hlen; lia|].
           by exists q, s', cs.
Qed.

Lemma searchFrom_None r before s :
  searchFrom r before s = None → ∀ p q, s = p ++ q → ¬ OccursAt r q [].
Proof.
  revert before. induction s as [|a s IH]; intros before; simpl.
  - destruct (matchHere r []) as [[caps s']|] eqn:E; [done|]. intros _ p q Heq.
    symmetry in Heq. apply app_eq_nil in Heq as [-> ->].
    intros (q' & s' & cs & Hq & Hm). simpl in Hq. subst q'. by eapply matchHere_None.
  - destruct (matchHere r (a :: s)) as [[caps s']|] eqn:E; [done|].
    intros Hn p q Heq (q' & s' & cs & Hq & Hm). simpl in Hq. subst q'.
    destruct p as [|b p]; simpl in Heq.
    + subst q. by eapply matchHere_None.
    + injection Heq as -> Heq. apply (IH _ Hn p q Heq). by exists q, s', cs.
Qed.

Lemma search_sound r s m :
  search r s = Some m →
  ∃ mid,
    s = m_before m ++ mid ++ m_after m ∧
    Matches r (mid ++ m_after m) (m_after m) (m_groups m) ∧
    matchHere r (mid ++ m_after m) = Some (m_groups m, m_after m) ∧
    ∀ p, (length p < length (m_before m))%nat → ¬ OccursAt r s p.
Proof.
  intros (p & mid & -> & Hb & Hm & Hh & Hleft)%searchFrom_sound. simpl in Hb. subst p.
  exists mid. repeat split; try done.
  intros p' Hlen (q & s' & cs & Heq & Hm'). apply (Hleft p' q Heq Hlen).
  by exists q, s', cs.
Qed.

Lemma search_None r s : search r s = None ↔ ∀ p, ¬ OccursAt r s p.
Proof.
  split.
  - intros Hn p (q & s' & cs & Heq & Hm). apply (searchFrom_None _ _ _ Hn p q Heq).
    by exists q, s', cs.
  - intros Hno. destruct (search r s) as [m|] eqn:E; [|done].
    apply search_sound in E as (mid & Heq & Hm & _). exfalso.
    apply (Hno (m_before m)). by exists (mid ++ m_after m), (m_after m), (m_groups m).
Qed.

Lemma search_complete r s p : OccursAt r s p → is_Some (search r s).
Proof.
  intros Ho. destruct (search r s) eqn:E; [eauto|].
  by apply (proj1 (search_None r s)) with (p := p) in E.
Qed.


(** ** Inversion of [Matches] *)

Lemma Matches_Lit_inv l s s' cs :
  Matches (Lit false l) s s' cs → s = l ++ s' ∧ cs = [].
Proof. inversion 1; subst. by rewrite <-litMatch_exact. Qed.

Lemma Matches_Rep_inv g lo cls s s' cs :
  Matches (Rep g lo cls) s s' cs →
  ∃ t, s = t ++ s' ∧ (lo ≤ length t)%nat ∧ Forall (λ c, cls c = true) t ∧ cs = [].
Proof. inversion 1; subst. eauto. Qed.

Lemma Matches_Seq_inv r1 r2 s s2 cs :
  Matches (r1 ⋅ r2) s s2 cs →
  ∃ s1 c1 c2, Matches r1 s s1 c1 ∧ Matches r2 s1 s2 c2 ∧ cs = c1 ++ c2.
Proof. inversion 1; subst. eauto 10. Qed.

Lemma Matches_Grp_inv r s s' cs' :
  Matches (Grp r) s s' cs' →
  ∃ t cs, s = t ++ s' ∧ Matches r s s' cs ∧ cs' = cs ++ [t].
Proof. inversion 1; subst. eauto 10. Qed.

Lemma Matches_GrpRep_inv g lo cls s s' cs :
  Matches (Grp (Rep g lo cls)) s s' cs →
  ∃ t, s = t ++ s' ∧ (lo ≤ length t)%nat ∧ Forall (λ c, cls c = true) t ∧ cs = [t].
Proof.
  intros (t & cs0 & -> & (t' & Heq & Hlo & Ht & ->)%Matches_Rep_inv & ->)%Matches_Grp_inv.
  apply app_inv_tail in Heq as <-. eauto.
Qed.

Lemma M_Lit_exact l s' : Matches (Lit false l) (l ++ s') s' [].
Proof. constructor. by apply litMatch_exact. Qed.

Lemma M_GrpRep g lo cls t s' :
  (lo ≤ length t)%nat → Forall (λ c, cls c = true) t →
  Matches (Grp (Rep g lo cls)) (t ++ s') s' [t].
Proof. intros. apply (M_Grp _ _ _ []). by constructor. Qed.

(** Two runs of class characters that stop at the same text are the
    same run. *)
Lemma run_delimited (p : ascii → bool) t1 t2 d r1 r2 :
  Forall (λ c, p c = true) t1 → Forall (λ c, p c = true) t2 → p d = false →
  t1 ++ d :: r1 = t2 ++ d :: r2 → t1 = t2 ∧ r1 = r2.
Proof.
  intros H1 H2 Hd Heq.
  destruct (takeWhile_app p t1 (d :: r1) H1 Hd) as [Ht1 Hr1].
  destruct (takeWhile_app p t2 (d :: r2) H2 Hd) as [Ht2 Hr2].
  rewrite Heq, Ht2 in Ht1. rewrite Heq, Hr2 in Hr1. split; congruence.
Qed.

(** ** extractConfirmToken *)

Lemma linkTokenRe_Matches q s' cs :
  Matches linkTokenRe q s' cs ↔
  ∃ tok, q = "confirm=" ++ tok ++ "&amp;id=" ++ s' ∧ isToken tok ∧ cs = [tok].
Proof.
  unfold linkTokenRe, isToken. split.
  - intros (s1 & c1 & c2 & [-> ->]%Matches_Lit_inv
            & (s2 & c3 & c4 & (tok & -> & Hlen & Htok & ->)%Matches_GrpRep_inv
               & [-> ->]%Matches_Lit_inv & ->)%Matches_Seq_inv & ->)%Matches_Seq_inv.
    exists tok. rewrite <-?app_assoc. repeat split; [|done].
    intros ->. simpl in Hlen. lia.
  - intros (tok & -> & [Hne Htok] & ->).
    eapply (M_Seq _ _ _ _ _ [] [tok]); [apply M_Lit_exact|].
    eapply (M_Seq _ _ _ _ _ [tok] []); [|apply M_Lit_exact].
    apply M_GrpRep; [|done]. destruct tok; [done | simpl; lia].
Qed.

Lemma inputTokenRe_Matches q s' cs :
  Matches inputTokenRe q s' cs ↔
  ∃ ws tok,
    q = ("name=" ++ [dquote] ++ "confirm" ++ [dquote]) ++ ws
        ++ ("value=" ++ [dquote]) ++ tok ++ [dquote] ++ s' ∧
    ws ≠ [] ∧ Forall (λ c, JS.isSpace c = true) ws ∧ isToken tok ∧ cs = [tok].
Proof.
  unfold inputTokenRe, isToken. split.
  - intros (s1 & c1 & c2 & [-> ->]%Matches_Lit_inv
            & (s2 & c3 & c4 & (ws & -> & Hws & Hsp & ->)%Matches_Rep_inv
            & (s3 & c5 & c6 & [-> ->]%Matches_Lit_inv
            & (s4 & c7 & c8 & (tok & -> & Hlen & Htok & ->)%Matches_GrpRep_inv
               & [-> ->]%Matches_Lit_inv & ->)%Matches_Seq_inv
               & ->)%Matches_Seq_inv & ->)%Matches_Seq_inv & ->)%Matches_Seq_inv.
    exists ws, tok. rewrite <-?app_assoc. repeat split; try done.
    + intros ->. simpl in Hws. lia.
    + intros ->. simpl in Hlen. lia.
  - intros (ws & tok & -> & Hws & Hsp & [Hne Htok] & ->).
    eapply (M_Seq _ _ _ _ _ [] [tok]); [apply M_Lit_exact|].
    eapply (M_Seq _ _ _ _ _ [] [tok]).
    { constructor; [|done]. destruct ws; [done | simpl; lia]. }
    eapply (M_Seq _ _ _ _ _ [] [tok]); [apply M_Lit_exact|].
    eapply (M_Seq _ _ _ _ _ [tok] []); [|apply M_Lit_exact].
    apply M_GrpRep; [|done]. destruct tok; [done | simpl; lia].
Qed.

Lemma linkTokenRe_OccursAt html pre :
  OccursAt linkTokenRe html pre ↔ ∃ tok, LinkTokenAt html pre tok.
Proof.
  unfold OccursAt, LinkTokenAt. split.
  - intros (q & s' & cs & -> & (tok & -> & Htok & _)%linkTokenRe_Matches). eauto.
  - intros (tok & post & -> & Htok).
    exists ("confirm=" ++ tok ++ "&amp;id=" ++ post), post, [tok].
    split; [done|]. apply linkTokenRe_Matches. eauto.
Qed.

Lemma inputTokenRe_OccursAt html pre :
  OccursAt inputTokenRe html pre ↔ ∃ tok, InputTokenAt html pre tok.
Proof.
  unfold OccursAt, InputTokenAt. split.
  - intros (q & s' & cs & -> & (ws & tok & -> & Hws & Hsp & Htok & _)%inputTokenRe_Matches).
    exists tok, ws, s'. by rewrite <-?app_assoc.
  - intros (tok & ws & post & -> & Hws & Hsp & Htok).
    eexists _, post, [tok]. split; [done|].
    apply inputTokenRe_Matches. exists ws, tok. by rewrite <-?app_assoc.
Qed.

(** A successful search returns the token of the leftmost occurrence. *)
Lemma search_linkToken html m :
  search linkTokenRe html = Some m →
  isToken (group m 1) ∧ Leftmost (LinkTokenAt html) (group m 1).
Proof.
  intros (mid & Heq & (tok & Hmid & Htok & Hcs)%linkTokenRe_Matches & _ & Hleft)%search_sound.
  unfold group. rewrite Hcs. simpl. split; [done|].
  exists (m_before m). split.
  - exists (m_after m). by rewrite Heq, Hmid.
  - intros pre' tok' Hat. apply Nat.nlt_ge. intros Hlt.
    apply (Hleft pre' Hlt), linkTokenRe_OccursAt. eauto.
Qed.

Lemma search_inputToken html m :
  search inputTokenRe html = Some m →
  isToken (group m 1) ∧ Leftmost (InputTokenAt html) (group m 1).
Proof.
  intros (mid & Heq & (ws & tok & Hmid & Hws & Hsp & Htok & Hcs)%inputTokenRe_Matches
          & _ & Hleft)%search_sound.
  unfold group. rewrite Hcs. simpl. split; [done|].
  exists (m_before m). split.
  - exists ws, (m_after m). by rewrite Heq, Hmid.
  - intros pre' tok' Hat. apply Nat.nlt_ge. intros Hlt.
    apply (Hleft pre' Hlt), inputTokenRe_OccursAt. eauto.
Qed.

Lemma app_same_length_l (p1 p2 q1 q2 : str) :
  p1 ++ q1 = p2 ++ q2 → length p1 = length p2 → p1 = p2 ∧ q1 = q2.
Proof. intros Heq Hlen. by apply app_inj_1. Qed.

Lemma tokenChar_amp : tokenChar "&" = false.
Proof. reflexivity. Qed.

Lemma tokenChar_dquote : tokenChar dquote = false.
Proof. reflexivity. Qed.

Lemma isSpace_v : JS.isSpace "v" = false.
Proof. reflexivity. Qed.

(** The leftmost occurrence carries one token. *)
Lemma Leftmost_link_unique html t1 t2 :
  Leftmost (LinkTokenAt html) t1 → Leftmost (LinkTokenAt html) t2 → t1 = t2.
Proof.
  intros (p1 & H1 & L1) (p2 & H2 & L2).
  pose proof (L1 _ _ H2). pose proof (L2 _ _ H1).
  destruct H1 as (post1 & E1 & _ & T1), H2 as (post2 & E2 & _ & T2).
  rewrite E1 in E2. apply app_same_length_l in E2 as [_ E2]; [|lia].
  apply app_inv_head in E2.
  by apply (run_delimited tokenChar) in E2 as [? _].
Qed.

Lemma Leftmost_input_unique html t1 t2 :
  Leftmost (InputTokenAt html) t1 → Leftmost (InputTokenAt html) t2 → t1 = t2.
Proof.
  intros (p1 & H1 & L1) (p2 & H2 & L2).
  pose proof (L1 _ _ H2). pose proof (L2 _ _ H1).
  destruct H1 as (w1 & post1 & E1 & _ & W1 & _ & T1), H2 as (w2 & post2 & E2 & _ & W2 & _ & T2).
  rewrite E1 in E2. apply app_same_length_l in E2 as [_ E2]; [|lia].
  apply app_inv_head in E2.
  apply (run_delimited JS.isSpace) in E2 as [_ E2]; [|done..].
  apply (app_inv_head (lit "alue=" ++ [dquote])) in E2.
  by apply (run_delimited tokenChar) in E2 as [? _].
Qed.


(** C7. [extractConfirmToken] is a function of the page alone.  When
    the link pattern [confirm=<token>&amp;id=] occurs, the token of its
    leftmost occurrence is returned, also when the hidden form field
    occurs as well; when the link pattern is absent and the form field
    occurs, the token of its leftmost occurrence is returned; when
    neither occurs there is no token.  The leftmost occurrence carries
    one token only, and every token returned is a non-empty word of
    letters, digits and underscores. *)
Theorem extractConfirmToken_spec (html : str) :
  ((∃ pre tok, LinkTokenAt html pre tok) →
     ∃ tok, extractConfirmToken html = Some tok ∧ Leftmost (LinkTokenAt html) tok ∧
            ∀ tok', Leftmost (LinkTokenAt html) tok' → tok' = tok) ∧
  ((∀ pre tok, ¬ LinkTokenAt html pre tok) → (∃ pre tok, InputTokenAt html pre tok) →
     ∃ tok, extractConfirmToken html = Some tok ∧ Leftmost (InputTokenAt html) tok ∧
            ∀ tok', Leftmost (InputTokenAt html) tok' → tok' = tok) ∧
  ((∀ pre tok, ¬ LinkTokenAt html pre tok) → (∀ pre tok, ¬ InputTokenAt html pre tok) →
     extractConfirmToken html = None) ∧
  (∀ tok, extractConfirmToken html = Some tok →
     tok ≠ [] ∧ Forall (λ c, tokenChar c = true) tok).
Proof.
  unfold extractConfirmToken. split_and!.
  - intros (pre & tok & Hat).
    destruct (search linkTokenRe html) as [m|] eqn:E.
    + apply search_linkToken in E as [_ Hl]. exists (group m 1).
      split_and!; [done | done |]. intros tok' Hl'. by eapply Leftmost_link_unique.
    + exfalso. apply (proj1 (search_None _ _) E pre), linkTokenRe_OccursAt. eauto.
  - intros Hno (pre & tok & Hat).
    destruct (search linkTokenRe html) as [m|] eqn:E.
    { apply search_linkToken in E as [_ (p & Hp & _)]. by destruct (Hno _ _ Hp). }
    destruct (search inputTokenRe html) as [m|] eqn:E'.
    + apply search_inputToken in E' as [_ Hl]. exists (group m 1).
      split_and!; [done | done |]. intros tok' Hl'. by eapply Leftmost_input_unique.
    + exfalso. apply (proj1 (search_None _ _) E' pre), inputTokenRe_OccursAt. eauto.
  - intros Hno Hno'.
    destruct (search linkTokenRe html) as [m|] eqn:E.
    { apply search_linkToken in E as [_ (p & Hp & _)]. by destruct (Hno _ _ Hp). }
    destruct (search inputTokenRe html) as [m|] eqn:E'; [|done].
    apply search_inputToken in E' as [_ (p & Hp & _)]. by destruct (Hno' _ _ Hp).
  - intros tok.
    destruct (search linkTokenRe html) as [m|] eqn:E.
    { intros [= <-]. by apply search_linkToken in E as [? _]. }
    destruct (search inputTokenRe html) as [m|] eqn:E'; [|done].
    intros [= <-]. by apply search_inputToken in E' as [? _].
Qed.


Lemma no_linkToken html :
  search linkTokenRe html = None → ∀ pre tok, ¬ LinkTokenAt html pre tok.
Proof.
  intros Hn pre tok Hat. apply (proj1 (search_None _ _) Hn pre), linkTokenRe_OccursAt. eauto.
Qed.

Lemma no_inputToken html :
  search inputTokenRe html = None → ∀ pre tok, ¬ InputTokenAt html pre tok.
Proof.
  intros Hn pre tok Hat. apply (proj1 (search_None _ _) Hn pre), inputTokenRe_OccursAt. eauto.
Qed.

Lemma extractConfirmToken_spec_witness :
  (∃ tok, extractConfirmToken bothPage = Some tok ∧ Leftmost (LinkTokenAt bothPage) tok ∧
          ∀ tok', Leftmost (LinkTokenAt bothPage) tok' → tok' = tok) ∧
  (∃ tok, extractConfirmToken fieldPage = Some tok ∧ Leftmost (InputTokenAt fieldPage) tok ∧
          ∀ tok', Leftmost (InputTokenAt fieldPage) tok' → tok' = tok) ∧
  extractConfirmToken (lit "<html>Quota exceeded</html>") = None ∧
  (lit "t0K_n" ≠ [] ∧ Forall (λ c, tokenChar c = true) (lit "t0K_n")).
Proof.
  split; [|split; [|split]].
  - apply (proj1 (extractConfirmToken_spec bothPage)).
    exists (fieldPage ++ linkPrefix), (lit "t0K_n"), linkSuffix.
    split; [reflexivity | split; [done | repeat constructor]].
  - apply (proj1 (proj2 (extractConfirmToken_spec fieldPage))).
    + apply no_linkToken. reflexivity.
    + exists fieldPrefix, (lit "Ab_9"), (lit " "), (lit ">").
      split_and!; [reflexivity | done | repeat constructor |].
      split; [done | repeat constructor].
  - apply (proj1 (proj2 (proj2 (extractConfirmToken_spec (lit "<html>Quota exceeded</html>"))))).
    + apply no_linkToken. reflexivity.
    + apply no_inputToken. reflexivity.
  - apply (proj2 (proj2 (proj2 (extractConfirmToken_spec bothPage))) (lit "t0K_n")).
    reflexivity.
Defined.

Example extractConfirmToken_both : extractConfirmToken bothPage = Some (lit "t0K_n").
Proof. reflexivity. Qed.


(** ** A greedy group at the end of a pattern *)

Lemma starMatch_greedy_total {A} cls s (k : str → option A) :
  (∀ s', is_Some (k s')) → starMatch true cls s k = k (JS.dropWhile cls s).
Proof.
  intros Hk. induction s as [|a s IH]; simpl; [done|].
  destruct (cls a); [|done]. rewrite IH. by destruct (Hk (JS.dropWhile cls s)) as [x ->].
Qed.

Lemma atLeast_run {A} lo cls s (k : str → option A) x :
  atLeast lo cls s (λ s1, k (JS.dropWhile cls s1)) = Some x →
  (lo ≤ length (JS.takeWhile cls s))%nat ∧ k (JS.dropWhile cls s) = Some x.
Proof.
  revert s. induction lo as [|lo IH]; intros s; simpl.
  - intros Hk. split; [lia | done].
  - destruct s as [|a s]; [done|]. simpl. destruct (cls a); [|done].
    intros [? ?]%IH. simpl. split; [lia | done].
Qed.

Lemma atLeast_ext {A} lo cls s (k1 k2 : str → option A) :
  (∀ s', k1 s' = k2 s') → atLeast lo cls s k1 = atLeast lo cls s k2.
Proof.
  intros Hk. revert s. induction lo as [|lo IH]; intros s; simpl; [done|].
  destruct s as [|a s]; [done|]. destruct (cls a); [apply IH | done].
Qed.

Lemma length_dropWhile cls s :
  (length s - length (JS.dropWhile cls s))%nat = length (JS.takeWhile cls s).
Proof.
  rewrite <-(takeWhile_dropWhile cls s) at 1. rewrite length_app. lia.
Qed.

Lemma greedy_tail lo cls s caps caps' s' :
  rmatch (Grp (Rep true lo cls)) s caps (λ s' caps', Some (caps', s')) = Some (caps', s') →
  caps' = caps ++ [JS.takeWhile cls s] ∧ s' = JS.dropWhile cls s ∧
  (lo ≤ length (JS.takeWhile cls s))%nat.
Proof.
  simpl. intros Hm.
  assert (atLeast lo cls s (λ s1,
            (λ s2, Some (caps ++ [take (length s - length s2) s], s2)) (JS.dropWhile cls s1))
          = Some (caps', s')) as Hrun.
  { rewrite <-Hm. apply atLeast_ext. intros s1.
    rewrite starMatch_greedy_total; [done | eauto]. }
  apply atLeast_run in Hrun as [Hlo [= <- <-]].
  rewrite length_dropWhile. split_and!; [|done|done].
  f_equal. f_equal. rewrite <-(takeWhile_dropWhile cls s) at 2. by rewrite take_app_length.
Qed.


Lemma rmatch_seq_sound {A} r1 r2 s caps (k : str → list str → option A) x :
  rmatch (r1 ⋅ r2) s caps k = Some x →
  ∃ s1 c1, Matches r1 s s1 c1 ∧ rmatch r2 s1 (caps ++ c1) k = Some x.
Proof. simpl. apply rmatch_sound. Qed.

(** ** The id patterns of parser.ts *)

Lemma run_ends (p : ascii → bool) t1 t2 r1 r2 :
  Forall (λ c, p c = true) t1 → Forall (λ c, p c = true) t2 →
  endsRun p r1 → endsRun p r2 → t1 ++ r1 = t2 ++ r2 → t1 = t2 ∧ r1 = r2.
Proof.
  intros H1 H2 E1 E2 Heq.
  destruct (takeWhile_app p t1 r1 H1 E1) as [Ht1 Hr1].
  destruct (takeWhile_app p t2 r2 H2 E2) as [Ht2 Hr2].
  rewrite Heq, Ht2 in Ht1. rewrite Heq, Hr2 in Hr1. split; congruence.
Qed.

Lemma run_maximal (p : ascii → bool) t s :
  t ≠ [] → Forall (λ c, p c = true) t →
  JS.takeWhile p (t ++ s) ≠ [] ∧ endsRun p (JS.dropWhile p (t ++ s)).
Proof.
  intros Hne Ht. split.
  - destruct Ht as [|a t Ha _]; [done|]. simpl. by rewrite Ha.
  - destruct (JS.dropWhile p (t ++ s)) as [|c r] eqn:E; [done|]. simpl.
    by eapply dropWhile_head.
Qed.

Section IdPattern.
Variable l : str.

Local Abbreviation idRe := (Lit false l ⋅ Grp (Rep true 1 idChar))%re.

Lemma idRe_OccursAt path pre : OccursAt idRe path pre ↔ ∃ id, IdAt l path pre id.
Proof.
  unfold OccursAt, IdAt. split.
  - intros (q & s' & cs & -> & (s1 & c1 & c2 & [-> ->]%Matches_Lit_inv
            & (t & -> & Hlen & Ht & ->)%Matches_GrpRep_inv & _)%Matches_Seq_inv).
    assert (t ≠ []) as Hne by (intros ->; simpl in Hlen; lia).
    destruct (run_maximal idChar t s' Hne Ht) as [Hne' Hend].
    exists (JS.takeWhile idChar (t ++ s')), (JS.dropWhile idChar (t ++ s')).
    rewrite takeWhile_dropWhile. split_and!; [done | | done].
    split; [done | apply takeWhile_all].
  - intros (id & rest & -> & [Hne Hid] & _).
    exists (l ++ id ++ rest), rest, ([] ++ [id]). split; [done|].
    eapply M_Seq; [apply M_Lit_exact|]. apply M_GrpRep; [|done].
    destruct id; [done | simpl; lia].
Qed.

Lemma search_idRe path m :
  search idRe path = Some m → Leftmost (IdAt l path) (group m 1).
Proof.
  intros (mid & Heq & _ & Hhere & Hleft)%search_sound.
  unfold matchHere in Hhere.
  apply rmatch_seq_sound in Hhere as (s1 & c1 & [Hs1 ->]%Matches_Lit_inv & Hg).
  apply greedy_tail in Hg as (Hcs & Hafter & Hlen).
  unfold group. rewrite Hcs. simpl.
  exists (m_before m). split.
  - exists (m_after m). rewrite Heq, Hs1, Hafter, takeWhile_dropWhile.
    split_and!; [done | |].
    + split; [|apply takeWhile_all]. intros E. rewrite E in Hlen. simpl in Hlen. lia.
    + destruct (JS.dropWhile idChar s1) as [|c r] eqn:E; [done|]. simpl.
      by eapply dropWhile_head.
  - intros pre' id' Hat. apply Nat.nlt_ge. intros Hlt.
    apply (Hleft pre' Hlt), idRe_OccursAt. eauto.
Qed.

Lemma Leftmost_IdAt_unique path id1 id2 :
  Leftmost (IdAt l path) id1 → Leftmost (IdAt l path) id2 → id1 = id2.
Proof.
  intros (p1 & H1 & L1) (p2 & H2 & L2).
  pose proof (L1 _ _ H2). pose proof (L2 _ _ H1).
  destruct H1 as (r1 & E1 & [_ T1] & M1), H2 as (r2 & E2 & [_ T2] & M2).
  rewrite E1 in E2. apply app_same_length_l in E2 as [_ E2]; [|lia].
  apply app_inv_head in E2. by apply (run_ends idChar) in E2 as [? _].
Qed.

Lemma search_idRe_Some path id :
  Leftmost (IdAt l path) id →
  JS.includes path l = true ∧ ∃ m, search idRe path = Some m ∧ group m 1 = id.
Proof.
  intros Hl. split.
  - destruct Hl as (pre & (rest & -> & _) & _). apply includes_spec. eauto.
  - destruct (search idRe path) as [m|] eqn:E.
    + exists m. split; [done|]. apply search_idRe in E. by eapply Leftmost_IdAt_unique.
    + exfalso. destruct Hl as (pre & Hat & _).
      apply (proj1 (search_None _ _) E pre), idRe_OccursAt. eauto.
Qed.

Lemma search_idRe_None path :
  (∀ pre id, ¬ IdAt l path pre id) → search idRe path = None.
Proof.
  intros Hno. apply search_None. intros p [id Hat]%idRe_OccursAt. by eapply Hno.
Qed.

End IdPattern.


Lemma Matches_Alt_inv r1 r2 s s' cs :
  Matches (Alt r1 r2) s s' cs → Matches r1 s s' cs ∨ Matches r2 s s' cs.
Proof. inversion 1; subst; eauto. Qed.

Lemma docWord_Matches s s1 cs :
  Matches (Grp (Alt (Lit false "document")
               (Alt (Lit false "spreadsheets")
               (Alt (Lit false "presentation") (Lit false "drawings"))))) s s1 cs ↔
  ∃ w, w ∈ docWords ∧ s = w ++ s1 ∧ cs = [w].
Proof.
  split.
  - intros (t & cs0 & -> & Hm & ->)%Matches_Grp_inv.
    assert (∃ w, w ∈ docWords ∧ t ++ s1 = w ++ s1 ∧ cs0 = []) as (w & Hw & Heq & ->).
    { unfold docWords.
      apply Matches_Alt_inv in Hm as [Hm | Hm]; [|apply Matches_Alt_inv in Hm as [Hm | Hm];
        [|apply Matches_Alt_inv in Hm as [Hm | Hm]]];
        apply Matches_Lit_inv in Hm as [Hm ->]; eexists; (split; [|split; [exact Hm | done]]);
        set_solver. }
    apply app_inv_tail in Heq as ->. eauto.
  - intros (w & Hw & -> & ->). apply (M_Grp _ _ _ []).
    unfold docWords in Hw. rewrite !elem_of_cons, elem_of_nil in Hw.
    destruct Hw as [-> | [-> | [-> | [-> | []]]]].
    + apply M_AltL, M_Lit_exact.
    + apply M_AltR, M_AltL, M_Lit_exact.
    + apply M_AltR, M_AltR, M_AltL, M_Lit_exact.
    + apply M_AltR, M_AltR, M_AltR, M_Lit_exact.
Qed.

Lemma docRe_OccursAt path pre : OccursAt docRe path pre ↔ ∃ wid, DocIdAt path pre wid.
Proof.
  unfold OccursAt, DocIdAt, docRe. split.
  - intros (q & s' & cs & -> & (s1 & c1 & c2 & [-> ->]%Matches_Lit_inv
            & (s2 & c3 & c4 & (w & Hw & -> & ->)%docWord_Matches
            & (s3 & c5 & c6 & [-> ->]%Matches_Lit_inv
            & (t & -> & Hlen & Ht & ->)%Matches_GrpRep_inv & _)%Matches_Seq_inv
            & _)%Matches_Seq_inv & _)%Matches_Seq_inv).
    assert (t ≠ []) as Hne by (intros ->; simpl in Hlen; lia).
    destruct (run_maximal idChar t s' Hne Ht) as [Hne' Hend].
    exists (w, JS.takeWhile idChar (t ++ s')), (JS.dropWhile idChar (t ++ s')). simpl.
    rewrite takeWhile_dropWhile. split_and!; [done | done | | done].
    split; [done | apply takeWhile_all].
  - intros ([w id] & rest & -> & Hw & [Hne Hid] & _). cbn [fst snd] in *.
    eexists _, rest, _. split; [done|].
    eapply M_Seq; [apply M_Lit_exact|].
    eapply M_Seq; [apply docWord_Matches; eauto|].
    eapply M_Seq; [apply M_Lit_exact|]. apply M_GrpRep; [|done].
    destruct id; [done | simpl; lia].
Qed.

Lemma search_docRe path m :
  search docRe path = Some m → Leftmost (DocIdAt path) (group m 1, group m 2).
Proof.
  intros (mid & Heq & _ & Hhere & Hleft)%search_sound.
  unfold matchHere, docRe in Hhere.
  apply rmatch_seq_sound in Hhere as (s1 & c1 & [Hs1 ->]%Matches_Lit_inv & Hhere).
  apply rmatch_seq_sound in Hhere as (s2 & c2 & (w & Hw & -> & ->)%docWord_Matches & Hhere).
  apply rmatch_seq_sound in Hhere as (s3 & c3 & [-> ->]%Matches_Lit_inv & Hg).
  apply greedy_tail in Hg as (Hcs & Hafter & Hlen).
  unfold group. rewrite Hcs. simpl.
  exists (m_before m). split.
  - exists (m_after m). simpl. rewrite Heq, Hs1, Hafter, takeWhile_dropWhile.
    split_and!; [done | done | |].
    + split; [|apply takeWhile_all]. intros E. rewrite E in Hlen. simpl in Hlen. lia.
    + destruct (JS.dropWhile idChar s3) as [|c r] eqn:E; [done|]. simpl.
      by eapply dropWhile_head.
  - intros pre' id' Hat. apply Nat.nlt_ge. intros Hlt.
    apply (Hleft pre' Hlt), docRe_OccursAt. eauto.
Qed.

Lemma docWords_lower w : w ∈ docWords → Forall (λ c, JS.isLower c = true) w.
Proof.
  unfold docWords. rewrite !elem_of_cons, elem_of_nil.
  intros [-> | [-> | [-> | [-> | []]]]]; repeat constructor.
Qed.

Lemma Leftmost_DocIdAt_unique path wid1 wid2 :
  Leftmost (DocIdAt path) wid1 → Leftmost (DocIdAt path) wid2 → wid1 = wid2.
Proof.
  intros (p1 & H1 & L1) (p2 & H2 & L2).
  pose proof (L1 _ _ H2). pose proof (L2 _ _ H1).
  destruct wid1 as [w1 id1], wid2 as [w2 id2].
  destruct H1 as (r1 & E1 & W1 & [_ T1] & M1), H2 as (r2 & E2 & W2 & [_ T2] & M2).
  simpl in *. rewrite E1 in E2. apply app_same_length_l in E2 as [_ E2]; [|lia].
  apply (app_inv_head (lit "/")) in E2.
  apply (run_delimited JS.isLower) in E2 as [-> E2];
    [|by apply docWords_lower|by apply docWords_lower|done].
  apply (app_inv_head (lit "d/")) in E2.
  by apply (run_ends idChar) in E2 as [-> _].
Qed.

Lemma search_docRe_Some path wid :
  Leftmost (DocIdAt path) wid →
  ∃ m, search docRe path = Some m ∧ group m 1 = wid.1 ∧ group m 2 = wid.2.
Proof.
  intros Hl. destruct (search docRe path) as [m|] eqn:E.
  - exists m. split; [done|]. apply search_docRe in E.
    by rewrite <-(Leftmost_DocIdAt_unique _ _ _ E Hl).
  - exfalso. destruct Hl as (pre & Hat & _).
    apply (proj1 (search_None _ _) E pre), docRe_OccursAt. eauto.
Qed.

Lemma typeMap_docWords :
  typeMap "document" = TDocument ∧ typeMap "spreadsheets" = TSpreadsheet ∧
  typeMap "presentation" = TPresentation ∧ typeMap "drawings" = TDrawing.
Proof. done. Qed.

(** The resource key that [parseGoogleDriveUrl] reads off the query. *)
Lemma orUndefined_Some o k : orUndefined o = Some k ↔ o = Some k ∧ k ≠ [].
Proof.
  destruct o as [[|a s]|]; simpl.
  - split; [done | by intros [[= <-] ?]].
  - split; [by intros [= <-] | by intros [[= <-] _]].
  - split; [done | by intros [? _]].
Qed.

Lemma no_IdAt l path :
  search (Lit false l ⋅ Grp (Rep true 1 idChar)) path = None → ∀ pre id, ¬ IdAt l path pre id.
Proof.
  intros Hn pre id Hat. apply (proj1 (search_None _ _) Hn pre), idRe_OccursAt. eauto.
Qed.

Lemma no_IdAt_search l path :
  (∀ pre id, ¬ IdAt l path pre id) →
  (if JS.includes path l then search (Lit false l ⋅ Grp (Rep true 1 idChar)) path else None)
  = None.
Proof. intros Hno. destruct (JS.includes path l); [by apply search_idRe_None | done]. Qed.

(** C5, as the code has it.  For a URL that [new URL] accepts the
    patterns are tried in the order file, folder, editor, and the first
    one that occurs in the path decides: with [/file/d/<id>] in the path
    the result is that id with kind file; without it and with
    [/drive/folders/<id>] it is that id with kind folder; without both,
    on a host that contains [docs.google.com], with
    [/(document|spreadsheets|presentation|drawings)/d/<id>] it is that
    id with the kind of the editor.  The id is the one of the leftmost
    occurrence, up to the end of the run of id characters.  The access
    key is the first [resourcekey] parameter of the query when that is
    not empty, and none otherwise. *)
Theorem parseGoogleDriveUrl_patterns `{NodeRuntime} (url : str) (urlObj : URL) :
  newURL url = Some urlObj →
  let path := pathname urlObj in
  let accessKey := orUndefined (searchParams_get "resourcekey" (searchParams urlObj)) in
  (∀ id, Leftmost (IdAt "/file/d/" path) id →
     parseGoogleDriveUrl url = Some (mkParsedUrl id TFile accessKey)) ∧
  (∀ id, (∀ pre id', ¬ IdAt "/file/d/" path pre id') →
     Leftmost (IdAt "/drive/folders/" path) id →
     parseGoogleDriveUrl url = Some (mkParsedUrl id TFolder accessKey)) ∧
  (∀ word id, (∀ pre id', ¬ IdAt "/file/d/" path pre id') →
     (∀ pre id', ¬ IdAt "/drive/folders/" path pre id') →
     JS.includes (hostname urlObj) "docs.google.com" = true →
     Leftmost (DocIdAt path) (word, id) →
     parseGoogleDriveUrl url = Some (mkParsedUrl id (typeMap word) accessKey)) ∧
  (typeMap "document" = TDocument ∧ typeMap "spreadsheets" = TSpreadsheet ∧
   typeMap "presentation" = TPresentation ∧ typeMap "drawings" = TDrawing) ∧
  (∀ k, accessKey = Some k ↔
        searchParams_get "resourcekey" (searchParams urlObj) = Some k ∧ k ≠ []).
Proof.
  intros Hurl path accessKey. unfold parseGoogleDriveUrl. rewrite Hurl.
  unfold parseStructured, fileRe, folderRe. fold path. fold accessKey.
  split; [|split; [|split; [|split]]].
  - intros id [-> (m & -> & ->)]%search_idRe_Some. done.
  - intros id Hfile [-> (m & Hm & <-)]%search_idRe_Some.
    rewrite (no_IdAt_search _ _ Hfile). by rewrite Hm.
  - intros word id Hfile Hfolder -> (m & Hm & Hw & Hid)%search_docRe_Some.
    simpl in Hw, Hid. subst word id.
    rewrite (no_IdAt_search _ _ Hfile), (no_IdAt_search _ _ Hfolder). by rewrite Hm.
  - apply typeMap_docWords.
  - intros k. apply orUndefined_Some.
Qed.

Lemma parseGoogleDriveUrl_patterns_witness :
  @parseGoogleDriveUrl exampleRuntime fileUrl
    = Some (mkParsedUrl "ABC123" TFile (Some (lit "0-k"))) ∧
  @parseGoogleDriveUrl exampleRuntime folderUrl = Some (mkParsedUrl "XYZ987" TFolder None) ∧
  @parseGoogleDriveUrl exampleRuntime sheetUrl
    = Some (mkParsedUrl "SHEET1" TSpreadsheet None).
Proof.
  split_and!.
  - apply (proj1 (@parseGoogleDriveUrl_patterns exampleRuntime fileUrl _ eq_refl)).
    exists []. split; [|intros; simpl; lia].
    exists (lit "/view"). split; [reflexivity | split; [|done]].
    split; [done | repeat constructor].
  - apply (proj1 (proj2 (@parseGoogleDriveUrl_patterns exampleRuntime folderUrl _ eq_refl))).
    + apply no_IdAt. reflexivity.
    + exists []. split; [|intros; simpl; lia].
      exists []. split; [reflexivity | split; [|done]].
      split; [done | repeat constructor].
  - apply (proj1 (proj2 (proj2
             (@parseGoogleDriveUrl_patterns exampleRuntime sheetUrl _ eq_refl)))
             (lit "spreadsheets") (lit "SHEET1")).
    + apply no_IdAt. reflexivity.
    + apply no_IdAt. reflexivity.
    + reflexivity.
    + exists []. split; [|intros; simpl; lia].
      exists (lit "/edit"). split; [reflexivity | split; [|split; [|done]]].
      * unfold docWords. simpl. set_solver.
      * split; [done | repeat constructor].
Defined.

(** C5 as the spec states it fails on two URLs.  The path of the first
    one has the folder pattern with the id FOLDER1, and the result is
    the file FILE2 of the pattern that is tried first.  The query of the
    second one has a [resourcekey] parameter, which is empty, and the
    result has no access key. *)
Lemma parseGoogleDriveUrl_counterexample :
  (∃ u, @newURL exampleRuntime folderThenFileUrl = Some u ∧
        Leftmost (IdAt "/drive/folders/" (pathname u)) (lit "FOLDER1") ∧
        @parseGoogleDriveUrl exampleRuntime folderThenFileUrl
          = Some (mkParsedUrl "FILE2" TFile None) ∧
        @parseGoogleDriveUrl exampleRuntime folderThenFileUrl
          ≠ Some (mkParsedUrl "FOLDER1" TFolder None)) ∧
  (∃ u, @newURL exampleRuntime emptyKeyUrl = Some u ∧
        searchParams_get "resourcekey" (searchParams u) = Some [] ∧
        @parseGoogleDriveUrl exampleRuntime emptyKeyUrl
          = Some (mkParsedUrl "ABC123" TFile None)).
Proof.
  split.
  - eexists. split; [reflexivity|]. split_and!; [| reflexivity | done].
    exists []. split; [|intros; simpl; lia].
    exists (lit "/file/d/FILE2"). split; [reflexivity | split; [|done]].
    split; [done | repeat constructor].
  - eexists. split; [reflexivity|]. split; reflexivity.
Qed.


(** ** cookies.ts *)

Lemma split_head c s : ∃ ps, JS.split c s = JS.takeWhile (notChr c) s :: ps.
Proof.
  induction s as [|a s [ps IH]]; simpl; [by exists []|].
  unfold notChr at 1. destruct (JS.chr a c); simpl; [eauto|]. rewrite IH. eauto.
Qed.

Lemma nonEmpty_true s : JS.nonEmpty s = true ↔ s ≠ [].
Proof. by destruct s. Qed.

Lemma updateCookie_unfold jar cookie :
  updateCookie jar cookie =
    let part0 := JS.takeWhile (notChr ";") cookie in
    let nameValue := JS.takeWhile (notChr "=") part0 in
    let value := drop (length nameValue + 1) part0 in
    if JS.nonEmpty nameValue && JS.nonEmpty value
    then <[JS.trim nameValue := JS.trim value]> jar else jar.
Proof.
  unfold updateCookie. destruct (split_head ";" cookie) as [ps ->].
  destruct (split_head "=" (JS.takeWhile (notChr ";") cookie)) as [qs ->]. done.
Qed.

(** What the code reads off a line of the form [name=value]. *)
Lemma SetCookieLine_parts cookie name value :
  SetCookieLine cookie name value →
  JS.takeWhile (notChr "=") (JS.takeWhile (notChr ";") cookie) = name ∧
  drop (length name + 1) (JS.takeWhile (notChr ";") cookie) = value.
Proof.
  intros (attrs & -> & Hname & Hvalue & Hattrs).
  assert (Forall (λ c, notChr ";" c = true) (name ++ "=" ++ value)) as Hpart.
  { apply Forall_app. split; [|apply Forall_app; split; [by repeat constructor | done]].
    eapply Forall_impl; [exact Hname|]. by intros c [_ ?]. }
  assert (JS.takeWhile (notChr ";") (name ++ "=" ++ value ++ attrs) = name ++ "=" ++ value)
    as ->.
  { rewrite !app_assoc. rewrite <-(app_assoc name). by apply takeWhile_app. }
  assert (Forall (λ c, notChr "=" c = true) name) as Hname'.
  { eapply Forall_impl; [exact Hname|]. by intros c [? _]. }
  split.
  - by apply (takeWhile_app (notChr "=") name ("=" ++ value)).
  - rewrite app_assoc. rewrite drop_app_length'; [done|]. by rewrite length_app.
Qed.

Lemma updateCookie_line jar cookie name value :
  SetCookieLine cookie name value →
  updateCookie jar cookie =
    if JS.nonEmpty name && JS.nonEmpty value
    then <[JS.trim name := JS.trim value]> jar else jar.
Proof.
  intros [Hn Hv]%SetCookieLine_parts. rewrite updateCookie_unfold. simpl.
  by rewrite Hn, Hv.
Qed.

(** A line that changes the jar is of the form [name=value]. *)
Lemma updateCookie_Writes jar cookie key :
  ¬ Writes cookie key → updateCookie jar cookie !! key = jar !! key.
Proof.
  intros Hno. rewrite updateCookie_unfold. simpl.
  set (part0 := JS.takeWhile (notChr ";") cookie).
  set (name := JS.takeWhile (notChr "=") part0).
  set (value := drop (length name + 1) part0).
  destruct (JS.nonEmpty name && JS.nonEmpty value) eqn:E; [|done].
  apply andb_true_iff in E as [Hn%nonEmpty_true Hv%nonEmpty_true].
  destruct (decide (JS.trim name = key)) as [Hk|Hk]; [|by rewrite lookup_insert_ne].
  destruct Hno. exists name, value. split_and!; try done.
  exists (JS.dropWhile (notChr ";") cookie).
  assert (part0 = name ++ "=" ++ value) as Hpart.
  { pose proof (takeWhile_dropWhile (notChr "=") part0) as Hsplit. fold name in Hsplit.
    destruct (JS.dropWhile (notChr "=") part0) as [|c rest] eqn:Hd.
    - exfalso. apply Hv. unfold value.
      apply (f_equal length) in Hsplit. rewrite length_app in Hsplit. simpl in Hsplit.
      apply drop_ge. lia.
    - apply dropWhile_head in Hd as Hc. unfold notChr in Hc.
      apply negb_false_iff, chr_true in Hc as ->.
      assert (value = rest) as ->; [|done].
      unfold value. rewrite <-Hsplit, cons_middle, app_assoc.
      apply drop_app_length'. by rewrite length_app. }
  split_and!.
  - replace (name ++ "=" ++ value ++ JS.dropWhile (notChr ";") cookie)
      with ((name ++ "=" ++ value) ++ JS.dropWhile (notChr ";") cookie)
      by (by rewrite <-!app_assoc).
    rewrite <-Hpart. symmetry. apply takeWhile_dropWhile.
  - apply Forall_forall. intros c Hc. split.
    + by apply (proj1 (Forall_forall _ _) (takeWhile_all (notChr "=") part0)).
    + apply (proj1 (Forall_forall _ _) (takeWhile_all (notChr ";") cookie)).
      fold part0. rewrite Hpart. set_solver.
  - apply Forall_forall. intros c Hc.
    apply (proj1 (Forall_forall _ _) (takeWhile_all (notChr ";") cookie)).
    fold part0. rewrite Hpart. set_solver.
  - destruct (JS.dropWhile (notChr ";") cookie) as [|c r] eqn:Hd; [done|]. simpl.
    by eapply dropWhile_head.
Qed.

Lemma updateCookie_keeps jar cookie k :
  is_Some (jar !! k) → is_Some (updateCookie jar cookie !! k).
Proof.
  intros Hk. rewrite updateCookie_unfold. simpl.
  match goal with |- context [if ?b then _ else _] => destruct b end; [|done].
  rewrite lookup_insert. case_decide; eauto.
Qed.

Lemma foldl_updateCookie_keeps cookies jar k :
  is_Some (jar !! k) → is_Some (foldl updateCookie jar cookies !! k).
Proof.
  revert jar. induction cookies as [|c cs IH]; intros jar Hk; simpl; [done|].
  by apply IH, updateCookie_keeps.
Qed.

Lemma foldl_updateCookie_untouched cookies jar key :
  (∀ c, c ∈ cookies → ¬ Writes c key) →
  foldl updateCookie jar cookies !! key = jar !! key.
Proof.
  revert jar. induction cookies as [|c cs IH]; intros jar Hno; simpl; [done|].
  rewrite IH; [|set_solver]. apply updateCookie_Writes. set_solver.
Qed.



Lemma Writes_updateCookie cookie key :
  Writes cookie key → is_Some (updateCookie ∅ cookie !! key).
Proof.
  intros (name & value & Hline & Hn%nonEmpty_true & Hv%nonEmpty_true & <-).
  rewrite (updateCookie_line _ _ _ _ Hline), Hn, Hv. simpl.
  rewrite lookup_insert_eq. eauto.
Qed.


Example updateCookies_last_wins :
  let jar := updateCookiesFromHeaders ∅ (Some [lit "a=1; Path=/"; lit "b=2"; lit "a=3"]) in
  jar !! lit "a" = Some (lit "3") ∧ jar !! lit "b" = Some (lit "2") ∧ size jar = 2%nat.
Proof. repeat split; vm_compute; reflexivity. Qed.


(** ** The delays *)

Lemma pow2_le (n m : nat) : (n ≤ m)%nat → 2 ^ Z.of_nat n ≤ 2 ^ Z.of_nat m.
Proof. intros Hnm. apply Z.pow_le_mono_r; lia. Qed.

Lemma capped_mono base cap (n m : nat) :
  0 ≤ base → (n ≤ m)%nat →
  Z.min (base * 2 ^ Z.of_nat n) cap ≤ Z.min (base * 2 ^ Z.of_nat m) cap.
Proof.
  intros Hb Hnm. apply Z.min_le_compat_r, Z.mul_le_mono_nonneg_l; [done|].
  by apply pow2_le.
Qed.

Lemma isRedirect_429 res : statusCode res = 429 → isRedirect res = false.
Proof. intros E. unfold isRedirect. by rewrite E. Qed.

(** A 429 response below the ceiling makes [fetchText] wait for
    [fetchRateLimitDelay] and ask again with the counter advanced. *)
Lemma fetchText_429 `{NodeRuntime} net url u jar maxRetries retryCount res :
  newURL url = Some u → statusCode res = 429 → (retryCount < maxRetries)%nat →
  fetchText (NetResponse res :: net) url jar maxRetries retryCount
  = fr_after [Get url (cookieHeader (default ∅ jar));
              Sleep (inject_Z (fetchRateLimitDelay retryCount))]
      (fetchText net url jar maxRetries (S retryCount)).
Proof.
  intros Hu Hs Hlt. simpl. rewrite Hu, (isRedirect_429 _ Hs), Hs. simpl.
  by rewrite (proj2 (Nat.ltb_lt _ _) Hlt).
Qed.

(** A 429 response makes an attempt of [downloadFile] wait for
    [downloadRateLimitDelay] and go to the next attempt. *)
Lemma tryBody_429 `{NodeRuntime} options fileId destDir preferredName downloadUrl
    attempt confirmToken st res net u :
  ls_net st = NetResponse res :: net → statusCode res = 429 →
  newURL (urlToString (requestUrl downloadUrl confirmToken)) = Some u →
  tryBody options fileId destDir preferredName downloadUrl attempt confirmToken st
  = (TNext confirmToken,
     mkLoopState (updateCookiesFromHeaders (ls_jar st) (h_setCookie res)) (ls_world st) net
       (ls_trace st ++ [Get (urlToString (requestUrl downloadUrl confirmToken))
                          (cookieHeader (ls_jar st));
                        Sleep (inject_Z (downloadRateLimitDelay attempt))])).
Proof.
  intros Hnet Hs Hu. unfold tryBody. rewrite Hnet. cbn [performDownloadRequest].
  rewrite Hu, Hs. cbn. unfold ls_sleep. cbn.
  destruct (ls_world st). by rewrite <-app_assoc.
Qed.

(** C8. The delay before a retry after a rate-limit response is
    [min(2000 * 2^n, 60000)] in [fetchText] and [min(5000 * 2^n, 120000)]
    in the attempt loop of [downloadFile], [n] being the retry counter
    and the attempt number; either one does not decrease when [n] grows
    and never exceeds its cap. *)
Theorem rateLimitDelay_monotone_capped (n m : nat) :
  (n ≤ m)%nat →
  (fetchRateLimitDelay n = Z.min (2000 * 2 ^ Z.of_nat n) 60000 ∧
   fetchRateLimitDelay n ≤ fetchRateLimitDelay m ∧
   fetchRateLimitDelay n ≤ 60000) ∧
  (downloadRateLimitDelay n = Z.min (5000 * 2 ^ Z.of_nat n) 120000 ∧
   downloadRateLimitDelay n ≤ downloadRateLimitDelay m ∧
   downloadRateLimitDelay n ≤ 120000) ∧
  (∀ `{NodeRuntime} net url u jar maxRetries res,
     newURL url = Some u → statusCode res = 429 → (n < maxRetries)%nat →
     fetchText (NetResponse res :: net) url jar maxRetries n
     = fr_after [Get url (cookieHeader (default ∅ jar));
                 Sleep (inject_Z (Z.min (2000 * 2 ^ Z.of_nat n) 60000))]
         (fetchText net url jar maxRetries (S n))) ∧
  (∀ `{NodeRuntime} options fileId destDir preferredName downloadUrl confirmToken st res net u,
     ls_net st = NetResponse res :: net → statusCode res = 429 →
     newURL (urlToString (requestUrl downloadUrl confirmToken)) = Some u →
     sleeps (ls_trace
               (tryBody options fileId destDir preferredName downloadUrl n confirmToken st).2)
     = sleeps (ls_trace st) ++ [inject_Z (Z.min (5000 * 2 ^ Z.of_nat n) 120000)]).
Proof.
  intros Hnm. split; [|split; [|split]].
  - unfold fetchRateLimitDelay.
    split; [done | split; [apply capped_mono; [lia | done] | apply Z.le_min_r]].
  - unfold downloadRateLimitDelay.
    split; [done | split; [apply capped_mono; [lia | done] | apply Z.le_min_r]].
  - intros. by apply (fetchText_429 net url u).
  - intros H options fileId destDir preferredName downloadUrl tok st res net u Hnet Hs Hu.
    rewrite (tryBody_429 options fileId destDir preferredName downloadUrl n tok st res net u
               Hnet Hs Hu).
    cbn [snd ls_trace]. unfold sleeps. by rewrite omap_app.
Qed.

Lemma rateLimitDelay_monotone_capped_witness :
  (fetchRateLimitDelay 3 = Z.min (2000 * 2 ^ Z.of_nat 3) 60000 ∧
   fetchRateLimitDelay 3 ≤ fetchRateLimitDelay 5 ∧
   fetchRateLimitDelay 3 ≤ 60000) ∧
  (downloadRateLimitDelay 3 = Z.min (5000 * 2 ^ Z.of_nat 3) 120000 ∧
   downloadRateLimitDelay 3 ≤ downloadRateLimitDelay 5 ∧
   downloadRateLimitDelay 3 ≤ 120000) ∧
  @fetchText exampleRuntime [tooManyRequests; listingPage] listingUrl (Some ∅) 5 3
  = fr_after [Get listingUrl (cookieHeader (default ∅ (Some ∅)));
              Sleep (inject_Z (Z.min (2000 * 2 ^ Z.of_nat 3) 60000))]
      (@fetchText exampleRuntime [listingPage] listingUrl (Some ∅) 5 4).
Proof.
  destruct (rateLimitDelay_monotone_capped 3 5) as (Hf & Hd & Hfetch & _); [lia|].
  split; [exact Hf|]. split; [exact Hd|].
  refine (Hfetch exampleRuntime [listingPage] listingUrl _ (Some ∅) 5%nat
            (plainResponse 429 "") eq_refl eq_refl _).
  lia.
Defined.

Example fetchRateLimitDelay_values :
  fetchRateLimitDelay <$> [0; 1; 2; 3; 4; 5; 6]%nat
  = [2000; 4000; 8000; 16000; 32000; 60000; 60000].
Proof. reflexivity. Qed.

Example downloadRateLimitDelay_values :
  downloadRateLimitDelay <$> [0; 1; 2; 3; 4; 5; 14]%nat
  = [5000; 10000; 20000; 40000; 80000; 120000; 120000].
Proof. reflexivity. Qed.


(** ** ensureUniqueName *)

Lemma lit_inj (s1 s2 : string) : lit s1 = lit s2 → s1 = s2.
Proof.
  unfold lit. intros Heq.
  rewrite <-(String.string_of_list_ascii_of_string s1),
          <-(String.string_of_list_ascii_of_string s2). by rewrite Heq.
Qed.

Lemma ofNat_inj n m : JS.ofNat n = JS.ofNat m → n = m.
Proof. unfold JS.ofNat. intros Heq%lit_inj. by apply (inj pretty). Qed.

Lemma numbered_inj base ext n m : numbered base ext n = numbered base ext m → n = m.
Proof.
  unfold numbered. intros Heq. apply app_inv_head, (app_inv_head (lit " (")) in Heq.
  rewrite !app_assoc in Heq. apply app_inv_tail, app_inv_tail in Heq.
  by apply ofNat_inj.
Qed.

Section UniqueNameProofs.
Context `{NodeRuntime}.
Variables (fs : FileSystem) (dir base ext : str).
Hypothesis join_inj :
  ∀ n m, path_join dir (numbered base ext n) = path_join dir (numbered base ext m) → n = m.

Local Abbreviation taken n := (existsSync fs (path_join dir (numbered base ext n)) = true).

(** The loop returns the first numbered candidate that is free. *)
Lemma uniqueLoop_numbered fuel c name :
  uniqueLoop fs dir base ext fuel (numbered base ext c) (S c) = Some name →
  ∃ n, (c ≤ n)%nat ∧ name = numbered base ext n ∧
       existsSync fs (path_join dir name) = false ∧
       ∀ k, (c ≤ k < n)%nat → taken k.
Proof.
  revert c. induction fuel as [|fuel IH]; intros c; simpl.
  - destruct (existsSync fs (path_join dir (numbered base ext c))) eqn:E; [done|].
    intros [= <-]. exists c. split_and!; [done..|]. intros k ?; lia.
  - destruct (existsSync fs (path_join dir (numbered base ext c))) eqn:E.
    + intros (n & Hn & -> & Hfree & Hall)%IH. exists n. split_and!; [lia | done..|].
      intros k Hk. destruct (decide (k = c)) as [->|]; [done|]. apply Hall. lia.
    + intros [= <-]. exists c. split_and!; [done..|]. intros k ?; lia.
Qed.

(** It returns when a free candidate is within reach of the fuel. *)
Lemma uniqueLoop_returns fuel c n :
  (c ≤ n ≤ c + fuel)%nat → ¬ taken n →
  is_Some (uniqueLoop fs dir base ext fuel (numbered base ext c) (S c)).
Proof.
  revert c. induction fuel as [|fuel IH]; intros c Hn Hfree; simpl.
  - replace n with c in Hfree by lia.
    destruct (existsSync fs (path_join dir (numbered base ext c))); [done | eauto].
  - destruct (existsSync fs (path_join dir (numbered base ext c))) eqn:E; [|eauto].
    apply IH; [|done]. destruct (decide (n = c)) as [->|]; [done | lia].
Qed.

(** Among the first [size fs + 1] numbered candidates one is free. *)
Lemma numbered_free : ∃ n, (1 ≤ n ≤ 1 + size fs)%nat ∧ ¬ taken n.
Proof.
  set (candidates := (λ n, path_join dir (numbered base ext n)) <$> seq 1 (S (size fs))).
  destruct (decide (Forall (λ n, taken n) (seq 1 (S (size fs))))) as [Hall | Hsome].
  - exfalso.
    assert (NoDup candidates) as Hnd.
    { apply NoDup_fmap_2_strong; [|apply NoDup_seq].
      intros a b _ _ Heq. by apply join_inj in Heq. }
    assert (list_to_set candidates ⊆ dom fs) as Hsub.
    { intros p [n [-> Hn]]%elem_of_list_to_set%list_elem_of_fmap.
      rewrite Forall_forall in Hall. specialize (Hall n Hn).
      unfold existsSync in Hall. apply bool_decide_eq_true in Hall.
      by apply elem_of_dom. }
    apply subseteq_size in Hsub. rewrite size_list_to_set, size_dom in Hsub; [|done].
    unfold candidates in Hsub. rewrite length_fmap, length_seq in Hsub. lia.
  - apply not_Forall_Exists in Hsome; [|apply _].
    apply Exists_exists in Hsome as (n & Hn%elem_of_seq & Hfree). exists n. split; [lia|done].
Qed.

End UniqueNameProofs.


(** C9. [ensureUniqueName] returns the desired name when no file of
    that name is in the directory; otherwise it returns
    [<base> (n)<ext>], with the extension and the base of the desired
    name, for the least [n] from 1 on whose name is not in the
    directory.  The name it returns is never one of the directory.  (The
    loop ends because [path.join] sends the numbered candidates to
    different paths.) *)
Theorem ensureUniqueName_spec `{NodeRuntime} (fs : FileSystem) (dir desiredName : str) :
  let ext := path_extname desiredName in
  let base := path_basenameExt desiredName ext in
  (∀ n m, path_join dir (base ++ " (" ++ JS.ofNat n ++ ")" ++ ext)
          = path_join dir (base ++ " (" ++ JS.ofNat m ++ ")" ++ ext) → n = m) →
  ∃ name,
    ensureUniqueName fs dir desiredName = Some name ∧
    existsSync fs (path_join dir name) = false ∧
    (existsSync fs (path_join dir desiredName) = false → name = desiredName) ∧
    (existsSync fs (path_join dir desiredName) = true →
     ∃ n, (1 ≤ n)%nat ∧ name = base ++ " (" ++ JS.ofNat n ++ ")" ++ ext ∧
          ∀ k, (1 ≤ k < n)%nat →
               existsSync fs (path_join dir (base ++ " (" ++ JS.ofNat k ++ ")" ++ ext)) = true).
Proof.
  intros ext base Hinj. unfold ensureUniqueName. fold ext. fold base. simpl.
  destruct (existsSync fs (path_join dir desiredName)) eqn:E.
  - destruct (numbered_free fs dir base ext Hinj) as (n0 & Hn0 & Hfree).
    destruct (uniqueLoop_returns fs dir base ext (size fs) 1 n0 Hn0 Hfree) as [name Hname].
    exists name. rewrite Hname.
    apply uniqueLoop_numbered in Hname as (n & Hn & -> & Hnew & Hall).
    split_and!; [done | done | done |]. intros _. exists n. split_and!; done.
  - exists desiredName. split_and!; [done | done | done | done].
Qed.

Lemma ensureUniqueName_spec_witness :
  ∃ name,
    @ensureUniqueName exampleRuntime reportDir "/cwd/out" "report.pdf" = Some name ∧
    existsSync reportDir ("/cwd/out" ++ "/" ++ name) = false ∧
    (existsSync reportDir ("/cwd/out" ++ "/" ++ "report.pdf") = false
     → name = lit "report.pdf") ∧
    (existsSync reportDir ("/cwd/out" ++ "/" ++ "report.pdf") = true →
     ∃ n, (1 ≤ n)%nat ∧ name = "report" ++ " (" ++ JS.ofNat n ++ ")" ++ ".pdf" ∧
          ∀ k, (1 ≤ k < n)%nat →
               existsSync reportDir
                 ("/cwd/out" ++ "/" ++ "report" ++ " (" ++ JS.ofNat k ++ ")" ++ ".pdf") = true).
Proof.
  apply (@ensureUniqueName_spec exampleRuntime reportDir "/cwd/out" "report.pdf").
  intros n m Heq. apply (app_inv_head (lit "/cwd/out/")) in Heq.
  by apply (numbered_inj "report" ".pdf").
Defined.

(** The example of the spec: a report is in the directory, the next two
    downloads of that name are numbered 1 and 2. *)
Example ensureUniqueName_report :
  @ensureUniqueName exampleRuntime reportDir "/cwd/out" "report.pdf"
    = Some (lit "report (1).pdf") ∧
  @ensureUniqueName exampleRuntime reportDir1 "/cwd/out" "report.pdf"
    = Some (lit "report (2).pdf") ∧
  @ensureUniqueName exampleRuntime reportDir "/cwd/out" "notes.txt"
    = Some (lit "notes.txt").
Proof. by vm_compute. Qed.


(** ** fetchText *)

Lemma fr_after_app a b r : fr_after a (fr_after b r) = fr_after (a ++ b) r.
Proof. unfold fr_after. simpl. by rewrite app_assoc. Qed.

Lemma fr_after_nil r : fr_after [] r = r.
Proof. by destruct r. Qed.

Section FetchRetry.
Context `{NodeRuntime}.
Variables (url : str) (u : URL) (jar : option CookieJar) (maxRetries : nat).
Hypothesis url_ok : newURL url = Some u.

Local Abbreviation cookie := (cookieHeader (default ∅ jar)).

Lemma fetchText_retry e net retryCount :
  Retryable e → (retryCount < maxRetries)%nat →
  fetchText (e :: net) url jar maxRetries retryCount
  = fr_after [Get url cookie; Sleep (inject_Z (retryDelay e retryCount))]
      (fetchText net url jar maxRetries (S retryCount)).
Proof.
  intros He Hlt. apply Nat.ltb_lt in Hlt. destruct e as [res | err |]; simpl in *.
  - by rewrite url_ok, (isRedirect_429 _ He), He, Hlt.
  - by rewrite url_ok, Hlt.
  - done.
Qed.

Lemma fetchText_giveUp e net retryCount :
  Retryable e → (maxRetries ≤ retryCount)%nat →
  fetchText (e :: net) url jar maxRetries retryCount
  = mkFetchRun (Rejected (giveUp maxRetries e)) jar net [Get url cookie].
Proof.
  intros He Hge. apply Nat.ltb_ge in Hge. destruct e as [res | err |]; simpl in *.
  - by rewrite url_ok, (isRedirect_429 _ He), He, Hge.
  - by rewrite url_ok, Hge.
  - done.
Qed.

Lemma fetchText_retries events net retryCount :
  Forall Retryable events → (retryCount + length events ≤ maxRetries)%nat →
  fetchText (events ++ net) url jar maxRetries retryCount
  = fr_after (retryTrace url cookie retryCount events)
      (fetchText net url jar maxRetries (retryCount + length events)).
Proof.
  intros Hev. revert retryCount.
  induction Hev as [|e events He _ IH]; intros retryCount Hlen.
  - simpl. by rewrite Nat.add_0_r, fr_after_nil.
  - simpl in Hlen. rewrite <-app_comm_cons, fetchText_retry; [|done|lia].
    rewrite IH; [|lia]. rewrite fr_after_app. simpl.
    by rewrite Nat.add_succ_r.
Qed.

End FetchRetry.

(** C3, as the code has it.  [fetchText] keeps one counter for both
    kinds of retry.  A run of 429 responses and [error] events, in any
    order, is retried as long as the counter stays within the ceiling:
    the counter advances by one per event, whatever its kind, and the
    delay before a retry is [min(2000 * 2^c, 60000)] after a 429 and
    [min(2000 * 2^c, 30000)] after an error, [c] being the counter at
    that point.  The event that arrives when the counter has reached the
    ceiling rejects the promise: with a rate-limit error if it is a 429
    response, with the error itself otherwise. *)
Theorem fetchText_shared_retry_counter `{NodeRuntime} (url : str) (u : URL)
    (jar : option CookieJar) (maxRetries retryCount : nat)
    (events : list NetEvent) (e : NetEvent) (net : list NetEvent) :
  newURL url = Some u → Forall Retryable events → Retryable e →
  ((retryCount + length events ≤ maxRetries)%nat →
   fetchText (events ++ net) url jar maxRetries retryCount
   = fr_after (retryTrace url (cookieHeader (default ∅ jar)) retryCount events)
       (fetchText net url jar maxRetries (retryCount + length events))) ∧
  ((retryCount + length events = maxRetries)%nat →
   fr_result (fetchText (events ++ e :: net) url jar maxRetries retryCount)
   = Rejected (giveUp maxRetries e)).
Proof.
  intros Hu Hev He. split.
  - by apply (fetchText_retries url u).
  - intros Hlen. rewrite (fetchText_retries url u jar maxRetries Hu); [|done|lia].
    rewrite (fetchText_giveUp url u jar maxRetries Hu); [done | done | lia].
Qed.


Lemma fetchText_shared_retry_counter_witness :
  @fetchText exampleRuntime
    ((replicate 3 tooManyRequests ++ replicate 2 connectionReset) ++ [listingPage])
    listingUrl (Some ∅) 5 0
  = fr_after
      (retryTrace listingUrl None 0 (replicate 3 tooManyRequests ++ replicate 2 connectionReset))
      (@fetchText exampleRuntime [listingPage] listingUrl (Some ∅) 5 5) ∧
  fr_result (@fetchText exampleRuntime
    ((replicate 3 tooManyRequests ++ replicate 2 connectionReset)
     ++ connectionReset :: [listingPage]) listingUrl (Some ∅) 5 0)
  = Rejected (Error "read ECONNRESET").
Proof.
  assert (Forall Retryable (replicate 3 tooManyRequests ++ replicate 2 connectionReset)) as Hev
    by (repeat constructor).
  split.
  - refine (proj1 (@fetchText_shared_retry_counter exampleRuntime listingUrl _ (Some ∅) 5 0
              _ connectionReset [listingPage] eq_refl Hev I) _).
    simpl. lia.
  - refine (proj2 (@fetchText_shared_retry_counter exampleRuntime listingUrl _ (Some ∅) 5 0
              _ connectionReset [listingPage] eq_refl Hev I) _).
    reflexivity.
Defined.

(** C3 as the spec states it fails: with a ceiling of 5, after three
    retries caused by 429 responses the third of three connection
    errors is not retried but rejects the promise, and the delays of the
    two that are retried continue from the shared counter (16 s and
    30 s, not 2 s and 4 s); in the other order the third 429 response
    after three connection errors is not retried either. *)
Lemma fetchText_independent_budgets_counterexample :
  let r1 := @fetchText exampleRuntime
              (replicate 3 tooManyRequests ++ replicate 3 connectionReset ++ [listingPage])
              listingUrl (Some ∅) 5 0 in
  let r2 := @fetchText exampleRuntime
              (replicate 3 connectionReset ++ replicate 3 tooManyRequests ++ [listingPage])
              listingUrl (Some ∅) 5 0 in
  fr_result r1 = Rejected (Error "read ECONNRESET") ∧
  sleeps (fr_trace r1) = inject_Z <$> [2000; 4000; 8000; 16000; 30000] ∧
  fr_result r2 = Rejected (RateLimitError "Rate limited after 5 retries") ∧
  sleeps (fr_trace r2) = inject_Z <$> [2000; 4000; 8000; 16000; 32000].
Proof. repeat split; vm_compute; reflexivity. Qed.

Example fetchText_within_budget :
  fr_result (@fetchText exampleRuntime
    (replicate 3 tooManyRequests ++ replicate 2 connectionReset ++ [listingPage])
    listingUrl (Some ∅) 5 0) = Resolved (lit "<html></html>").
Proof. by vm_compute. Qed.


(** [fetchText] reads the Set-Cookie header on its last branch only:
    what a redirect, a 429 response or an error response sets never
    reaches the jar. *)
Lemma fetchText_setCookie_ignored `{NodeRuntime} res net url u jar maxRetries retryCount :
  newURL url = Some u →
  isRedirect res = true ∨ statusCode res = 429 ∨ 400 ≤ statusCode res →
  fetchText (NetResponse res :: net) url jar maxRetries retryCount
  = fetchText (NetResponse (withoutSetCookie res) :: net) url jar maxRetries retryCount.
Proof.
  intros Hu Hres. destruct res as [status location cookies encoding disposition body].
  unfold withoutSetCookie. simpl in *. rewrite Hu.
  unfold isRedirect in *. simpl in *.
  destruct ((300 <=? status) && (status <? 400) && JS.truthy location); [done|].
  destruct (status =? 429) eqn:E429; [done|].
  destruct (400 <=? status) eqn:E400; [done|].
  destruct Hres as [? | [? | ?]]; [done | lia | lia].
Qed.

(** C2 fails on the code.  A redirect sets the cookie NID: [fetchText]
    follows the redirect without the cookie and returns the page with
    the jar still empty; the same holds for a 429 response that is
    retried and for a 403 response that is reported.  The download
    request, on the same redirect, merges the cookie first and sends it
    to the next hop. *)
Lemma fetchText_drops_cookies :
  let r := @fetchText exampleRuntime [redirectWithCookie; listingPage] listingUrl (Some ∅) 5 0 in
  let r429 :=
    @fetchText exampleRuntime [rateLimitWithCookie; listingPage] listingUrl (Some ∅) 5 0 in
  let r403 := @fetchText exampleRuntime [forbiddenWithCookie] listingUrl (Some ∅) 5 0 in
  let d := @performDownloadRequest exampleRuntime [redirectWithCookie; listingPage]
             listingUrl "/cwd" None ∅ ∅ in
  (fr_result r = Resolved (lit "<html></html>") ∧ fr_jar r = Some ∅ ∧
   requests (fr_trace r)
   = [(listingUrl, None); (lit "https://drive.google.com/next", None)]) ∧
  (fr_result r429 = Resolved (lit "<html></html>") ∧ fr_jar r429 = Some ∅) ∧
  (fr_result r403
   = Rejected (Error ("HTTP 403 when fetching " ++ listingUrl)) ∧ fr_jar r403 = Some ∅) ∧
  (rr_jar d !! lit "NID" = Some (lit "abc") ∧
   requests (rr_trace d)
   = [(listingUrl, None); (lit "https://drive.google.com/next", Some (lit "NID=abc"))]).
Proof. repeat split; vm_compute; reflexivity. Qed.


(** ** download.ts *)

Lemma requests_app t1 t2 : requests (t1 ++ t2) = requests t1 ++ requests t2.
Proof. unfold requests. apply omap_app. Qed.

Section DownloadProofs.
Context `{NodeRuntime}.

(** A download request that reports success has written the file it
    names, and every answer comes after a request. *)
Lemma performDownloadRequest_resolved net urlStr destDir preferredName jar fs a :
  rr_result (performDownloadRequest net urlStr destDir preferredName jar fs) = Resolved a →
  requests (rr_trace (performDownloadRequest net urlStr destDir preferredName jar fs)) ≠ [] ∧
  (da_success a = true →
   ∃ p content,
     da_filePath a = Some p ∧
     rr_fs (performDownloadRequest net urlStr destDir preferredName jar fs) !! p
     = Some (File content)) ∧
  (da_success a = false →
   rr_fs (performDownloadRequest net urlStr destDir preferredName jar fs) = fs).
Proof.
  revert urlStr jar. induction net as [|e net IH]; intros urlStr jar; simpl.
  - destruct (newURL urlStr); done.
  - destruct (newURL urlStr); [|done].
    destruct e as [res | err |]; [|done..].
    destruct (statusCode res =? 429).
    { simpl. intros [= <-]. simpl. done. }
    destruct (isRedirect res).
    { simpl. intros Hr. destruct (IH _ _ Hr) as (Hreq & Hok & Hfs). done. }
    destruct (JS.truthy (h_contentDisposition res) && (statusCode res =? 200)).
    { destruct (ensureUniqueName fs destDir _) as [finalName|]; [|done].
      simpl. intros [= <-]. simpl. split_and!; [done | | done].
      intros _. eexists _, _. split; [done|]. apply lookup_insert_eq. }
    destruct (decodeBody (rawBody res) (h_contentEncoding res)); [|done].
    simpl. intros [= <-]. simpl. done.
Qed.

Variable options : DownloadOptions.
Variables (fileId destDir : str) (preferredName : option str) (downloadUrl : URL).

Local Abbreviation tryBody' := (tryBody options fileId destDir preferredName downloadUrl).
Local Abbreviation attemptLoop' :=
  (attemptLoop options fileId destDir preferredName downloadUrl).

(** What an attempt leaves behind: the cache changes on a verified
    return only, and a return comes after a request that wrote the
    file. *)
Lemma tryBody_effects attempt confirmToken st outcome st' :
  tryBody' attempt confirmToken st = (outcome, st') →
  (∃ t, ls_trace st' = ls_trace st ++ t ∧
        match outcome with TReturn _ => requests t ≠ [] | _ => True end) ∧
  match outcome with
  | TReturn p =>
      ∃ content,
        w_fs (ls_world st') !! p = Some (File content) ∧
        w_cache (ls_world st')
        = if opt_verify options
          then <[fileId := storedMetadata fileId p content]> (w_cache (ls_world st))
          else w_cache (ls_world st)
  | _ => w_cache (ls_world st') = w_cache (ls_world st)
  end.
Proof.
  unfold tryBody.
  set (r := performDownloadRequest _ _ _ _ _ _).
  destruct (rr_result r) as [a | e |] eqn:Hr.
  2,3: intros [= <- <-]; simpl; eauto.
  destruct (performDownloadRequest_resolved _ _ _ _ _ _ _ Hr) as (Hreq & Hok & _).
  fold r in Hreq, Hok.
  destruct (da_success a && JS.truthy (da_filePath a)) eqn:Hsucc.
  - apply andb_true_iff in Hsucc as [Hs _].
    destruct (Hok Hs) as (p & content & Hp & Hfile). rewrite Hp. simpl.
    destruct (opt_verify options) eqn:Hv.
    + unfold calculateFileHash, fileSize. rewrite Hfile.
      intros [= <- <-]. simpl. split; [eauto|]. exists content. done.
    + intros [= <- <-]. simpl. split; [eauto|]. exists content. done.
  - destruct ((da_statusCode a =? 429) || bodyRateLimited _).
    { intros [= <- <-]. simpl. split; [|done]. rewrite <-app_assoc. eauto. }
    destruct (JS.includes _ "permission" || JS.includes _ "access denied" || _).
    { intros [= <- <-]. simpl. eauto. }
    destruct (JS.includes _ "not found" || _).
    { intros [= <- <-]. simpl. eauto. }
    destruct (extractConfirmToken _); destruct (attempt <? maxAttempts - 1)%nat;
      intros [= <- <-]; simpl; (split; [|done]); rewrite <-?app_assoc; eauto.
Qed.

Lemma attemptLoop_resolved fuel attempt confirmToken st p st' :
  attemptLoop' fuel attempt confirmToken st = (Resolved p, st') →
  (∃ t, ls_trace st' = ls_trace st ++ t ∧ requests t ≠ []) ∧
  ∃ content,
    w_fs (ls_world st') !! p = Some (File content) ∧
    w_cache (ls_world st')
    = if opt_verify options
      then <[fileId := storedMetadata fileId p content]> (w_cache (ls_world st))
      else w_cache (ls_world st).
Proof.
  revert attempt confirmToken st. induction fuel as [|fuel IH]; intros attempt tok st; simpl.
  - destruct (attempt <? maxAttempts)%nat; done.
  - destruct (attempt <? maxAttempts)%nat; [|done].
    destruct (tryBody' attempt tok st) as [outcome st1] eqn:Htry.
    apply tryBody_effects in Htry as [(t1 & Ht1 & Hreq1) Hcache1].
    assert (∀ tok' st2, ls_trace st2 = ls_trace st1 ∨
                        (∃ ms, ls_trace st2 = ls_trace st1 ++ [Sleep ms]) →
              w_cache (ls_world st2) = w_cache (ls_world st) →
              attemptLoop' fuel (S attempt) tok' st2 = (Resolved p, st') →
              (∃ t, ls_trace st' = ls_trace st ++ t ∧ requests t ≠ []) ∧
              ∃ content,
                w_fs (ls_world st') !! p = Some (File content) ∧
                w_cache (ls_world st')
                = if opt_verify options
                  then <[fileId := storedMetadata fileId p content]> (w_cache (ls_world st))
                  else w_cache (ls_world st)) as Hnext.
    { intros tok' st2 Htr Hc [(t & Ht & Hreq) (content & Hfile & Hcache)]%IH.
      split.
      - destruct Htr as [Htr | [ms Htr]]; rewrite Ht, Htr, Ht1, <-?app_assoc.
        + eexists. split; [done|]. rewrite requests_app.
          intros [_ ?]%app_eq_nil. done.
        + eexists. split; [done|]. rewrite !requests_app.
          intros [_ [_ ?]%app_eq_nil]%app_eq_nil. done.
      - exists content. by rewrite <-Hc. }
    destruct outcome as [q | tok' | err |].
    + intros [= <- <-]. split; [eauto | done].
    + apply Hnext; [by left | done].
    + destruct (messageRateLimited (message err)).
      { apply Hnext; [right; eexists; done | done]. }
      case_bool_decide; [done|].
      apply Hnext; [right; eexists; done | done].
    + done.
Qed.

End DownloadProofs.


Section DownloadFileProofs.
Context `{NodeRuntime}.

Lemma performDownloadRequest_first net urlStr u destDir preferredName jar fs :
  newURL urlStr = Some u →
  ∃ rest, rr_trace (performDownloadRequest net urlStr destDir preferredName jar fs)
          = Get urlStr (cookieHeader jar) :: rest.
Proof.
  intros Hu. destruct net as [|[res | err |] net]; simpl; rewrite Hu; [eauto | | eauto..].
  destruct (statusCode res =? 429); [eauto|].
  destruct (isRedirect res); [simpl; eauto|].
  destruct (JS.truthy (h_contentDisposition res) && (statusCode res =? 200)).
  { destruct (ensureUniqueName fs destDir _); eauto. }
  destruct (decodeBody (rawBody res) (h_contentEncoding res)); eauto.
Qed.

Lemma attemptLoop_trace options fileId destDir preferredName downloadUrl
    fuel attempt confirmToken st :
  ∃ t, ls_trace (attemptLoop options fileId destDir preferredName downloadUrl
                   fuel attempt confirmToken st).2 = ls_trace st ++ t.
Proof.
  revert attempt confirmToken st. induction fuel as [|fuel IH]; intros attempt tok st; simpl.
  - destruct (attempt <? maxAttempts)%nat; exists []; by rewrite app_nil_r.
  - destruct (attempt <? maxAttempts)%nat; [|exists []; by rewrite app_nil_r].
    destruct (tryBody options fileId destDir preferredName downloadUrl attempt tok st)
      as [outcome st1] eqn:Htry.
    apply tryBody_effects in Htry as [(t1 & Ht1 & _) _].
    destruct outcome as [q | tok' | err |]; simpl; [eauto | | | eauto].
    + destruct (IH (S attempt) tok' st1) as [t ->]. rewrite Ht1, <-app_assoc. eauto.
    + destruct (messageRateLimited (message err)).
      { destruct (IH (S attempt) tok
                    (ls_sleep (inject_Z (downloadRateLimitDelay attempt)) st1)) as [t ->].
        simpl. rewrite Ht1, <-!app_assoc. eauto. }
      case_bool_decide; [simpl; eauto|].
      destruct (IH (S attempt) tok (ls_sleep (errorDelay attempt) st1)) as [t ->].
      simpl. rewrite Ht1, <-!app_assoc. eauto.
Qed.

Lemma attemptLoop_unfold options fileId destDir preferredName downloadUrl
    fuel attempt confirmToken st :
  attemptLoop options fileId destDir preferredName downloadUrl (S fuel) attempt confirmToken st
  = if (attempt <? maxAttempts)%nat then
      match tryBody options fileId destDir preferredName downloadUrl attempt confirmToken st with
      | (TReturn filePath, st') => (Resolved filePath, st')
      | (TPending, st') => (Pending, st')
      | (TNext confirmToken', st') =>
          attemptLoop options fileId destDir preferredName downloadUrl fuel (S attempt)
            confirmToken' st'
      | (TThrow err, st') =>
          if messageRateLimited (message err) then
            attemptLoop options fileId destDir preferredName downloadUrl fuel (S attempt)
              confirmToken (ls_sleep (inject_Z (downloadRateLimitDelay attempt)) st')
          else if bool_decide (attempt = (maxAttempts - 1)%nat) then (Rejected err, st')
          else
            attemptLoop options fileId destDir preferredName downloadUrl fuel (S attempt)
              confirmToken (ls_sleep (errorDelay attempt) st')
      end
    else
      (Rejected (Error "Exceeded maximum attempts while downloading from Google Drive"), st).
Proof. reflexivity. Qed.

Lemma tryBody_first options fileId destDir preferredName downloadUrl u attempt st :
  newURL (urlToString downloadUrl) = Some u → ls_trace st = [] →
  ∃ rest,
    ls_trace (tryBody options fileId destDir preferredName downloadUrl attempt None st).2
    = Get (urlToString downloadUrl) (cookieHeader (ls_jar st)) :: rest.
Proof.
  intros Hu Hnil.
  destruct (tryBody options fileId destDir preferredName downloadUrl attempt None st)
    as [outcome st1] eqn:Htry.
  pose proof Htry as Htry'. apply tryBody_effects in Htry' as [(t1 & Ht1 & _) _].
  rewrite Hnil in Ht1. simpl in Ht1. simpl.
  destruct (performDownloadRequest_first (ls_net st) (urlToString downloadUrl) u destDir
              preferredName (ls_jar st) (w_fs (ls_world st)) Hu) as [rest Hrest].
  revert Htry. unfold tryBody. simpl. rewrite Hnil. simpl.
  set (r := performDownloadRequest _ _ _ _ _ _) in *.
  destruct (rr_result r) as [a | e |].
  2,3: intros [= _ <-]; simpl in *; rewrite Hrest; eauto.
  repeat match goal with
         | |- context [if ?b then _ else _] => destruct b
         | |- context [match ?x with _ => _ end] => destruct x
         end; intros [= _ <-]; simpl in *; rewrite Hrest; eauto.
Qed.

Lemma maxAttempts_eq : maxAttempts = 15%nat.
Proof. reflexivity. Qed.

Lemma attemptLoop_first options fileId destDir preferredName downloadUrl u fuel st :
  newURL (urlToString downloadUrl) = Some u → ls_trace st = [] →
  ∃ rest,
    ls_trace (attemptLoop options fileId destDir preferredName downloadUrl
                (S fuel) 0 None st).2
    = Get (urlToString downloadUrl) (cookieHeader (ls_jar st)) :: rest.
Proof.
  intros Hu Hnil. rewrite attemptLoop_unfold.
  replace (0 <? maxAttempts)%nat with true by reflexivity.
  destruct (tryBody_first options fileId destDir preferredName downloadUrl u 0 st Hu Hnil)
    as [rest1 Hst1].
  destruct (tryBody options fileId destDir preferredName downloadUrl 0 None st)
    as [outcome st1].
  cbn [snd] in Hst1.
  destruct outcome as [q | tok' | err |]; cbn [snd]; [eauto | | | eauto].
  - destruct (attemptLoop_trace options fileId destDir preferredName downloadUrl
                fuel 1 tok' st1) as [t ->].
    rewrite Hst1. cbn [app]. eauto.
  - destruct (messageRateLimited (message err)).
    { destruct (attemptLoop_trace options fileId destDir preferredName downloadUrl fuel 1 None
                  (ls_sleep (inject_Z (downloadRateLimitDelay 0)) st1)) as [t ->].
      cbn [ls_sleep ls_trace]. rewrite Hst1. cbn [app]. eauto. }
    replace (bool_decide (0%nat = (maxAttempts - 1)%nat)) with false by reflexivity.
    destruct (attemptLoop_trace options fileId destDir preferredName downloadUrl fuel 1 None
                (ls_sleep (errorDelay 0) st1)) as [t ->].
    cbn [ls_sleep ls_trace]. rewrite Hst1. cbn [app]. eauto.
Qed.

(** The attempt loop starts with a request for the download URL. *)
Lemma downloadAttempts_first options fileId destDir preferredName downloadUrl u jar w net :
  newURL (urlToString downloadUrl) = Some u →
  ∃ rest, dr_trace (downloadAttempts options fileId destDir preferredName downloadUrl jar w net)
          = Get (urlToString downloadUrl) (cookieHeader jar) :: rest.
Proof.
  intros Hu. unfold downloadAttempts. rewrite maxAttempts_eq.
  destruct (attemptLoop_first options fileId destDir preferredName downloadUrl u 14
              (mkLoopState jar w net []) Hu eq_refl) as [rest Hrest].
  destruct (attemptLoop _ _ _ _ _ 15 0 None _) as [result st].
  cbn [snd ls_jar] in Hrest. cbn [dr_trace]. eauto.
Qed.

End DownloadFileProofs.


Lemma isFileValid_hash `{NodeRuntime} (fs : FileSystem) p content hash :
  fs !! p = Some (File content) → hash ≠ [] →
  isFileValid fs p (Some hash) = bool_decide (sha256 content = hash).
Proof.
  intros Hp Hne. unfold isFileValid, existsSync, verifyFileHash, calculateFileHash.
  rewrite Hp. rewrite bool_decide_eq_true_2 by eauto. simpl.
  by destruct hash.
Qed.

Lemma cachedPath_Some `{NodeRuntime} options w fileId destDir preferredName p :
  cachedPath options w fileId destDir preferredName = Some p →
  ∃ md, opt_verify options = true ∧ w_cache w !! fileId = Some md ∧
        JS.truthy (fm_hash md) = true ∧
        p = expectedPath fileId destDir preferredName md ∧
        isFileValid (w_fs w) p (fm_hash md) = true.
Proof.
  unfold cachedPath, loadMetadata.
  destruct (opt_verify options); [|done].
  destruct (w_cache w !! fileId) as [md|]; [|done].
  destruct (JS.truthy (fm_hash md)) eqn:Hh; [|done].
  destruct (isFileValid _ _ _) eqn:Hv; [|done].
  intros [= <-]. exists md. done.
Qed.




(** The round trip of the spec: a verified download stores the record;
    the same call on the world it leaves returns the path without a
    request and consumes no event; once the file has been edited the
    file is requested again. *)
Example downloadFile_round_trip :
  let first := @downloadFile exampleRuntime "FILE1" (Some (lit "out")) verifyOptions outWorld
                 [attachment] in
  let again := @downloadFile exampleRuntime "FILE1" (Some (lit "out")) verifyOptions
                 downloadedWorld [attachment] in
  let edited := @downloadFile exampleRuntime "FILE1" (Some (lit "out")) verifyOptions
                  editedWorld [attachment] in
  (dr_result first = Resolved (lit "/cwd/out/report.pdf") ∧
   w_fs (dr_world first) !! lit "/cwd/out/report.pdf" = Some (File "DATA") ∧
   w_cache (dr_world first) !! lit "FILE1" = Some cachedRecord ∧
   requests (dr_trace first) = [(fileUrl1, None)]) ∧
  (dr_result again = Resolved (lit "/cwd/out/report.pdf") ∧ dr_trace again = [] ∧
   dr_net again = [attachment]) ∧
  (dr_result edited = Resolved (lit "/cwd/out/report (1).pdf") ∧
   requests (dr_trace edited) = [(fileUrl1, None)] ∧ dr_net edited = []).
Proof. repeat split; vm_compute; reflexivity. Qed.


(** A 403 response before the last attempt: the permission error that
    the [try] block throws is caught by the [catch] clause of the same
    turn, which waits for [errorDelay] and goes on to the next attempt. *)
Lemma attemptLoop_retries_permission_error `{NodeRuntime} options fileId destDir
    preferredName downloadUrl fuel attempt confirmToken st res net u :
  ls_net st = NetResponse res :: net →
  statusCode res = 403 → h_contentEncoding res = None →
  bodyRateLimited (JS.orElse (Some (rawBody res)) []) = false →
  (attempt < maxAttempts - 1)%nat →
  newURL (urlToString (requestUrl downloadUrl confirmToken)) = Some u →
  attemptLoop options fileId destDir preferredName downloadUrl (S fuel) attempt
    confirmToken st
  = attemptLoop options fileId destDir preferredName downloadUrl fuel (S attempt)
      confirmToken
      (mkLoopState (updateCookiesFromHeaders (ls_jar st) (h_setCookie res)) (ls_world st)
         net (ls_trace st ++ [Get (urlToString (requestUrl downloadUrl confirmToken))
                                (cookieHeader (ls_jar st));
                              Sleep (errorDelay attempt)])).
Proof.
  intros Hnet Hs Henc Hrl Hlt Hu. rewrite attemptLoop_unfold.
  replace (attempt <? maxAttempts)%nat with true
    by (symmetry; apply Nat.ltb_lt; unfold maxAttempts in *; lia).
  unfold tryBody. rewrite Hnet. cbn [performDownloadRequest]. rewrite Hu, Hs.
  assert (isRedirect res = false) as -> by (unfold isRedirect; by rewrite Hs).
  cbn -[bodyRateLimited JS.includes JS.orElse]. rewrite andb_false_r. unfold decodeBody. rewrite Henc.
  rewrite !(bool_decide_eq_false_2 (None = Some _)) by done.
  cbn -[bodyRateLimited JS.includes JS.orElse]. rewrite Hrl, orb_true_r.
  cbn -[bodyRateLimited JS.includes JS.orElse].
  match goal with
  | |- context [messageRateLimited ?m] =>
      replace (messageRateLimited m) with false by reflexivity
  end.
  rewrite bool_decide_eq_false_2 by (unfold maxAttempts in *; lia).
  unfold ls_sleep. cbn. destruct (ls_world st). by rewrite <-app_assoc.
Qed.

(** C1 fails on the code.  A 403 page on the first attempt does not
    end the download: after 2 seconds the file is requested again and
    the download succeeds; the same holds for a 404 page.  Only on the
    fifteenth attempt is the permission error passed on, after fourteen
    retries. *)
Lemma downloadFile_retries_classification_errors :
  let r403 := @downloadFile exampleRuntime "FILE1" (Some (lit "out")) plainOptions outWorld
                [accessDenied; attachment] in
  let r404 := @downloadFile exampleRuntime "FILE1" (Some (lit "out")) plainOptions outWorld
                [notFound; attachment] in
  let r15 := @downloadFile exampleRuntime "FILE1" (Some (lit "out")) plainOptions outWorld
               (replicate 15 accessDenied) in
  (dr_result r403 = Resolved (lit "/cwd/out/report.pdf") ∧
   requests (dr_trace r403) = [(fileUrl1, None); (fileUrl1, None)] ∧
   sleeps (dr_trace r403) = [2000%Q]) ∧
  (dr_result r404 = Resolved (lit "/cwd/out/report.pdf") ∧
   requests (dr_trace r404) = [(fileUrl1, None); (fileUrl1, None)] ∧
   sleeps (dr_trace r404) = [2000%Q]) ∧
  (dr_result r15
   = Rejected (PermissionError "Permission denied. The file may not be publicly accessible.") ∧
   length (requests (dr_trace r15)) = 15%nat ∧
   length (sleeps (dr_trace r15)) = 14%nat).
Proof. repeat split; vm_compute; reflexivity. Qed.


(** ** folder.ts *)

Lemma warnings_app t1 t2 : warnings (t1 ++ t2) = warnings t1 ++ warnings t2.
Proof. unfold warnings. apply omap_app. Qed.

Lemma fr_after_warnings es r :
  warnings es = [] → warnings (fr_trace (fr_after es r)) = warnings (fr_trace r).
Proof. intros Hes. unfold fr_after. simpl. by rewrite warnings_app, Hes. Qed.

(** [fetchText] prints no warning. *)
Lemma fetchText_no_warnings `{NodeRuntime} net url jar maxRetries retryCount :
  warnings (fr_trace (fetchText net url jar maxRetries retryCount)) = [].
Proof.
  revert url retryCount. induction net as [|e net IH]; intros url retryCount; simpl.
  - by destruct (newURL url).
  - destruct (newURL url); [|done]. destruct e as [res | err |]; [| |done].
    + destruct (isRedirect res); [by rewrite fr_after_warnings|].
      destruct (statusCode res =? 429).
      { destruct (retryCount <? maxRetries)%nat; [by rewrite fr_after_warnings | done]. }
      destruct (400 <=? statusCode res); [done|].
      by destruct (decodeBody (rawBody res) (h_contentEncoding res)).
    + destruct (retryCount <? maxRetries)%nat; [by rewrite fr_after_warnings | done].
Qed.

Section FolderProofs.
Context `{NodeRuntime}.

(** A match of [entryRegex] consumes text. *)
Lemma entryRegex_consumes rest m :
  search entryRegex rest = Some m → (length (m_after m) < length rest)%nat.
Proof.
  intros (mid & -> & Hm & _)%search_sound. unfold entryRegex in Hm.
  apply Matches_Seq_inv in Hm as (s1 & c1 & c2 & [Hs1 _]%Matches_Lit_inv & Hm & _).
  apply Matches_suffix in Hm as [t ->]. rewrite Hs1, !length_app. simpl. lia.
Qed.

(** The fuel of [pageEntries] is never used up. *)
Lemma allEntries_fuel fuel1 fuel2 rest :
  (length rest < fuel1)%nat → (length rest < fuel2)%nat →
  allEntries fuel1 rest = allEntries fuel2 rest.
Proof.
  revert fuel2 rest. induction fuel1 as [|fuel1 IH]; intros fuel2 rest H1 H2; [lia|].
  destruct fuel2 as [|fuel2]; [lia|]. simpl.
  destruct (search entryRegex rest) as [m|] eqn:E; [|done].
  apply entryRegex_consumes in E. f_equal. apply IH; lia.
Qed.

(** The loop collects the entries of the page up to the cap. *)
Lemma entriesLoop_take fuel rest entries fileCount :
  (fileCount ≤ MAX_FILES_PER_FOLDER)%nat →
  entriesLoop fuel rest entries fileCount
  = (entries ++ take (MAX_FILES_PER_FOLDER - fileCount) (allEntries fuel rest),
     (fileCount + length (take (MAX_FILES_PER_FOLDER - fileCount) (allEntries fuel rest)))%nat).
Proof.
  revert rest entries fileCount.
  induction fuel as [|fuel IH]; intros rest entries fileCount Hle; simpl.
  - by rewrite take_nil, app_nil_r, Nat.add_0_r.
  - destruct (search entryRegex rest) as [m|] eqn:E.
    2: by rewrite take_nil, app_nil_r, Nat.add_0_r.
    destruct (fileCount <? MAX_FILES_PER_FOLDER)%nat eqn:Hlt.
    + apply Nat.ltb_lt in Hlt. destruct (entryOfMatch m) as [entry|]; simpl.
      * rewrite IH by lia.
        replace (MAX_FILES_PER_FOLDER - fileCount)%nat
          with (S (MAX_FILES_PER_FOLDER - S fileCount)) by lia.
        simpl. rewrite <-app_assoc. simpl. f_equal. lia.
      * by rewrite IH by lia.
    + apply Nat.ltb_ge in Hlt.
      replace (MAX_FILES_PER_FOLDER - fileCount)%nat with 0%nat by lia.
      by rewrite take_0, app_nil_r, Nat.add_0_r.
Qed.

Lemma parseFolderPage_spec quiet html :
  parseFolderPage quiet html
  = (take MAX_FILES_PER_FOLDER (pageEntries html),
     if (MAX_FILES_PER_FOLDER <=? length (pageEntries html))%nat && negb quiet
     then [Warn folderWarning] else []).
Proof.
  unfold parseFolderPage, pageEntries.
  rewrite entriesLoop_take by (unfold MAX_FILES_PER_FOLDER; lia).
  rewrite Nat.sub_0_r, Nat.add_0_l, app_nil_l.
  generalize (allEntries (S (length html)) html). intros all.
  cbv beta iota. f_equal. rewrite length_take.
  destruct (decide (MAX_FILES_PER_FOLDER ≤ length all)%nat) as [Hge | Hlt].
  - rewrite (proj2 (Nat.leb_le _ (length all)) Hge).
    by rewrite (proj2 (Nat.leb_le _ _)) by lia.
  - rewrite (proj2 (Nat.leb_gt _ (length all))) by lia.
    by rewrite (proj2 (Nat.leb_gt _ _)) by lia.
Qed.

End FolderProofs.


(** C6, as the code has it.  Once the listing page is fetched,
    [fetchDriveFolderEntries] returns the first 50 entries of the page,
    in page order, and never an error: the entries are those of the
    matches of the entry pattern whose link carries an id.  Unless
    [quiet] is set, it prints the warning when the page holds more than
    50 entries; it prints none when the page holds fewer than 50
    entries, and none when [quiet] is set. *)
Theorem fetchDriveFolderEntries_cap `{NodeRuntime} (folderId : str) (resourceKey : option str)
    (options : DownloadOptions) (w : World) (net : list NetEvent) (html : str) :
  fr_result (fetchText net (folderListingUrl folderId resourceKey)
               (Some (if opt_noCookies options then ∅ else w_cookieFile w)) 5 0)
  = Resolved html →
  let r := fetchDriveFolderEntries folderId resourceKey options w net in
  fo_result r = Resolved (take 50 (pageEntries html)) ∧
  (length (take 50 (pageEntries html)) ≤ 50)%nat ∧
  (opt_quiet options = false → (50 < length (pageEntries html))%nat →
   warnings (fo_trace r) = [folderWarning]) ∧
  ((length (pageEntries html) < 50)%nat → warnings (fo_trace r) = []) ∧
  (opt_quiet options = true → warnings (fo_trace r) = []).
Proof.
  intros Hfetch r. unfold r, fetchDriveFolderEntries. rewrite Hfetch.
  rewrite parseFolderPage_spec. cbv beta iota. cbn [fo_result fo_trace].
  rewrite warnings_app, fetchText_no_warnings, app_nil_l.
  change MAX_FILES_PER_FOLDER with 50%nat.
  split; [done|]. split; [rewrite length_take; lia|]. split; [|split].
  - intros -> Hgt. by rewrite (proj2 (Nat.leb_le 50 _)) by lia.
  - intros Hlt. by rewrite (proj2 (Nat.leb_gt 50 _)) by lia.
  - intros ->. by rewrite andb_false_r.
Qed.

Lemma pageEntries_synthetic_60 :
  @pageEntries exampleRuntime (syntheticPage 60) = syntheticEntry <$> seq 1 60.
Proof. vm_compute. reflexivity. Qed.

Lemma fetchDriveFolderEntries_cap_witness :
  let r := @fetchDriveFolderEntries exampleRuntime "F1" None defaultOptions emptyWorld
             [NetResponse (plainResponse 200 (syntheticPage 60))] in
  let q := @fetchDriveFolderEntries exampleRuntime "F1" None quietOptions emptyWorld
             [NetResponse (plainResponse 200 (syntheticPage 60))] in
  let r3 := @fetchDriveFolderEntries exampleRuntime "F1" None defaultOptions emptyWorld
              [NetResponse (plainResponse 200 (syntheticPage 3))] in
  fo_result r = Resolved (take 50 (@pageEntries exampleRuntime (syntheticPage 60))) ∧
  (length (take 50 (@pageEntries exampleRuntime (syntheticPage 60))) ≤ 50)%nat ∧
  warnings (fo_trace r) = [folderWarning] ∧
  warnings (fo_trace q) = [] ∧
  warnings (fo_trace r3) = [].
Proof.
  assert (fr_result (@fetchText exampleRuntime
                       [NetResponse (plainResponse 200 (syntheticPage 60))]
                       (@folderListingUrl "F1" None)
                       (Some (if opt_noCookies defaultOptions then ∅
                              else w_cookieFile emptyWorld)) 5 0)
          = Resolved (syntheticPage 60)) as Hfetch by (vm_compute; reflexivity).
  destruct (@fetchDriveFolderEntries_cap exampleRuntime "F1" None defaultOptions emptyWorld
              _ _ Hfetch) as (Hres & Hlen & Hwarn & _).
  split; [exact Hres|]. split; [exact Hlen|]. split; [|split].
  - apply Hwarn; [reflexivity|].
    rewrite pageEntries_synthetic_60, length_fmap, length_seq. lia.
  - refine (proj2 (proj2 (proj2 (proj2
              (@fetchDriveFolderEntries_cap exampleRuntime "F1" None quietOptions emptyWorld
                 [NetResponse (plainResponse 200 (syntheticPage 60))] (syntheticPage 60) _))))
              eq_refl).
    vm_compute; reflexivity.
  - refine (proj1 (proj2 (proj2 (proj2
              (@fetchDriveFolderEntries_cap exampleRuntime "F1" None defaultOptions emptyWorld
                 [NetResponse (plainResponse 200 (syntheticPage 3))] (syntheticPage 3) _))))
              _).
    + vm_compute; reflexivity.
    + vm_compute. lia.
Defined.

(** The example of the spec: a page of 60 entries yields the first 50
    of them and one warning. *)
Example fetchDriveFolderEntries_60 :
  let r := @fetchDriveFolderEntries exampleRuntime "F1" None defaultOptions emptyWorld
             [NetResponse (plainResponse 200 (syntheticPage 60))] in
  fo_result r = Resolved (syntheticEntry <$> seq 1 50) ∧
  warnings (fo_trace r) = [folderWarning].
Proof. split; vm_compute; reflexivity. Qed.

(** C6 as the spec states it fails: with [quiet] set, a page of 60
    entries is cut to 50 without any warning. *)
Lemma fetchDriveFolderEntries_quiet_counterexample :
  let r := @fetchDriveFolderEntries exampleRuntime "F1" None quietOptions emptyWorld
             [NetResponse (plainResponse 200 (syntheticPage 60))] in
  length (@pageEntries exampleRuntime (syntheticPage 60)) = 60%nat ∧
  fo_result r = Resolved (syntheticEntry <$> seq 1 50) ∧
  warnings (fo_trace r) = [].
Proof. repeat split; vm_compute; reflexivity. Qed.

(** A page of exactly 50 entries: all of them are returned, and the
    warning about more than 50 files is printed all the same. *)
Example fetchDriveFolderEntries_50 :
  let r := @fetchDriveFolderEntries exampleRuntime "F1" None defaultOptions emptyWorld
             [NetResponse (plainResponse 200 (syntheticPage 50))] in
  fo_result r = Resolved (syntheticEntry <$> seq 1 50) ∧
  warnings (fo_trace r) = [folderWarning].
Proof. split; vm_compute; reflexivity. Qed.

(** * Further properties *)

(** ** Trimming *)

Lemma dropWhile_Forall (P : ascii → Prop) p s : Forall P s → Forall P (JS.dropWhile p s).
Proof.
  intros Hs. rewrite <-(takeWhile_dropWhile p s) in Hs. by apply Forall_app in Hs as [_ ?].
Qed.

Lemma dropWhile_last p s c : last (JS.dropWhile p s) = Some c → last s = Some c.
Proof.
  intros Hl. rewrite <-(takeWhile_dropWhile p s), last_app. by rewrite Hl.
Qed.

Lemma dropWhile_id p s : (∀ c, head s = Some c → p c = false) → JS.dropWhile p s = s.
Proof. destruct s as [|a s]; simpl; [done|]. intros Hh. by rewrite (Hh a). Qed.

Lemma dropWhile_all p s : Forall (λ c, p c = true) s → JS.dropWhile p s = [].
Proof. induction 1 as [|a s Ha _ IH]; simpl; [done|]. by rewrite Ha. Qed.

Lemma trim_Forall (P : ascii → Prop) s : Forall P s → Forall P (JS.trim s).
Proof.
  intros Hs. unfold JS.trim.
  apply Forall_reverse, dropWhile_Forall, Forall_reverse, dropWhile_Forall, Hs.
Qed.

Lemma trim_trimmed s : trimmed (JS.trim s).
Proof.
  unfold JS.trim. split; intros c.
  - rewrite head_reverse. intros Hl%dropWhile_last. rewrite last_reverse in Hl.
    destruct (JS.dropWhile JS.isSpace s) as [|a d] eqn:E; [done|].
    injection Hl as <-. by eapply dropWhile_head.
  - rewrite last_reverse.
    destruct (JS.dropWhile JS.isSpace (reverse (JS.dropWhile JS.isSpace s))) as [|a d] eqn:E;
      [done|].
    intros [= <-]. by eapply dropWhile_head.
Qed.

Lemma trim_id s : trimmed s → JS.trim s = s.
Proof.
  intros [Hh Hl]. unfold JS.trim. rewrite (dropWhile_id _ s Hh).
  rewrite dropWhile_id; [by rewrite reverse_involutive|].
  intros c. rewrite head_reverse. apply Hl.
Qed.

Lemma trim_blank s : Forall (λ c, JS.isSpace c = true) s → JS.trim s = [].
Proof. intros Hs. unfold JS.trim. by rewrite (dropWhile_all _ s Hs). Qed.

(** ** sanitizeFileName *)

Lemma replace_safe s :
  Forall (λ c, unsafeChar c = false) ((λ c, if unsafeChar c then "_"%char else c) <$> s).
Proof.
  apply Forall_fmap, Forall_forall. intros c _. simpl.
  destruct (unsafeChar c) eqn:E; [reflexivity | exact E].
Qed.

Lemma replace_id s :
  Forall (λ c, unsafeChar c = false) s →
  (λ c, if unsafeChar c then "_"%char else c) <$> s = s.
Proof. induction 1 as [|a s Ha _ IH]; [done|]. rewrite fmap_cons, Ha. by f_equal. Qed.

Lemma orElse_Some s : JS.orElse (Some s) [] = s.
Proof. by destruct s. Qed.

(** X1. [sanitizeFileName] returns the fallback or a clean name: a
    non-empty string without the characters it replaces (the
    separators, the other reserved characters and the control
    characters) that neither starts nor ends with white space.  A name
    that is clean already is returned as it is; without a name, and for
    a name of blanks only, the fallback is returned. *)
Theorem sanitizeFileName_clean (name : option str) (fallback : str) :
  (sanitizeFileName name fallback = fallback ∨ cleanName (sanitizeFileName name fallback)) ∧
  (∀ s, name = Some s → cleanName s → sanitizeFileName name fallback = s) ∧
  (name = None → sanitizeFileName name fallback = fallback) ∧
  (∀ s, name = Some s → blank s → sanitizeFileName name fallback = fallback).
Proof.
  unfold sanitizeFileName. split; [|split; [|split]].
  - destruct (JS.trim _) as [|a t] eqn:E; [by left | right].
    rewrite <-E. split; [by rewrite E|]. split; [|apply trim_trimmed].
    apply trim_Forall, replace_safe.
  - intros s -> (Hne & Hsafe & Htrim). rewrite orElse_Some, (replace_id s Hsafe).
    rewrite (trim_id s Htrim). by destruct s.
  - by intros ->.
  - intros s -> Hs. rewrite orElse_Some.
    rewrite replace_id by (eapply Forall_impl; [exact Hs | by intros c [_ ?]]).
    rewrite trim_blank; [done|]. eapply Forall_impl; [exact Hs | by intros c [? _]].
Qed.

Lemma sanitizeFileName_clean_witness :
  (sanitizeFileName (Some (lit " a/b:c.txt ")) "download" = lit "download"
   ∨ cleanName (sanitizeFileName (Some (lit " a/b:c.txt ")) "download")) ∧
  sanitizeFileName (Some (lit "report (1).pdf")) "download" = lit "report (1).pdf" ∧
  sanitizeFileName (Some (lit "  ")) "download" = lit "download".
Proof.
  split; [|split].
  - apply (proj1 (sanitizeFileName_clean (Some (lit " a/b:c.txt ")) "download")).
  - apply (proj1 (proj2 (sanitizeFileName_clean (Some (lit "report (1).pdf")) "download"))
             (lit "report (1).pdf") eq_refl).
    split; [done|]. split; [repeat constructor|]. split; intros c [= <-]; reflexivity.
  - apply (proj2 (proj2 (proj2 (sanitizeFileName_clean (Some (lit "  ")) "download")))
             (lit "  ") eq_refl).
    repeat constructor.
Defined.

Example sanitizeFileName_separators :
  sanitizeFileName (Some (lit " ../../etc/passwd ")) "download" = lit ".._.._etc_passwd".
Proof. reflexivity. Qed.

(** ** Keywords and runs *)

Lemma sameText_length ci l kw : sameText ci l kw → length kw = length l.
Proof. intros Hs. symmetry. by eapply Forall2_length. Qed.

Lemma litMatch_sameText ci l s s' :
  litMatch ci l s = Some s' ↔ ∃ kw, s = kw ++ s' ∧ sameText ci l kw.
Proof.
  unfold sameText. revert s. induction l as [|a l IH]; intros s; simpl.
  - split.
    + intros [= ->]. exists []. split; [done | constructor].
    + intros (kw & -> & Hkw). by inversion Hkw.
  - destruct s as [|b s].
    + split; [done|]. intros (kw & Heq & Hkw). inversion Hkw; subst. done.
    + destruct (chrEq ci a b) eqn:E.
      * rewrite IH. split.
        -- intros (kw & -> & Hkw). exists (b :: kw). split; [done | by constructor].
        -- intros (kw & Heq & Hkw). inversion Hkw as [|? c ? kw' Hc Hkw']; subst.
           injection Heq as -> ->. eauto.
      * split; [done|]. intros (kw & Heq & Hkw).
        inversion Hkw as [|? c ? kw' Hc Hkw']; subst. injection Heq as -> ->. congruence.
Qed.

Lemma Matches_LitAny_inv ci l s s' cs :
  Matches (Lit ci l) s s' cs → (∃ kw, s = kw ++ s' ∧ sameText ci l kw) ∧ cs = [].
Proof. inversion 1; subst. split; [by apply litMatch_sameText | done]. Qed.

Lemma M_LitAny ci l kw s' : sameText ci l kw → Matches (Lit ci l) (kw ++ s') s' [].
Proof. intros Hkw. constructor. apply litMatch_sameText. eauto. Qed.

Lemma takeWhile_app_all p t s :
  Forall (λ c, p c = true) t → JS.takeWhile p (t ++ s) = t ++ JS.takeWhile p s.
Proof. induction 1 as [|a t Ha _ IH]; simpl; [done|]. by rewrite Ha, IH. Qed.

(** A literal of no characters in front of a pattern changes nothing. *)
Lemma searchFrom_nil_lit ci r before s :
  searchFrom (Lit ci [] ⋅ r) before s = searchFrom r before s.
Proof. revert before. induction s as [|a s IH]; intros before; simpl; [done|]. by rewrite IH. Qed.

Section KeywordRun.
Variables (ci : bool) (l : str) (cls : ascii → bool) (lo : nat).

Local Abbreviation kwRe := (Lit ci l ⋅ Grp (Rep true lo cls))%re.
Local Abbreviation At := (RunAt ci l cls lo).

Lemma kwRe_OccursAt s pre : OccursAt kwRe s pre ↔ ∃ g, At s pre g.
Proof.
  unfold OccursAt, RunAt. split.
  - intros (q & s' & cs & -> & (s1 & c1 & c2 & [(kw & -> & Hkw) ->]%Matches_LitAny_inv
            & (t & -> & Hlen & Ht & ->)%Matches_GrpRep_inv & _)%Matches_Seq_inv).
    exists (JS.takeWhile cls (t ++ s')), kw, (JS.dropWhile cls (t ++ s')).
    rewrite takeWhile_dropWhile. split_and!; [done | done | | apply takeWhile_all |].
    + rewrite takeWhile_app_all, length_app by done. lia.
    + destruct (JS.dropWhile cls (t ++ s')) as [|c r] eqn:E; [done|]. simpl.
      by eapply dropWhile_head.
  - intros (g & kw & rest & -> & Hkw & Hlo & Hg & _).
    exists (kw ++ g ++ rest), rest, ([] ++ [g]). split; [done|].
    eapply M_Seq; [by apply M_LitAny|]. by apply M_GrpRep.
Qed.

Lemma search_kwRe s m : search kwRe s = Some m → Leftmost (At s) (group m 1).
Proof.
  intros (mid & Heq & _ & Hhere & Hleft)%search_sound.
  unfold matchHere in Hhere.
  apply rmatch_seq_sound in Hhere as (s1 & c1 & [(kw & Hs1 & Hkw) ->]%Matches_LitAny_inv & Hg).
  apply greedy_tail in Hg as (Hcs & Hafter & Hlen).
  unfold group. rewrite Hcs. simpl.
  exists (m_before m). split.
  - exists kw, (m_after m). rewrite Heq, Hs1, Hafter, takeWhile_dropWhile.
    split_and!; [done | done | done | apply takeWhile_all |].
    destruct (JS.dropWhile cls s1) as [|c r] eqn:E; [done|]. simpl.
    by eapply dropWhile_head.
  - intros pre' g' Hat. apply Nat.nlt_ge. intros Hlt.
    apply (Hleft pre' Hlt), kwRe_OccursAt. eauto.
Qed.

Lemma Leftmost_RunAt_unique s g1 g2 : Leftmost (At s) g1 → Leftmost (At s) g2 → g1 = g2.
Proof.
  intros (p1 & H1 & L1) (p2 & H2 & L2).
  pose proof (L1 _ _ H2). pose proof (L2 _ _ H1).
  destruct H1 as (k1 & r1 & E1 & K1 & _ & T1 & M1), H2 as (k2 & r2 & E2 & K2 & _ & T2 & M2).
  apply sameText_length in K1, K2.
  rewrite E1 in E2. apply app_same_length_l in E2 as [_ E2]; [|lia].
  apply app_same_length_l in E2 as [_ E2]; [|lia].
  by apply (run_ends cls) in E2 as [? _].
Qed.

Lemma search_kwRe_Some s g :
  Leftmost (At s) g → ∃ m, search kwRe s = Some m ∧ group m 1 = g.
Proof.
  intros Hl. destruct (search kwRe s) as [m|] eqn:E.
  - exists m. split; [done|]. apply search_kwRe in E. by eapply Leftmost_RunAt_unique.
  - exfalso. destruct Hl as (pre & Hat & _).
    apply (proj1 (search_None _ _) E pre), kwRe_OccursAt. eauto.
Qed.

Lemma search_kwRe_None s : (∀ pre g, ¬ At s pre g) ↔ search kwRe s = None.
Proof.
  rewrite search_None. split.
  - intros Hno p [g Hat]%kwRe_OccursAt. by eapply Hno.
  - intros Hno pre g Hat. apply (Hno pre), kwRe_OccursAt. eauto.
Qed.

End KeywordRun.

(** ** extractFilenameFromDisposition *)

Lemma quotedNameRe_Matches q s' cs :
  Matches quotedNameRe q s' cs ↔
  ∃ kw g, q = kw ++ g ++ [dquote] ++ s' ∧ sameText true ("filename=" ++ [dquote]) kw ∧
          g ≠ [] ∧ Forall (λ c, notChr dquote c = true) g ∧ cs = [g].
Proof.
  unfold quotedNameRe. split.
  - intros (s1 & c1 & c2 & [(kw & -> & Hkw) ->]%Matches_LitAny_inv
            & (s2 & c3 & c4 & (g & -> & Hlen & Hg & ->)%Matches_GrpRep_inv
               & [(kw2 & -> & Hkw2) ->]%Matches_LitAny_inv & ->)%Matches_Seq_inv
            & ->)%Matches_Seq_inv.
    exists kw, g. split_and!; [|done| |done|done].
    + do 2 f_equal. inversion Hkw2 as [|a b ? kw' Hab Hnil]; subst. inversion Hnil; subst.
      unfold chrEq in Hab. apply chr_true in Hab. simpl. f_equal.
      revert Hab. unfold dquote.
      destruct b as [[] [] [] [] [] [] [] []]; vm_compute; congruence.
    + intros ->. simpl in Hlen. lia.
  - intros (kw & g & -> & Hkw & Hne & Hg & ->).
    eapply (M_Seq _ _ _ _ _ [] [g]); [by apply M_LitAny|].
    eapply (M_Seq _ _ _ _ _ [g] []).
    + apply M_GrpRep; [|done]. destruct g; [done | simpl; lia].
    + apply (M_LitAny true [dquote] [dquote]). repeat constructor.
Qed.

Lemma quotedNameRe_OccursAt d pre :
  OccursAt quotedNameRe d pre ↔ ∃ g, QuotedNameAt d pre g.
Proof.
  unfold OccursAt, QuotedNameAt. split.
  - intros (q & s' & cs & -> & (kw & g & -> & Hkw & Hne & Hg & _)%quotedNameRe_Matches). eauto 10.
  - intros (g & kw & rest & -> & Hkw & Hne & Hg).
    eexists _, rest, [g]. split; [done|]. apply quotedNameRe_Matches. eauto 10.
Qed.

Lemma search_quotedName d m :
  search quotedNameRe d = Some m → Leftmost (QuotedNameAt d) (group m 1).
Proof.
  intros (mid & Heq & (kw & g & Hmid & Hkw & Hne & Hg & Hcs)%quotedNameRe_Matches
          & _ & Hleft)%search_sound.
  unfold group. rewrite Hcs. simpl. exists (m_before m). split.
  - exists kw, (m_after m). by rewrite Heq, Hmid.
  - intros pre' g' Hat. apply Nat.nlt_ge. intros Hlt.
    apply (Hleft pre' Hlt), quotedNameRe_OccursAt. eauto.
Qed.

Lemma Leftmost_QuotedNameAt_unique d g1 g2 :
  Leftmost (QuotedNameAt d) g1 → Leftmost (QuotedNameAt d) g2 → g1 = g2.
Proof.
  intros (p1 & H1 & L1) (p2 & H2 & L2).
  pose proof (L1 _ _ H2). pose proof (L2 _ _ H1).
  destruct H1 as (k1 & r1 & E1 & K1 & _ & T1), H2 as (k2 & r2 & E2 & K2 & _ & T2).
  apply sameText_length in K1, K2.
  rewrite E1 in E2. apply app_same_length_l in E2 as [_ E2]; [|lia].
  apply app_same_length_l in E2 as [_ E2]; [|lia].
  by apply (run_delimited (notChr dquote)) in E2 as [? _].
Qed.

Lemma search_quotedName_Some d g :
  Leftmost (QuotedNameAt d) g → ∃ m, search quotedNameRe d = Some m ∧ group m 1 = g.
Proof.
  intros Hl. destruct (search quotedNameRe d) as [m|] eqn:E.
  - exists m. split; [done|]. apply search_quotedName in E.
    by eapply Leftmost_QuotedNameAt_unique.
  - exfalso. destruct Hl as (pre & Hat & _).
    apply (proj1 (search_None _ _) E pre), quotedNameRe_OccursAt. eauto.
Qed.

Lemma search_quotedName_None d :
  (∀ pre g, ¬ QuotedNameAt d pre g) ↔ search quotedNameRe d = None.
Proof.
  rewrite search_None. split.
  - intros Hno p [g Hat]%quotedNameRe_OccursAt. by eapply Hno.
  - intros Hno pre g Hat. apply (Hno pre), quotedNameRe_OccursAt. eauto.
Qed.

(** X2. [extractFilenameFromDisposition] prefers the encoded form:
    when [filename*=UTF-8''<name>] occurs and the name of its leftmost
    occurrence can be decoded, the decoded name is returned, whatever
    else the header holds.  Otherwise (the form is absent, or
    [decodeURIComponent] throws) the quoted form [filename="<name>"]
    decides, and its name is returned as it stands; without a quoted
    form the bare form [filename=<name>] decides, and its name is
    returned trimmed; without any of them there is no name. *)
Theorem extractFilenameFromDisposition_priority `{NodeRuntime} (d : str) :
  (∀ g name, Leftmost (UtfNameAt d) g → decodeURIComponent g = Some name →
     extractFilenameFromDisposition d = Some name) ∧
  ((∀ g, Leftmost (UtfNameAt d) g → decodeURIComponent g = None) →
   (∀ g, Leftmost (QuotedNameAt d) g → extractFilenameFromDisposition d = Some g) ∧
   ((∀ pre g, ¬ QuotedNameAt d pre g) →
    (∀ g, Leftmost (BareNameAt d) g → extractFilenameFromDisposition d = Some (JS.trim g)) ∧
    ((∀ pre g, ¬ BareNameAt d pre g) → extractFilenameFromDisposition d = None))).
Proof.
  unfold extractFilenameFromDisposition, utfNameRe, bareNameRe. split.
  - intros g name (m & -> & <-)%search_kwRe_Some Hdec. by rewrite Hdec.
  - intros Hutf.
    assert (∀ regular,
              match search (Lit true "filename*=UTF-8''" ⋅ Grp (Rep true 1 (notChr ";"))) d with
              | Some m => match decodeURIComponent (group m 1) with
                          | Some name => Some name
                          | None => regular
                          end
              | None => regular
              end = regular) as ->.
    { intros regular.
      destruct (search (Lit true "filename*=UTF-8''" ⋅ Grp (Rep true 1 (notChr ";"))) d)
        as [m|] eqn:E; [|done].
      apply search_kwRe in E. by rewrite (Hutf _ E). }
    split.
    + intros g (m & -> & <-)%search_quotedName_Some. done.
    + intros Hq%search_quotedName_None. rewrite Hq. split.
      * intros g (m & -> & <-)%search_kwRe_Some. done.
      * intros Hb%search_kwRe_None. by rewrite Hb.
Qed.

Lemma search_kwRe_group ci l cls lo s m g :
  search (Lit ci l ⋅ Grp (Rep true lo cls)) s = Some m → group m 1 = g →
  Leftmost (RunAt ci l cls lo s) g.
Proof. intros Hm <-. by apply search_kwRe. Qed.

Lemma search_quotedName_group d m g :
  search quotedNameRe d = Some m → group m 1 = g → Leftmost (QuotedNameAt d) g.
Proof. intros Hm <-. by apply search_quotedName. Qed.

Lemma Leftmost_first {B} (P : str → B → Prop) (x : B) : P [] x → Leftmost P x.
Proof. intros Hx. exists []. split; [done|]. intros; simpl; lia. Qed.

Lemma extractFilenameFromDisposition_priority_witness :
  @extractFilenameFromDisposition exampleRuntime bothHeader = Some (lit "new.pdf") ∧
  @extractFilenameFromDisposition exampleRuntime quotedHeader = Some (lit "report.pdf") ∧
  @extractFilenameFromDisposition exampleRuntime bareHeader = Some (JS.trim " notes.txt ") ∧
  @extractFilenameFromDisposition exampleRuntime "inline" = None.
Proof.
  assert (∀ d, search utfNameRe d = None →
               ∀ g, Leftmost (UtfNameAt d) g → @decodeURIComponent exampleRuntime g = None)
    as Hnone.
  { intros d Hn g (pre & Hat & _). by apply (proj2 (search_kwRe_None _ _ _ _ d) Hn) in Hat. }
  split; [|split; [|split]].
  - apply (proj1 (@extractFilenameFromDisposition_priority exampleRuntime bothHeader)
             (lit "new.pdf")); [|reflexivity].
    eapply search_kwRe_group; reflexivity.
  - apply (proj1 (proj2 (@extractFilenameFromDisposition_priority exampleRuntime quotedHeader)
                    (Hnone quotedHeader eq_refl))).
    eapply search_quotedName_group; reflexivity.
  - apply (proj1 (proj2 (proj2 (@extractFilenameFromDisposition_priority exampleRuntime
                                  bareHeader) (Hnone bareHeader eq_refl))
                    (proj2 (search_quotedName_None bareHeader) eq_refl))).
    eapply search_kwRe_group; reflexivity.
  - apply (proj2 (proj2 (proj2 (@extractFilenameFromDisposition_priority exampleRuntime
                                  "inline") (Hnone "inline" eq_refl))
                    (proj2 (search_quotedName_None "inline") eq_refl))).
    apply (proj2 (search_kwRe_None true "filename=" (notChr ";") 1 "inline")). reflexivity.
Defined.

(** ** parseGoogleDriveUrl: the ids it returns *)

Lemma search_fuzzyRe s : search fuzzyRe s = search (Lit false [] ⋅ Grp (Rep true 25 idChar)) s.
Proof. unfold search. symmetry. apply searchFrom_nil_lit. Qed.

Lemma search_fuzzyRe_run s m : search fuzzyRe s = Some m → Leftmost (IdRunAt s) (group m 1).
Proof. rewrite search_fuzzyRe. apply search_kwRe. Qed.

Lemma IdRunAt_length s pre g : IdRunAt s pre g → (25 ≤ length g ≤ length s)%nat.
Proof.
  intros (kw & rest & -> & _ & Hlen & _). rewrite !length_app. lia.
Qed.

Lemma search_idRe_nonempty l path m :
  search (Lit false l ⋅ Grp (Rep true 1 idChar)) path = Some m → group m 1 ≠ [].
Proof. intros (pre & (rest & _ & [Hne _] & _) & _)%search_idRe. done. Qed.

Lemma truthy_default o : JS.truthy o = true → default [] o ≠ [].
Proof. by destruct o as [[|a s]|]. Qed.

Lemma parseStructured_nonempty `{NodeRuntime} url urlObj p :
  parseStructured url urlObj = Some p → pu_id p ≠ [] ∧ pu_resourceKey p ≠ Some [].
Proof.
  assert (orUndefined (searchParams_get "resourcekey" (searchParams urlObj)) ≠ Some []) as Hkey.
  { by destruct (searchParams_get _ _) as [[|a s]|]. }
  unfold parseStructured.
  destruct (if JS.includes (pathname urlObj) "/file/d/" then _ else _) as [m|] eqn:E1.
  { intros [= <-]. cbn [pu_id pu_resourceKey]. split; [|done].
    destruct (JS.includes _ _); [|done]. by eapply search_idRe_nonempty. }
  destruct (if JS.includes (pathname urlObj) "/drive/folders/" then _ else _) as [m|] eqn:E2.
  { intros [= <-]. cbn [pu_id pu_resourceKey]. split; [|done].
    destruct (JS.includes (pathname urlObj) "/drive/folders/"); [|done].
    by eapply search_idRe_nonempty. }
  destruct (if JS.includes (hostname urlObj) "docs.google.com" then _ else _) as [m|] eqn:E3.
  { intros [= <-]. cbn [pu_id pu_resourceKey]. split; [|done].
    destruct (JS.includes (hostname urlObj) "docs.google.com"); [|done].
    apply search_docRe in E3 as (pre & (rest & _ & _ & [Hne _] & _) & _). done. }
  destruct (JS.truthy (searchParams_get "id" (searchParams urlObj))) eqn:Hid.
  - cbn [andb]. destruct (JS.includes (pathname urlObj) "/uc");
      intros [= <-]; cbn [pu_id pu_resourceKey]; (split; [by apply truthy_default | done]).
  - cbn [andb]. destruct (search fuzzyRe url) as [m|] eqn:E4; [|done].
    destruct (JS.includes url "drive.google.com"); [|done].
    intros [= <-]. cbn [pu_id pu_resourceKey]. split; [|done].
    apply search_fuzzyRe_run in E4 as (pre & Hat%IdRunAt_length & _).
    intros E. rewrite E in Hat. simpl in Hat. lia.
Qed.

Lemma lastResort_nonempty url p :
  lastResort url = Some p → pu_id p ≠ [] ∧ pu_resourceKey p ≠ Some [].
Proof.
  unfold lastResort. destruct (search fuzzyRe url) as [m|] eqn:E; [|done].
  intros [= <-]. simpl. split; [|done].
  apply search_fuzzyRe_run in E as (pre & Hat%IdRunAt_length & _).
  intros E. rewrite E in Hat. simpl in Hat. lia.
Qed.

Lemma parseGoogleDriveUrl_nonempty `{NodeRuntime} url p :
  parseGoogleDriveUrl url = Some p → pu_id p ≠ [] ∧ pu_resourceKey p ≠ Some [].
Proof.
  unfold parseGoogleDriveUrl. destruct (newURL url) as [urlObj|]; [|apply lastResort_nonempty].
  destruct (parseStructured url urlObj) as [q|] eqn:E; [|apply lastResort_nonempty].
  intros [= <-]. by eapply parseStructured_nonempty.
Qed.

(** X3. The id that [parseGoogleDriveUrl] returns is never empty, and
    neither is the access key when there is one.  So [extractFileId]
    returns the id of every reference that can be parsed, whatever its
    kind, and [extractFolderId] returns an id exactly for the references
    of kind folder. *)
Theorem extractFileId_parsed `{NodeRuntime} (url : str) :
  (∀ p, parseGoogleDriveUrl url = Some p → pu_id p ≠ [] ∧ pu_resourceKey p ≠ Some []) ∧
  extractFileId url = pu_id <$> parseGoogleDriveUrl url ∧
  (∀ id, extractFolderId url = Some id ↔
         ∃ key, parseGoogleDriveUrl url = Some (mkParsedUrl id TFolder key)).
Proof.
  split; [|split].
  - intros p. apply parseGoogleDriveUrl_nonempty.
  - unfold extractFileId. destruct (parseGoogleDriveUrl url) as [p|] eqn:E; [|done].
    apply parseGoogleDriveUrl_nonempty in E as [Hid _]. simpl. by destruct (pu_id p).
  - intros id. unfold extractFolderId.
    destruct (parseGoogleDriveUrl url) as [[id' ty key]|]; simpl.
    + destruct ty; split; try done.
      all: try (intros [key' [=]]).
      * intros [= ->]. eauto.
      * subst. done.
    + split; [done | by intros [? ?]].
Qed.

Lemma extractFileId_parsed_witness :
  (lit "XYZ987" ≠ [] ∧ (None : option str) ≠ Some []) ∧
  @extractFileId exampleRuntime folderUrl = Some (lit "XYZ987") ∧
  @extractFolderId exampleRuntime folderUrl = Some (lit "XYZ987") ∧
  @extractFolderId exampleRuntime fileUrl = None.
Proof.
  split; [|split; [|split]].
  - apply (proj1 (@extractFileId_parsed exampleRuntime folderUrl)
             (mkParsedUrl "XYZ987" TFolder None)). reflexivity.
  - rewrite (proj1 (proj2 (@extractFileId_parsed exampleRuntime folderUrl))). reflexivity.
  - apply (proj2 (proj2 (@extractFileId_parsed exampleRuntime folderUrl))). by exists None.
  - destruct (@extractFolderId exampleRuntime fileUrl) as [id|] eqn:E; [|done].
    apply (proj2 (proj2 (@extractFileId_parsed exampleRuntime fileUrl))) in E as [key E].
    vm_compute in E. discriminate.
Defined.

(** ** parseGoogleDriveUrl: references that are not URLs *)

Lemma lastResort_run url g :
  Leftmost (IdRunAt url) g → lastResort url = Some (mkParsedUrl g TFile None).
Proof.
  intros Hl. unfold lastResort. rewrite search_fuzzyRe.
  apply search_kwRe_Some in Hl as (m & -> & <-). done.
Qed.

Lemma lastResort_None url : (∀ pre g, ¬ IdRunAt url pre g) → lastResort url = None.
Proof.
  intros Hno. unfold lastResort. rewrite search_fuzzyRe.
  by rewrite (proj1 (search_kwRe_None _ _ _ _ _) Hno).
Qed.

(** X4. A reference that holds 25 id characters in a row is always
    resolved.  For a reference that [new URL] refuses (a bare id, for
    one) the id is the leftmost run of at least 25 id characters, taken
    to its end, the kind is file and there is no access key; a string
    of at least 25 id characters is its own id; a string without such a
    run, and so every string of fewer than 25 characters, is not
    resolved. *)
Theorem parseGoogleDriveUrl_bare_id `{NodeRuntime} (url : str) :
  ((∃ pre g, IdRunAt url pre g) → is_Some (parseGoogleDriveUrl url)) ∧
  (newURL url = None →
   (∀ g, Leftmost (IdRunAt url) g →
         parseGoogleDriveUrl url = Some (mkParsedUrl g TFile None)) ∧
   (Forall (λ c, idChar c = true) url → (25 ≤ length url)%nat →
    parseGoogleDriveUrl url = Some (mkParsedUrl url TFile None)) ∧
   ((∀ pre g, ¬ IdRunAt url pre g) → parseGoogleDriveUrl url = None) ∧
   ((length url < 25)%nat → parseGoogleDriveUrl url = None)).
Proof.
  split.
  - intros (pre & g & Hat).
    assert (is_Some (lastResort url)) as Hlast.
    { unfold lastResort. rewrite search_fuzzyRe.
      destruct (search_complete (Lit false [] ⋅ Grp (Rep true 25 idChar)) url pre) as [m ->];
        [|eauto]. apply kwRe_OccursAt. eauto. }
    unfold parseGoogleDriveUrl. destruct (newURL url) as [u|]; [|done].
    destruct (parseStructured url u); eauto.
  - intros Hurl. unfold parseGoogleDriveUrl. rewrite Hurl. split_and!.
    + apply lastResort_run.
    + intros Hid Hlen. apply lastResort_run, Leftmost_first.
      exists [], []. rewrite !app_nil_r. split_and!; [done | constructor | done | done | done].
    + apply lastResort_None.
    + intros Hlen. apply lastResort_None. intros pre g Hat%IdRunAt_length. lia.
Qed.

Lemma parseGoogleDriveUrl_bare_id_witness :
  is_Some (@parseGoogleDriveUrl exampleRuntime ("id: " ++ bareId ++ "!")) ∧
  @parseGoogleDriveUrl exampleRuntime ("id: " ++ bareId ++ "!")
    = Some (mkParsedUrl bareId TFile None) ∧
  @parseGoogleDriveUrl exampleRuntime bareId = Some (mkParsedUrl bareId TFile None) ∧
  @parseGoogleDriveUrl exampleRuntime shortId = None.
Proof.
  assert (IdRunAt ("id: " ++ bareId ++ "!") "id: " bareId) as Hat.
  { exists [], (lit "!"). split_and!; [done | constructor | simpl; lia | | done].
    repeat constructor. }
  split; [|split; [|split]].
  - apply (proj1 (@parseGoogleDriveUrl_bare_id exampleRuntime ("id: " ++ bareId ++ "!"))).
    eauto.
  - apply (proj1 (proj2 (@parseGoogleDriveUrl_bare_id exampleRuntime ("id: " ++ bareId ++ "!"))
                    eq_refl)).
    apply search_fuzzyRe_run
      with (m := mkMatch "id: " [bareId] "!"). reflexivity.
  - apply (proj1 (proj2 (proj2 (@parseGoogleDriveUrl_bare_id exampleRuntime bareId) eq_refl))).
    + repeat constructor.
    + simpl. lia.
  - apply (proj2 (proj2 (proj2 (proj2 (@parseGoogleDriveUrl_bare_id exampleRuntime shortId)
                                  eq_refl)))).
    simpl. lia.
Defined.

(** ** buildDownloadUrl *)

Lemma searchParams_get_set name value ps :
  searchParams_get name (searchParams_set name value ps) = Some value.
Proof.
  induction ps as [|[k v] ps IH]; simpl.
  - by rewrite bool_decide_eq_true_2.
  - case_bool_decide as Hk; simpl.
    + by rewrite bool_decide_eq_true_2.
    + by rewrite bool_decide_eq_false_2.
Qed.

Lemma searchParams_get_filter name other ps :
  name ≠ other →
  searchParams_get name (filter (λ p : str * str, p.1 ≠ other) ps) = searchParams_get name ps.
Proof.
  intros Hne. induction ps as [|[k v] ps IH]; simpl; [done|].
  rewrite filter_cons. simpl. destruct (decide (k ≠ other)) as [Hk | Hk%dec_stable].
  - simpl. by rewrite IH.
  - subst k. by rewrite bool_decide_eq_false_2.
Qed.

Lemma searchParams_get_set_ne name other value ps :
  name ≠ other →
  searchParams_get name (searchParams_set other value ps) = searchParams_get name ps.
Proof.
  intros Hne. induction ps as [|[k v] ps IH]; simpl.
  - by rewrite bool_decide_eq_false_2.
  - case_bool_decide as Hk; simpl.
    + subst k. rewrite !bool_decide_eq_false_2 by done. by apply searchParams_get_filter.
    + case_bool_decide; [done | apply IH].
Qed.

Lemma buildDownloadUrl_params fileId resourceKey format :
  searchParams_get "id" (searchParams (buildDownloadUrl fileId resourceKey format))
  = Some fileId ∧
  orUndefined (searchParams_get "resourcekey"
                 (searchParams (buildDownloadUrl fileId resourceKey format)))
  = orUndefined resourceKey ∧
  searchParams_get "format" (searchParams (buildDownloadUrl fileId resourceKey format))
  = orUndefined format ∧
  searchParams_get "export" (searchParams (buildDownloadUrl fileId resourceKey format))
  = Some (lit "download").
Proof.
  unfold buildDownloadUrl. cbn [searchParams].
  destruct resourceKey as [[|a k]|], format as [[|b f]|]; cbn [JS.truthy JS.nonEmpty default];
    rewrite ?searchParams_get_set, ?searchParams_get_set_ne by done; done.
Qed.

(** X5. The URL that [buildDownloadUrl] builds is read back by
    [parseGoogleDriveUrl] as the file it was built for: the same id,
    the kind file, and the access key when one was given (an empty key
    counts as none), with or without an export format.  ([new URL]
    reads the string of a URL object back as that object.) *)
Theorem buildDownloadUrl_parsed `{NodeRuntime} (fileId : str) (resourceKey format : option str) :
  fileId ≠ [] →
  newURL (urlToString (buildDownloadUrl fileId resourceKey format))
  = Some (buildDownloadUrl fileId resourceKey format) →
  parseGoogleDriveUrl (urlToString (buildDownloadUrl fileId resourceKey format))
  = Some (mkParsedUrl fileId TFile (orUndefined resourceKey)) ∧
  extractFileId (urlToString (buildDownloadUrl fileId resourceKey format)) = Some fileId ∧
  extractFolderId (urlToString (buildDownloadUrl fileId resourceKey format)) = None.
Proof.
  intros Hne Hurl.
  assert (parseGoogleDriveUrl (urlToString (buildDownloadUrl fileId resourceKey format))
          = Some (mkParsedUrl fileId TFile (orUndefined resourceKey))) as Hp.
  { unfold parseGoogleDriveUrl. rewrite Hurl. unfold parseStructured.
    destruct (buildDownloadUrl_params fileId resourceKey format) as (-> & -> & _).
    replace (pathname (buildDownloadUrl fileId resourceKey format)) with (lit "/uc")
      by reflexivity.
    replace (hostname (buildDownloadUrl fileId resourceKey format))
      with (lit "drive.google.com") by reflexivity.
    replace (JS.includes (lit "/uc") "/file/d/") with false by reflexivity.
    replace (JS.includes (lit "/uc") "/drive/folders/") with false by reflexivity.
    replace (JS.includes (lit "drive.google.com") "docs.google.com") with false by reflexivity.
    replace (JS.includes (lit "/uc") "/uc") with true by reflexivity.
    cbn [JS.truthy default]. by rewrite (proj2 (nonEmpty_true fileId) Hne). }
  split; [exact Hp|]. unfold extractFileId, extractFolderId. rewrite Hp. simpl.
  by destruct fileId.
Qed.

Lemma buildDownloadUrl_parsed_witness :
  @parseGoogleDriveUrl exampleRuntime
    (@urlToString exampleRuntime (buildDownloadUrl "FILE1" (Some (lit "0-k")) (Some (lit "pdf"))))
  = Some (mkParsedUrl "FILE1" TFile (orUndefined (Some (lit "0-k")))) ∧
  @extractFileId exampleRuntime
    (@urlToString exampleRuntime (buildDownloadUrl "FILE1" (Some (lit "0-k")) (Some (lit "pdf"))))
  = Some (lit "FILE1") ∧
  @extractFolderId exampleRuntime
    (@urlToString exampleRuntime (buildDownloadUrl "FILE1" (Some (lit "0-k")) (Some (lit "pdf"))))
  = None.
Proof.
  apply (@buildDownloadUrl_parsed exampleRuntime "FILE1" (Some (lit "0-k")) (Some (lit "pdf")));
    [done | reflexivity].
Defined.

Example buildDownloadUrl_string :
  @urlToString exampleRuntime (buildDownloadUrl "FILE1" (Some (lit "0-k")) (Some (lit "pdf")))
  = lit "https://drive.google.com/uc?export=download&id=FILE1&resourcekey=0-k&format=pdf".
Proof. reflexivity. Qed.

(** ** cookies.ts: the Cookie header *)

Lemma join_includes sep parts x :
  x ∈ parts → ∃ p t, JS.join sep parts = p ++ x ++ t.
Proof.
  induction parts as [|y parts IH]; [by intros ?%elem_of_nil|].
  intros [-> | Hx]%elem_of_cons.
  - destruct parts as [|z parts]; simpl.
    + exists [], []. by rewrite app_nil_r.
    + by exists [], (sep ++ JS.join sep (z :: parts)).
  - destruct (IH Hx) as (p & t & Heq). destruct parts as [|z parts]; [by apply elem_of_nil in Hx|].
    exists (y ++ sep ++ p), t. change (JS.join sep (y :: z :: parts))
      with (y ++ sep ++ JS.join sep (z :: parts)). rewrite Heq. by rewrite <-!app_assoc.
Qed.

Lemma join_nonempty sep parts : Exists (λ p, p ≠ []) parts → JS.join sep parts ≠ [].
Proof.
  induction 1 as [y parts Hy | y parts Hex IH].
  - destruct parts; simpl; [done|]. destruct y; done.
  - destruct parts as [|z parts]; [by apply Exists_nil in Hex|].
    change (JS.join sep (y :: z :: parts)) with (y ++ sep ++ JS.join sep (z :: parts)).
    intros [_ [_ ?]%app_eq_nil]%app_eq_nil. done.
Qed.

Lemma cookieHeader_Some jar h :
  cookieHeader jar = Some h →
  h = JS.join "; " ((λ kv : str * str, kv.1 ++ "=" ++ kv.2) <$> map_to_list jar) ∧
  map_to_list jar ≠ [].
Proof.
  unfold cookieHeader. destruct (map_to_list jar) as [|kv l]; [done|].
  intros [= <-]. done.
Qed.

(** X6. An empty jar gives no Cookie header, and only an empty jar
    does; the header of a jar that is not empty is a non-empty string
    in which every cookie of the jar stands as [name=value]; for a jar
    of one cookie it is that pair. *)
Theorem cookieHeader_entries (jar : CookieJar) :
  (cookieHeader jar = None ↔ jar = ∅) ∧
  (∀ h, cookieHeader jar = Some h →
        h ≠ [] ∧ ∀ k v, jar !! k = Some v → JS.includes h (k ++ "=" ++ v) = true) ∧
  (∀ k v, cookieHeader ({[ k := v ]} : CookieJar) = Some (k ++ "=" ++ v)).
Proof.
  unfold cookieHeader. split; [|split].
  - destruct (map_to_list jar) as [|kv l] eqn:E.
    + apply map_to_list_empty_iff in E. done.
    + split; [done|]. intros ->. by rewrite map_to_list_empty in E.
  - intros h [-> Hne]%cookieHeader_Some. split.
    + apply join_nonempty. destruct (map_to_list jar) as [|kv l]; [done|].
      rewrite fmap_cons. constructor. by destruct (kv.1).
    + intros k v Hkv. apply includes_spec, join_includes.
      apply (list_elem_of_fmap_2 (λ kv : str * str, kv.1 ++ "=" ++ kv.2) _ (k, v)).
      by apply elem_of_map_to_list.
  - intros k v. by rewrite map_to_list_singleton.
Qed.

Lemma cookieHeader_entries_witness :
  lit "sid=1; NID=abc" ≠ [] ∧ JS.includes (lit "sid=1; NID=abc") ("NID" ++ "=" ++ "abc") = true.
Proof.
  destruct (proj1 (proj2 (cookieHeader_entries {[ lit "NID" := lit "abc"; lit "sid" := lit "1" ]}))
              (lit "sid=1; NID=abc")) as [Hne Hin].
  - vm_compute. reflexivity.
  - split; [exact Hne|]. apply Hin. vm_compute. reflexivity.
Defined.

(** ** cookies.ts: the cookie file *)

Lemma split_single c s : Forall (λ a, notChr c a = true) s → JS.split c s = [s].
Proof.
  induction 1 as [|a s Ha _ IH]; simpl; [done|].
  unfold notChr in Ha. apply negb_true_iff in Ha. by rewrite Ha, IH.
Qed.

Lemma split_nonempty c s : JS.split c s ≠ [].
Proof. destruct (split_head c s) as [ps ->]. done. Qed.

Lemma split_app_sep c p s :
  Forall (λ a, notChr c a = true) p → JS.split c (p ++ c :: s) = p :: JS.split c s.
Proof.
  induction 1 as [|a p Ha _ IH]; simpl.
  - by rewrite (proj2 (chr_true c c)).
  - unfold notChr in Ha. apply negb_true_iff in Ha. by rewrite Ha, IH.
Qed.

Lemma join_split c s : JS.join [c] (JS.split c s) = s.
Proof.
  induction s as [|a s IH]; simpl; [done|].
  destruct (JS.chr a c) eqn:E.
  - apply chr_true in E as ->. destruct (JS.split c s) as [|p ps] eqn:Es.
    + by destruct (split_nonempty c s).
    + change (JS.join [c] ([] :: p :: ps)) with ([] ++ [c] ++ JS.join [c] (p :: ps)).
      by rewrite IH.
  - destruct (JS.split c s) as [|p ps] eqn:Es.
    + by destruct (split_nonempty c s).
    + destruct ps as [|q ps]; simpl in *; by rewrite <-IH.
Qed.

Lemma split_join c parts :
  parts ≠ [] → Forall (Forall (λ a, notChr c a = true)) parts →
  JS.split c (JS.join [c] parts) = parts.
Proof.
  intros Hne Hparts. induction Hparts as [|p parts Hp _ IH]; [done|].
  destruct parts as [|q parts].
  - simpl. by apply split_single.
  - change (JS.join [c] (p :: q :: parts)) with (p ++ c :: JS.join [c] (q :: parts)).
    rewrite split_app_sep by done. by rewrite IH.
Qed.

Lemma trimmed_app s t : s ≠ [] → t ≠ [] → trimmed s → trimmed t → trimmed (s ++ t).
Proof.
  intros Hs Ht [Hh _] [_ Hl]. split; intros c.
  - destruct s; [done|]. apply Hh.
  - rewrite last_app. destruct (last t) eqn:E; [intros [= <-]; by apply Hl|].
    apply last_None in E. done.
Qed.

Lemma trimmed_nil : trimmed [].
Proof. split; intros c; done. Qed.

(** What [loadFileLine] reads off the line of a storable cookie. *)
Lemma loadFileLine_storable jar name value :
  storable name value →
  loadFileLine jar (name ++ "=" ++ value) = <[name := value]> jar.
Proof.
  intros (Hne & Hn & Hv & Hname & Hvalue & Hhash). unfold loadFileLine.
  assert (trimmed (name ++ "=" ++ value)) as Htrim.
  { apply trimmed_app; [done | done | done |].
    destruct value as [|a v]; [split; intros c [= <-]; reflexivity|].
    apply (trimmed_app (lit "=")); [done | done | | done].
    split; intros c [= <-]; reflexivity. }
  rewrite (trim_id _ Htrim). cbn zeta.
  assert (JS.nonEmpty (name ++ "=" ++ value) = true) as -> by (by destruct name).
  assert (JS.startsWith "#" (name ++ "=" ++ value) = false) as ->.
  { destruct name as [|a name]; [done|]. simpl. rewrite andb_true_r.
    apply bool_decide_eq_false. intros <-. by apply Hhash. }
  change (name ++ "=" ++ value) with (name ++ "="%char :: value).
  rewrite split_app_sep by (eapply Forall_impl; [exact Hname | by intros c [? _]]).
  rewrite (proj2 (nonEmpty_true name) Hne).
  destruct (JS.split "=" value) as [|p ps] eqn:Es; [by destruct (split_nonempty "=" value)|].
  rewrite <-Es. change (lit "=") with ["="%char]. rewrite join_split. simpl.
  rewrite Es. simpl. by rewrite (trim_id _ Hn), (trim_id _ Hv).
Qed.

Lemma foldl_insert_list (l : list (str * str)) (jar : CookieJar) :
  foldl (λ j kv, <[kv.1 := kv.2]> j) jar l = list_to_map (reverse l) ∪ jar.
Proof.
  revert jar. induction l as [|[k v] l IH]; intros jar; simpl.
  - by rewrite (left_id_L ∅ (∪)).
  - rewrite IH, reverse_cons, list_to_map_app. simpl.
    rewrite <-(assoc_L (∪)). f_equal.
    by rewrite insert_union_singleton_l, insert_empty.
Qed.

Lemma foldl_insert_map_to_list (jar : CookieJar) :
  foldl (λ j kv, <[kv.1 := kv.2]> j) ∅ (map_to_list jar) = jar.
Proof.
  rewrite foldl_insert_list, (right_id_L ∅ (∪)).
  symmetry. apply list_to_map_flip. symmetry. apply reverse_Permutation.
Qed.

Lemma foldl_loadFileLine_storable l jar :
  Forall (λ kv : str * str, storable kv.1 kv.2) l →
  foldl loadFileLine jar ((λ kv, kv.1 ++ "=" ++ kv.2) <$> l)
  = foldl (λ j kv, <[kv.1 := kv.2]> j) jar l.
Proof.
  intros Hl. revert jar. induction Hl as [|[k v] l Hkv _ IH]; intros jar; [done|].
  rewrite fmap_cons. cbn [foldl fst snd]. by rewrite loadFileLine_storable, IH.
Qed.

Lemma storable_line name value :
  storable name value → Forall (λ a, notChr newline a = true) (name ++ "=" ++ value).
Proof.
  intros (_ & _ & _ & Hname & Hvalue & _). apply Forall_app. split.
  - eapply Forall_impl; [exact Hname | by intros c [_ ?]].
  - by constructor.
Qed.

(** X7. What [saveCookies] writes, [loadCookies] reads back: when
    every cookie of the jar is storable (a name that is not empty, has
    no equals sign and does not start with the comment sign; no line
    break in the name or the value, no white space at their ends), the
    jar loaded from the file that [saveCookies] wrote, with the
    environment variable unset or empty, is the jar that was saved.
    The value may be empty and may hold equals signs. *)
Theorem loadCookies_saveCookies (jar : CookieJar) :
  (∀ name value, jar !! name = Some value → storable name value) →
  loadCookies (Some (saveCookies jar)) None = jar ∧
  loadCookies (Some (saveCookies jar)) (Some []) = jar.
Proof.
  intros Hjar.
  assert (loadCookies (Some (saveCookies jar)) None = jar) as Hload; [|by split].
  unfold loadCookies, saveCookies.
  assert (Forall (λ kv : str * str, storable kv.1 kv.2) (map_to_list jar)) as Hall.
  { apply Forall_forall. intros [k v] Hkv%elem_of_map_to_list. by apply Hjar. }
  destruct (map_to_list jar) as [|kv l] eqn:E.
  - apply map_to_list_empty_iff in E. by subst jar.
  - rewrite split_join.
    + rewrite foldl_loadFileLine_storable by done. rewrite <-E.
      apply foldl_insert_map_to_list.
    + done.
    + apply Forall_fmap. eapply Forall_impl; [exact Hall|].
      intros [k v] Hkv. by apply storable_line.
Qed.

Lemma loadCookies_saveCookies_witness :
  loadCookies (Some (saveCookies twoCookies)) None = twoCookies ∧
  loadCookies (Some (saveCookies twoCookies)) (Some []) = twoCookies.
Proof.
  apply (loadCookies_saveCookies twoCookies).
  intros name value. unfold twoCookies.
  rewrite lookup_insert. case_decide as Hn.
  - intros [= <-]. subst name.
    split_and!; [done | split; intros c [= <-]; reflexivity
                | split; intros c [= <-]; reflexivity | repeat constructor
                | repeat constructor | done].
  - rewrite lookup_singleton. case_decide as Hs; [|done].
    intros [= <-]. subst name.
    split_and!; [done | split; intros c [= <-]; reflexivity
                | split; intros c [= <-]; reflexivity | repeat constructor
                | repeat constructor | done].
Defined.

(** A name that is empty or starts with the comment sign does not
    survive the round trip. *)
Example loadCookies_loses_comment :
  loadCookies (Some (saveCookies {[ lit "#tag" := lit "1" ]})) None = ∅ ∧
  loadCookies (Some (saveCookies {[ [] := lit "1" ]})) None = ∅.
Proof. split; vm_compute; reflexivity. Qed.

(** ** download.ts: what a request changes *)

Lemma uniqueLoop_free `{NodeRuntime} fs dir base ext fuel candidate counter name :
  uniqueLoop fs dir base ext fuel candidate counter = Some name →
  existsSync fs (path_join dir name) = false.
Proof.
  revert candidate counter. induction fuel as [|fuel IH]; intros candidate counter; simpl.
  - destruct (existsSync fs (path_join dir candidate)) eqn:E; [done|]. by intros [= <-].
  - destruct (existsSync fs (path_join dir candidate)) eqn:E; [apply IH|]. by intros [= <-].
Qed.

Lemma ensureUniqueName_free `{NodeRuntime} fs dir desiredName name :
  ensureUniqueName fs dir desiredName = Some name → fs !! path_join dir name = None.
Proof.
  unfold ensureUniqueName. intros Hfree%uniqueLoop_free.
  unfold existsSync in Hfree. apply bool_decide_eq_false in Hfree.
  by apply eq_None_not_Some.
Qed.

Lemma updateCookiesFromHeaders_keeps jar headers k :
  is_Some (jar !! k) → is_Some (updateCookiesFromHeaders jar headers !! k).
Proof. destruct headers as [cookies|]; simpl; [apply foldl_updateCookie_keeps | done]. Qed.

Lemma sleeps_app t1 t2 : sleeps (t1 ++ t2) = sleeps t1 ++ sleeps t2.
Proof. unfold sleeps. apply omap_app. Qed.

Section RequestProofs.
Context `{NodeRuntime}.

(** A download request keeps the names of the jar and the entries of
    the file system, consumes a prefix of the events, and neither waits
    nor warns. *)
Lemma performDownloadRequest_keeps net urlStr destDir preferredName jar fs :
  let r := performDownloadRequest net urlStr destDir preferredName jar fs in
  (∀ k, is_Some (jar !! k) → is_Some (rr_jar r !! k)) ∧
  fs ⊆ rr_fs r ∧
  (∃ used, net = used ++ rr_net r) ∧
  sleeps (rr_trace r) = [] ∧ warnings (rr_trace r) = [].
Proof.
  revert urlStr jar. induction net as [|e net IH]; intros urlStr jar; simpl.
  - destruct (newURL urlStr); simpl; (split_and!; [done | done | by exists [] | done | done]).
  - destruct (newURL urlStr); simpl;
      [|split_and!; [done | done | by exists [] | done | done]].
    destruct e as [res | err |]; simpl;
      [|split_and!; [done | done | by exists [NetError err] | done | done]
       |split_and!; [done | done | by exists [NetTimeout] | done | done]].
    assert (∀ k, is_Some (jar !! k) →
                 is_Some (updateCookiesFromHeaders jar (h_setCookie res) !! k)) as Hjar
      by (intros k; apply updateCookiesFromHeaders_keeps).
    destruct (statusCode res =? 429);
      [simpl; split_and!; [done | done | by exists [NetResponse res] | done | done]|].
    destruct (isRedirect res).
    { destruct (IH (resolveURL (default [] (h_location res)) urlStr)
                  (updateCookiesFromHeaders jar (h_setCookie res)))
        as (Hj & Hfs & [used Hnet] & Hs & Hw).
      simpl. split_and!; [by intros k Hk; apply Hj, Hjar | done | | done | done].
      exists (NetResponse res :: used). by rewrite Hnet at 1. }
    destruct (JS.truthy (h_contentDisposition res) && (statusCode res =? 200)).
    { destruct (ensureUniqueName fs destDir _) as [finalName|] eqn:Hname; simpl;
        (split_and!; [done | | by exists [NetResponse res] | done | done]); [|done].
      apply insert_subseteq. by eapply ensureUniqueName_free. }
    destruct (decodeBody (rawBody res) (h_contentEncoding res)); simpl;
      (split_and!; [done | done | by exists [NetResponse res] | done | done]).
Qed.

End RequestProofs.

(** ** download.ts: the delays of the attempt loop *)

Lemma inject_Z_le_longest z : z ≤ 120000 → (inject_Z z <= longestDelay)%Q.
Proof. intros Hz. unfold Qle, longestDelay. simpl. lia. Qed.

Lemma Qred_min_le_longest q cap : cap ≤ 120000 → (Qred (Qmin q (inject_Z cap)) <= longestDelay)%Q.
Proof.
  intros Hcap. rewrite Qred_correct.
  eapply Qle_trans; [apply Q.le_min_r|]. by apply inject_Z_le_longest.
Qed.

Lemma downloadRateLimitDelay_le attempt :
  (inject_Z (downloadRateLimitDelay attempt) <= longestDelay)%Q.
Proof. apply inject_Z_le_longest. unfold downloadRateLimitDelay. lia. Qed.

Lemma confirmDelay_le attempt : (inject_Z (confirmDelay attempt) <= longestDelay)%Q.
Proof. apply inject_Z_le_longest. unfold confirmDelay. lia. Qed.

Lemma tokenMissingDelay_le attempt : (tokenMissingDelay attempt <= longestDelay)%Q.
Proof. unfold tokenMissingDelay. by apply (Qred_min_le_longest _ 30000). Qed.

Lemma errorDelay_le attempt : (errorDelay attempt <= longestDelay)%Q.
Proof. unfold errorDelay. by apply (Qred_min_le_longest _ 20000). Qed.

(** ** download.ts: what an attempt changes *)

Lemma keeps_refl st : keeps st st [].
Proof.
  split_and!; [done | done | by exists [] | done | by rewrite app_nil_r | constructor].
Qed.

Lemma keeps_trans st1 st2 st3 l1 l2 :
  keeps st1 st2 l1 → keeps st2 st3 l2 → keeps st1 st3 (l1 ++ l2).
Proof.
  intros (J1 & F1 & [u1 N1] & W1 & S1 & B1) (J2 & F2 & [u2 N2] & W2 & S2 & B2).
  split_and!.
  - intros k Hk. by apply J2, J1.
  - by etrans.
  - exists (u1 ++ u2). by rewrite N1, N2, app_assoc.
  - by rewrite W2.
  - by rewrite S2, S1, app_assoc.
  - by apply Forall_app.
Qed.

Lemma keeps_sleep st ms : (ms <= longestDelay)%Q → keeps st (ls_sleep ms st) [ms].
Proof.
  intros Hms. unfold ls_sleep.
  split_and!; simpl; [done | done | by exists [] | | | by constructor].
  - by rewrite warnings_app, app_nil_r.
  - by rewrite sleeps_app.
Qed.

Section AttemptProofs.
Context `{NodeRuntime}.
Variable options : DownloadOptions.
Variables (fileId destDir : str) (preferredName : option str) (downloadUrl : URL).

Local Abbreviation tryBody' := (tryBody options fileId destDir preferredName downloadUrl).
Local Abbreviation attemptLoop' :=
  (attemptLoop options fileId destDir preferredName downloadUrl).

Lemma keeps_request st urlStr cache cookieFile :
  let r := performDownloadRequest (ls_net st) urlStr destDir preferredName
             (ls_jar st) (w_fs (ls_world st)) in
  keeps st (mkLoopState (rr_jar r) (mkWorld (rr_fs r) cache cookieFile) (rr_net r)
              (ls_trace st ++ rr_trace r)) [].
Proof.
  intros r.
  destruct (performDownloadRequest_keeps (ls_net st) urlStr destDir preferredName
              (ls_jar st) (w_fs (ls_world st))) as (Hj & Hfs & Hnet & Hs & Hw).
  fold r in Hj, Hfs, Hnet, Hs, Hw.
  split_and!; simpl; [done | done | done | | | constructor].
  - by rewrite warnings_app, Hw, app_nil_r.
  - by rewrite sleeps_app, Hs.
Qed.

(** One attempt: it waits at most once, and only to go on to the next
    attempt; the cookie file is written on a return only, and not at
    all when cookies are disabled. *)
Lemma tryBody_keeps attempt tok st outcome st' :
  tryBody' attempt tok st = (outcome, st') →
  ∃ slept, keeps st st' slept ∧
    match outcome with
    | TNext _ => (length slept ≤ 1)%nat
    | _ => slept = []
    end ∧
    w_cookieFile (ls_world st')
    = match outcome with
      | TReturn _ =>
          if opt_noCookies options then w_cookieFile (ls_world st) else ls_jar st'
      | _ => w_cookieFile (ls_world st)
      end.
Proof.
  unfold tryBody.
  set (r := performDownloadRequest _ _ _ _ _ _).
  pose proof (keeps_request st (urlToString (requestUrl downloadUrl tok))) as Hreq.
  fold r in Hreq. cbv zeta in Hreq.
  destruct (rr_result r) as [a | e |] eqn:Hr.
  2,3: intros [= <- <-]; exists []; split_and!; [apply Hreq | done | done].
  destruct (performDownloadRequest_resolved _ _ _ _ _ _ _ Hr) as (_ & Hok & _).
  fold r in Hok. clearbody r.
  destruct (da_success a && JS.truthy (da_filePath a)) eqn:Hsucc.
  - apply andb_true_iff in Hsucc as [Hs _].
    destruct (Hok Hs) as (p & content & Hp & Hfile). rewrite Hp. simpl.
    destruct (opt_verify options).
    + unfold calculateFileHash. rewrite Hfile.
      intros [= <- <-]. exists []. split_and!; [apply Hreq | done |].
      simpl. by destruct (opt_noCookies options).
    + intros [= <- <-]. exists []. split_and!; [apply Hreq | done |].
      simpl. by destruct (opt_noCookies options).
  - destruct ((da_statusCode a =? 429) || bodyRateLimited _).
    { intros [= <- <-]. eexists. split_and!.
      - eapply keeps_trans; [apply Hreq|]. apply keeps_sleep, downloadRateLimitDelay_le.
      - simpl. lia.
      - done. }
    destruct (JS.includes _ "permission" || JS.includes _ "access denied" || _).
    { intros [= <- <-]. exists []. split_and!; [apply Hreq | done | done]. }
    destruct (JS.includes _ "not found" || _).
    { intros [= <- <-]. exists []. split_and!; [apply Hreq | done | done]. }
    destruct (extractConfirmToken _); destruct (attempt <? maxAttempts - 1)%nat;
      intros [= <- <-].
    + eexists. split_and!;
        [eapply keeps_trans; [apply Hreq|]; apply keeps_sleep, confirmDelay_le
        | simpl; lia | done].
    + exists []. split_and!; [apply Hreq | simpl; lia | done].
    + eexists. split_and!;
        [eapply keeps_trans; [apply Hreq|]; apply keeps_sleep, tokenMissingDelay_le
        | simpl; lia | done].
    + exists []. split_and!; [apply Hreq | done | done].
Qed.

(** The attempt loop: at most one delay per attempt that is left. *)
Lemma attemptLoop_keeps fuel attempt tok st result st' :
  attemptLoop' fuel attempt tok st = (result, st') →
  ∃ slept, keeps st st' slept ∧ (length slept ≤ maxAttempts - attempt)%nat ∧
    (w_cookieFile (ls_world st') = w_cookieFile (ls_world st) ∨
     opt_noCookies options = false ∧ w_cookieFile (ls_world st') = ls_jar st' ∧
     ∃ p, result = Resolved p).
Proof.
  revert attempt tok st. induction fuel as [|fuel IH]; intros attempt tok st.
  - simpl. destruct (attempt <? maxAttempts)%nat; intros [= <- <-];
      exists []; (split_and!; [apply keeps_refl | simpl; lia | by left]).
  - rewrite attemptLoop_unfold.
    destruct (attempt <? maxAttempts)%nat eqn:Hlt.
    2: { intros [= <- <-]. exists []. split_and!; [apply keeps_refl | simpl; lia | by left]. }
    apply Nat.ltb_lt in Hlt.
    destruct (tryBody' attempt tok st) as [outcome st1] eqn:Htry.
    apply tryBody_keeps in Htry as (l1 & Hk1 & Hl1 & Hc1).
    assert (∀ tok' st2 l2, keeps st1 st2 l2 → (length (l1 ++ l2) ≤ 1)%nat →
              w_cookieFile (ls_world st2) = w_cookieFile (ls_world st) →
              attemptLoop' fuel (S attempt) tok' st2 = (result, st') →
              ∃ slept, keeps st st' slept ∧ (length slept ≤ maxAttempts - attempt)%nat ∧
                (w_cookieFile (ls_world st') = w_cookieFile (ls_world st) ∨
                 opt_noCookies options = false ∧ w_cookieFile (ls_world st') = ls_jar st' ∧
                 ∃ p, result = Resolved p)) as Hnext.
    { intros tok' st2 l2 Hk2 Hlen Hc2 (l3 & Hk3 & Hl3 & Hc3)%IH.
      exists ((l1 ++ l2) ++ l3). split_and!.
      - eapply keeps_trans; [eapply keeps_trans; [exact Hk1 | exact Hk2] | exact Hk3].
      - rewrite length_app. lia.
      - rewrite <-Hc2. exact Hc3. }
    destruct outcome as [q | tok' | err |].
    + intros [= <- <-]. exists l1. subst l1. split_and!; [done | simpl; lia |].
      destruct (opt_noCookies options); [by left | right; eauto].
    + apply (Hnext tok' st1 []); [apply keeps_refl | rewrite app_nil_r; lia | done].
    + subst l1. destruct (messageRateLimited (message err)).
      { eapply (Hnext tok _ [inject_Z (downloadRateLimitDelay attempt)]);
          [apply keeps_sleep, downloadRateLimitDelay_le | done | done]. }
      case_bool_decide.
      { intros [= <- <-]. exists []. split_and!; [done | simpl; lia | by left]. }
      eapply (Hnext tok _ [errorDelay attempt]);
        [apply keeps_sleep, errorDelay_le | done | done].
    + intros [= <- <-]. exists l1. subst l1. split_and!; [done | simpl; lia | by left].
Qed.

End AttemptProofs.

(** Without verification the attempt loop leaves the cache alone. *)
Lemma attemptLoop_cache `{NodeRuntime} options fileId destDir preferredName downloadUrl
    fuel attempt tok st :
  opt_verify options = false →
  w_cache (ls_world (attemptLoop options fileId destDir preferredName downloadUrl
                       fuel attempt tok st).2) = w_cache (ls_world st).
Proof.
  intros Hv. revert attempt tok st. induction fuel as [|fuel IH]; intros attempt tok st.
  - simpl. by destruct (attempt <? maxAttempts)%nat.
  - rewrite attemptLoop_unfold. destruct (attempt <? maxAttempts)%nat; [|done].
    destruct (tryBody options fileId destDir preferredName downloadUrl attempt tok st)
      as [outcome st1] eqn:Htry.
    apply tryBody_effects in Htry as [_ Hcache].
    destruct outcome as [q | tok' | err |]; simpl.
    + destruct Hcache as (content & _ & Hc). by rewrite Hv in Hc.
    + by rewrite IH.
    + destruct (messageRateLimited (message err)); [by rewrite IH|].
      case_bool_decide; [done | by rewrite IH].
    + done.
Qed.

(** ** downloadFile as a whole *)

Lemma resolveOutput_fs `{NodeRuntime} fs output fileId : fs ⊆ (resolveOutput fs output fileId).2.
Proof.
  unfold resolveOutput. cbv zeta. cbn [snd].
  match goal with |- context [existsSync fs ?d] => destruct (existsSync fs d) eqn:E end;
    [done|].
  apply insert_subseteq. unfold existsSync in E. apply bool_decide_eq_false in E.
  by apply eq_None_not_Some.
Qed.

(** The three ways in which [downloadFile] ends: the reference is not
    resolved, the cached file is still valid, or the attempt loop has
    run. *)
Lemma downloadFile_cases `{NodeRuntime} (P : DownloadRun → Prop) urlOrId output options w net :
  (∀ e, P (mkDownloadRun (Rejected e) w net [])) →
  (∀ fs1 p, w_fs w ⊆ fs1 →
     P (mkDownloadRun (Resolved p) (mkWorld fs1 (w_cache w) (w_cookieFile w)) net [])) →
  (∀ fileId destDir preferredName downloadUrl fs1, w_fs w ⊆ fs1 →
     P (downloadAttempts options fileId destDir preferredName downloadUrl
          (if opt_noCookies options then ∅ else w_cookieFile w)
          (mkWorld fs1 (w_cache w) (w_cookieFile w)) net)) →
  P (downloadFile urlOrId output options w net).
Proof.
  intros Hrej Hcached Hloop. unfold downloadFile.
  destruct (resolveId options urlOrId) as [[[fileId resourceKey] fileType]|]; [|apply Hrej].
  pose proof (resolveOutput_fs (w_fs w) output fileId) as Hfs.
  destruct (resolveOutput (w_fs w) output fileId) as [[destDir preferredName] fs1].
  simpl in Hfs.
  destruct (cachedPath _ _ _ _ _); [by apply Hcached | by apply Hloop].
Qed.

Lemma downloadAttempts_keeps `{NodeRuntime} options fileId destDir preferredName downloadUrl
    jar w net :
  let r := downloadAttempts options fileId destDir preferredName downloadUrl jar w net in
  w_fs w ⊆ w_fs (dr_world r) ∧
  (∃ used, net = used ++ dr_net r) ∧
  warnings (dr_trace r) = [] ∧
  (length (sleeps (dr_trace r)) ≤ 15)%nat ∧
  Forall (λ ms, (ms <= longestDelay)%Q) (sleeps (dr_trace r)) ∧
  (opt_verify options = false → w_cache (dr_world r) = w_cache w) ∧
  (w_cookieFile (dr_world r) = w_cookieFile w ∨
   opt_noCookies options = false ∧ (∃ p, dr_result r = Resolved p) ∧
   ∀ k, is_Some (jar !! k) → is_Some (w_cookieFile (dr_world r) !! k)).
Proof.
  unfold downloadAttempts.
  pose proof (attemptLoop_cache options fileId destDir preferredName downloadUrl
                maxAttempts 0 None (mkLoopState jar w net [])) as Hcache.
  destruct (attemptLoop _ _ _ _ _ maxAttempts 0 None _) as [result st] eqn:Hl.
  apply attemptLoop_keeps in Hl as (slept & (Hj & Hfs & Hnet & Hw & Hs & Hb) & Hlen & Hc).
  simpl in *. split_and!; try done.
  - rewrite Hs. unfold maxAttempts in Hlen. lia.
  - by rewrite Hs.
  - destruct Hc as [Hc | (Hn & Hc & Hp)]; [by left | right].
    split_and!; [done | done |]. rewrite Hc. exact Hj.
Qed.



(** X9. The delays of [downloadFile]: whatever the network delivers,
    it waits at most fifteen times and never longer than 120 seconds at
    a time. *)
Theorem downloadFile_delays `{NodeRuntime} (urlOrId : str) (output : option str)
    (options : DownloadOptions) (w : World) (net : list NetEvent) :
  let r := downloadFile urlOrId output options w net in
  (length (sleeps (dr_trace r)) ≤ 15)%nat ∧
  Forall (λ ms, (ms <= 120000)%Q) (sleeps (dr_trace r)).
Proof.
  apply downloadFile_cases.
  - intros e. simpl. split; [lia | constructor].
  - intros fs1 p _. simpl. split; [lia | constructor].
  - intros fileId destDir preferredName downloadUrl fs1 _.
    destruct (downloadAttempts_keeps options fileId destDir preferredName downloadUrl
                (if opt_noCookies options then ∅ else w_cookieFile w)
                (mkWorld fs1 (w_cache w) (w_cookieFile w)) net)
      as (_ & _ & _ & Hlen & Hb & _). done.
Qed.

(** X10. The cookie file under [downloadFile]: no name is ever removed
    from it; it is left as it was when cookies are disabled, and also
    when the download does not succeed (what the responses of a failed
    download set is not saved). *)
Theorem downloadFile_cookieFile `{NodeRuntime} (urlOrId : str) (output : option str)
    (options : DownloadOptions) (w : World) (net : list NetEvent) :
  let r := downloadFile urlOrId output options w net in
  (∀ k, is_Some (w_cookieFile w !! k) → is_Some (w_cookieFile (dr_world r) !! k)) ∧
  (opt_noCookies options = true → w_cookieFile (dr_world r) = w_cookieFile w) ∧
  ((∀ p, dr_result r ≠ Resolved p) → w_cookieFile (dr_world r) = w_cookieFile w).
Proof.
  apply downloadFile_cases.
  - intros e. done.
  - intros fs1 p _. done.
  - intros fileId destDir preferredName downloadUrl fs1 _.
    destruct (downloadAttempts_keeps options fileId destDir preferredName downloadUrl
                (if opt_noCookies options then ∅ else w_cookieFile w)
                (mkWorld fs1 (w_cache w) (w_cookieFile w)) net)
      as (_ & _ & _ & _ & _ & _ & Hc).
    simpl in Hc. cbv beta zeta. destruct Hc as [Hc | (Hn & [p Hp] & Hc)].
    + rewrite Hc. done.
    + split_and!.
      * intros k Hk. apply Hc. rewrite Hn. exact Hk.
      * rewrite Hn. intros [=].
      * intros Hno. destruct (Hno p Hp).
Qed.

Lemma downloadFile_cookieFile_witness :
  let r := @downloadFile exampleRuntime "FILE1" (Some (lit "out")) noCookiesOptions cookieWorld
             [rateLimitWithCookie; attachment] in
  let f := @downloadFile exampleRuntime "FILE1" (Some (lit "out")) plainOptions cookieWorld
             [rateLimitWithCookie; NetTimeout] in
  w_cookieFile (dr_world r) = w_cookieFile cookieWorld ∧
  w_cookieFile (dr_world f) = w_cookieFile cookieWorld.
Proof.
  split.
  - apply (proj1 (proj2 (@downloadFile_cookieFile exampleRuntime "FILE1" (Some (lit "out"))
                           noCookiesOptions cookieWorld [rateLimitWithCookie; attachment]))).
    reflexivity.
  - apply (proj2 (proj2 (@downloadFile_cookieFile exampleRuntime "FILE1" (Some (lit "out"))
                           plainOptions cookieWorld [rateLimitWithCookie; NetTimeout]))).
    intros p Hp. vm_compute in Hp. discriminate.
Defined.

(** What is saved on success: the cookies of the file and those that
    the responses set. *)
Example downloadFile_saves_cookies :
  let r := @downloadFile exampleRuntime "FILE1" (Some (lit "out")) plainOptions cookieWorld
             [rateLimitWithCookie; attachment] in
  dr_result r = Resolved (lit "/cwd/out/report (1).pdf") ∧
  w_cookieFile (dr_world r) !! lit "sid" = Some (lit "1") ∧
  w_cookieFile (dr_world r) !! lit "NID" = Some (lit "abc") ∧
  sleeps (dr_trace r) = [5000%Q].
Proof. repeat split; vm_compute; reflexivity. Qed.

(** ** download.ts: a call settles when the network answers *)

Section Settles.
Context `{NodeRuntime}.
Hypothesis join_inj : JoinKeepsApart.

Lemma ensureUniqueName_total fs dir name : is_Some (ensureUniqueName fs dir name).
Proof.
  unfold ensureUniqueName. cbn [uniqueLoop].
  destruct (existsSync fs (path_join dir name)); [|eauto].
  destruct (numbered_free fs dir _ _ (join_inj dir name)) as (n0 & Hn0 & Hfree).
  by apply (uniqueLoop_returns fs dir _ _ (size fs) 1 n0).
Qed.

Lemma performDownloadRequest_pending net urlStr destDir preferredName jar fs :
  rr_result (performDownloadRequest net urlStr destDir preferredName jar fs) = Pending →
  rr_net (performDownloadRequest net urlStr destDir preferredName jar fs) = [].
Proof.
  revert urlStr jar. induction net as [|e net IH]; intros urlStr jar; simpl.
  - by destruct (newURL urlStr).
  - destruct (newURL urlStr); [|done]. destruct e as [res | err |]; [|done..].
    destruct (statusCode res =? 429); [done|].
    destruct (isRedirect res); [apply IH|].
    destruct (JS.truthy (h_contentDisposition res) && (statusCode res =? 200)).
    { match goal with
      | |- context [ensureUniqueName fs destDir ?n] =>
          destruct (ensureUniqueName_total fs destDir n) as [finalName ->]
      end. done. }
    by destruct (decodeBody (rawBody res) (h_contentEncoding res)).
Qed.

Lemma tryBody_pending options fileId destDir preferredName downloadUrl attempt tok st st' :
  tryBody options fileId destDir preferredName downloadUrl attempt tok st = (TPending, st') →
  ls_net st' = [].
Proof.
  unfold tryBody.
  set (r := performDownloadRequest _ _ _ _ _ _).
  pose proof (performDownloadRequest_pending (ls_net st)
                (urlToString (requestUrl downloadUrl tok)) destDir preferredName
                (ls_jar st) (w_fs (ls_world st))) as Hpend.
  fold r in Hpend.
  destruct (rr_result r) as [a | e |] eqn:Hr; [|done|].
  2: { intros [= <-]. simpl. by apply Hpend. }
  destruct (performDownloadRequest_resolved _ _ _ _ _ _ _ Hr) as (_ & Hok & _).
  fold r in Hok. clearbody r.
  destruct (da_success a && JS.truthy (da_filePath a)) eqn:Hsucc.
  - apply andb_true_iff in Hsucc as [Hs _].
    destruct (Hok Hs) as (p & content & Hp & Hfile). rewrite Hp. simpl.
    destruct (opt_verify options); [|done].
    unfold calculateFileHash. by rewrite Hfile.
  - repeat match goal with
           | |- context [if ?b then _ else _] => destruct b
           | |- context [match extractConfirmToken ?x with _ => _ end] =>
               destruct (extractConfirmToken x)
           end; done.
Qed.

Lemma attemptLoop_pending options fileId destDir preferredName downloadUrl
    fuel attempt tok st st' :
  (maxAttempts ≤ fuel + attempt)%nat →
  attemptLoop options fileId destDir preferredName downloadUrl fuel attempt tok st
  = (Pending, st') →
  ls_net st' = [].
Proof.
  revert attempt tok st. induction fuel as [|fuel IH]; intros attempt tok st Hfuel.
  - simpl. rewrite (proj2 (Nat.ltb_ge _ _)) by lia. done.
  - rewrite attemptLoop_unfold. destruct (attempt <? maxAttempts)%nat; [|done].
    destruct (tryBody options fileId destDir preferredName downloadUrl attempt tok st)
      as [outcome st1] eqn:Htry.
    destruct outcome as [q | tok' | err |].
    + done.
    + apply IH. lia.
    + destruct (messageRateLimited (message err)); [apply IH; lia|].
      case_bool_decide; [done | apply IH; lia].
    + intros [= <-]. by eapply tryBody_pending.
Qed.

End Settles.


Lemma exampleRuntime_join : @JoinKeepsApart exampleRuntime.
Proof.
  intros dir name n m Heq. cbn [path_join exampleRuntime] in Heq.
  apply app_inv_head, (app_inv_head (lit "/")) in Heq. by eapply numbered_inj.
Qed.


(** ** downloadFile: the id option *)

Lemma tryBody_options `{NodeRuntime} o1 o2 fileId destDir preferredName downloadUrl
    attempt tok st :
  opt_noCookies o1 = opt_noCookies o2 → opt_verify o1 = opt_verify o2 →
  tryBody o1 fileId destDir preferredName downloadUrl attempt tok st
  = tryBody o2 fileId destDir preferredName downloadUrl attempt tok st.
Proof. intros Hn Hv. unfold tryBody. by rewrite Hn, Hv. Qed.

Lemma attemptLoop_options `{NodeRuntime} o1 o2 fileId destDir preferredName downloadUrl
    fuel attempt tok st :
  opt_noCookies o1 = opt_noCookies o2 → opt_verify o1 = opt_verify o2 →
  attemptLoop o1 fileId destDir preferredName downloadUrl fuel attempt tok st
  = attemptLoop o2 fileId destDir preferredName downloadUrl fuel attempt tok st.
Proof.
  intros Hn Hv. revert attempt tok st. induction fuel as [|fuel IH]; intros attempt tok st.
  - done.
  - rewrite !attemptLoop_unfold.
    rewrite (tryBody_options o1 o2 fileId destDir preferredName downloadUrl attempt tok st Hn Hv).
    destruct (attempt <? maxAttempts)%nat; [|done].
    destruct (tryBody o2 fileId destDir preferredName downloadUrl attempt tok st)
      as [[q | tok' | err |] st1]; [done | apply IH | | done].
    by rewrite !IH.
Qed.

(** X12. With the [id] option set, [downloadFile] works on that id and
    on the access key of the options alone: the reference it is called
    with is not read, and neither is the export format, since the kind
    of the resource is known from a parsed URL only.  The download URL
    is the plain one of the id. *)
Theorem downloadFile_id_option `{NodeRuntime} (urlOrId : str) (output : option str)
    (options : DownloadOptions) (w : World) (net : list NetEvent) :
  JS.truthy (opt_id options) = true →
  (∀ urlOrId' format',
     downloadFile urlOrId output options w net
     = downloadFile urlOrId' output (withFormat format' options) w net) ∧
  resolveId options urlOrId = Some (default [] (opt_id options), opt_resourceKey options, None) ∧
  exportUrl options (default [] (opt_id options)) (opt_resourceKey options) None
  = buildDownloadUrl (default [] (opt_id options)) (opt_resourceKey options) None.
Proof.
  intros Hid. split; [|split].
  - intros urlOrId' format'. unfold downloadFile, resolveId.
    cbn [opt_id opt_resourceKey opt_noCookies withFormat]. rewrite Hid.
    destruct (resolveOutput (w_fs w) output (default [] (opt_id options)))
      as [[destDir preferredName] fs1].
    replace (cachedPath (withFormat format' options)) with (cachedPath options) by reflexivity.
    destruct (cachedPath options _ _ _ _); [done|].
    replace (exportUrl (withFormat format' options) (default [] (opt_id options))
               (opt_resourceKey options) None)
      with (exportUrl options (default [] (opt_id options)) (opt_resourceKey options) None)
      by (unfold exportUrl; cbn [opt_format withFormat];
          by destruct (opt_format options) as [[|? ?]|], format' as [[|? ?]|]).
    unfold downloadAttempts.
    rewrite (attemptLoop_options options (withFormat format' options) _ _ _ _ _ _ _ _
               eq_refl eq_refl).
    reflexivity.
  - unfold resolveId. by rewrite Hid.
  - unfold exportUrl. by destruct (opt_format options) as [[|? ?]|].
Qed.

Lemma downloadFile_id_option_witness :
  @downloadFile exampleRuntime sheetUrl (Some (lit "out")) pdfIdOptions outWorld [attachment]
  = @downloadFile exampleRuntime "FILE1" (Some (lit "out")) (withFormat None pdfIdOptions)
      outWorld [attachment].
Proof.
  apply (proj1 (@downloadFile_id_option exampleRuntime sheetUrl (Some (lit "out")) pdfIdOptions
                  outWorld [attachment] eq_refl)).
Defined.

(** The same spreadsheet by its URL and by its id: the format reaches
    the request in the first case only. *)
Example downloadFile_format_by_url :
  requests (dr_trace (@downloadFile exampleRuntime sheetUrl (Some (lit "out")) pdfOptions
                        outWorld [attachment]))
  = [(lit "https://drive.google.com/uc?export=download&id=SHEET1&format=pdf", None)] ∧
  requests (dr_trace (@downloadFile exampleRuntime sheetUrl (Some (lit "out")) pdfIdOptions
                        outWorld [attachment]))
  = [(lit "https://drive.google.com/uc?export=download&id=SHEET1", None)].
Proof. split; vm_compute; reflexivity. Qed.

(** ** downloadFile: rate limits to the end *)

Lemma attemptLoop_done `{NodeRuntime} options fileId destDir preferredName downloadUrl
    fuel attempt tok st :
  (maxAttempts ≤ attempt)%nat →
  attemptLoop options fileId destDir preferredName downloadUrl fuel attempt tok st
  = (Rejected exceededAttempts, st).
Proof.
  intros Hge. apply Nat.ltb_ge in Hge. destruct fuel; simpl; by rewrite Hge.
Qed.

Lemma attemptLoop_rate_limited `{NodeRuntime} options fileId destDir preferredName downloadUrl u
    (rs : list Response) rest fuel attempt st :
  newURL (urlToString downloadUrl) = Some u →
  Forall (λ res, statusCode res = 429) rs →
  (attempt + length rs = maxAttempts)%nat → (length rs ≤ fuel)%nat →
  ls_net st = (NetResponse <$> rs) ++ rest →
  ∃ st',
    attemptLoop options fileId destDir preferredName downloadUrl fuel attempt None st
    = (Rejected exceededAttempts, st') ∧
    ls_net st' = rest ∧ ls_world st' = ls_world st ∧
    sleeps (ls_trace st')
    = sleeps (ls_trace st)
      ++ (inject_Z <$> (downloadRateLimitDelay <$> seq attempt (length rs))) ∧
    requests (ls_trace st')
    = requests (ls_trace st) ++ rateLimitedRequests (urlToString downloadUrl) (ls_jar st) rs.
Proof.
  intros Hu Hrs. revert fuel attempt st.
  induction Hrs as [|res rs Hres _ IH]; intros fuel attempt st Hlen Hfuel Hnet.
  - simpl in *. exists st. rewrite attemptLoop_done by lia.
    by rewrite !app_nil_r.
  - destruct fuel as [|fuel]; [simpl in Hfuel; lia|].
    rewrite attemptLoop_unfold.
    rewrite (proj2 (Nat.ltb_lt attempt maxAttempts)) by (simpl in Hlen; lia).
    rewrite fmap_cons, <-app_comm_cons in Hnet.
    rewrite (tryBody_429 options fileId destDir preferredName downloadUrl attempt None st res
               _ u Hnet Hres Hu).
    edestruct (IH fuel (S attempt)) as (st' & -> & Hn & Hw & Hs & Hr);
      [simpl in Hlen; cbn [ls_net]; lia | simpl in Hfuel; lia | reflexivity |].
    exists st'. cbn [ls_trace ls_world ls_jar] in *.
    split_and!; [done | done | done | |].
    + rewrite Hs, sleeps_app, <-app_assoc. f_equal.
    + rewrite Hr, requests_app, <-app_assoc. f_equal.
Qed.



(** ** downloadFile: the confirmation token *)

Lemma extractConfirmToken_nonempty html token :
  extractConfirmToken html = Some token → token ≠ [].
Proof.
  unfold extractConfirmToken.
  destruct (search linkTokenRe html) as [m|] eqn:E.
  { intros [= <-]. by apply search_linkToken in E as [[? _] _]. }
  destruct (search inputTokenRe html) as [m|] eqn:E'; [|done].
  intros [= <-]. by apply search_inputToken in E' as [[? _] _].
Qed.

Lemma performDownloadRequest_page `{NodeRuntime} net urlStr u destDir preferredName jar fs
    res html :
  newURL urlStr = Some u → PageResponse res html →
  performDownloadRequest (NetResponse res :: net) urlStr destDir preferredName jar fs
  = mkRequestRun (Resolved (mkAttempt false None (Some html) (statusCode res)))
      (updateCookiesFromHeaders jar (h_setCookie res)) fs net [Get urlStr (cookieHeader jar)].
Proof.
  intros Hu (H429 & _ & _ & Hredir & Hdisp & Hbody).
  cbn [performDownloadRequest]. rewrite Hu.
  rewrite (proj2 (Z.eqb_neq _ _) H429), Hredir, Hdisp, Hbody. done.
Qed.

(** X14. The confirmation step of [downloadFile].  When an attempt
    before the last one is answered by a page that is not classified
    (no rate limit, no permission or not-found page) and that carries a
    confirmation token, the loop keeps the token, waits
    [min(2000 + 1000 * attempt, 15000)] ms and goes to the next
    attempt; the URL of that attempt is the download URL with the
    [confirm] parameter set to the token (in place of an earlier one)
    and its other parameters unchanged. *)
Theorem attemptLoop_confirmation `{NodeRuntime} (options : DownloadOptions)
    (fileId destDir : str) (preferredName : option str) (downloadUrl : URL)
    (fuel attempt : nat) (tok : option str) (st : LoopState)
    (res : Response) (net : list NetEvent) (u : URL) (html token : str) :
  ls_net st = NetResponse res :: net →
  newURL (urlToString (requestUrl downloadUrl tok)) = Some u →
  PageResponse res html → Unclassified html →
  extractConfirmToken html = Some token →
  (attempt < maxAttempts - 1)%nat →
  attemptLoop options fileId destDir preferredName downloadUrl (S fuel) attempt tok st
  = attemptLoop options fileId destDir preferredName downloadUrl fuel (S attempt) (Some token)
      (mkLoopState (updateCookiesFromHeaders (ls_jar st) (h_setCookie res)) (ls_world st) net
         (ls_trace st ++ [Get (urlToString (requestUrl downloadUrl tok))
                            (cookieHeader (ls_jar st));
                          Sleep (inject_Z (Z.min (2000 + Z.of_nat attempt * 1000) 15000))])) ∧
  searchParams_get "confirm" (searchParams (requestUrl downloadUrl (Some token))) = Some token ∧
  (∀ name, name ≠ lit "confirm" →
     searchParams_get name (searchParams (requestUrl downloadUrl (Some token)))
     = searchParams_get name (searchParams downloadUrl)) ∧
  pathname (requestUrl downloadUrl (Some token)) = pathname downloadUrl ∧
  hostname (requestUrl downloadUrl (Some token)) = hostname downloadUrl.
Proof.
  intros Hnet Hu Hpage (Hrl & Hperm & Hdenied & Hnf) Htoken Hlt.
  pose proof (extractConfirmToken_nonempty _ _ Htoken) as Hne.
  assert (requestUrl downloadUrl (Some token)
          = mkURL (protocol downloadUrl) (hostname downloadUrl) (pathname downloadUrl)
              (searchParams_set "confirm" token (searchParams downloadUrl))) as Hreq.
  { unfold requestUrl. cbn [JS.truthy default]. by rewrite (proj2 (nonEmpty_true token) Hne). }
  split; [|rewrite Hreq; cbn [searchParams pathname hostname]; split_and!;
           [apply searchParams_get_set | intros; by apply searchParams_get_set_ne | done | done]].
  rewrite attemptLoop_unfold.
  rewrite (proj2 (Nat.ltb_lt attempt maxAttempts)) by lia.
  unfold tryBody. rewrite Hnet.
  rewrite (performDownloadRequest_page net _ u destDir preferredName _ _ res html Hu Hpage).
  destruct Hpage as (H429 & H403 & H404 & Hpage).
  cbn [rr_result rr_jar rr_fs rr_net rr_trace da_success da_filePath da_body da_statusCode
       andb].
  rewrite orElse_Some, Hrl, Hperm, Hdenied, Hnf, Htoken.
  rewrite (proj2 (Z.eqb_neq _ _) H429), (proj2 (Z.eqb_neq _ _) H403),
    (proj2 (Z.eqb_neq _ _) H404).
  cbn [orb]. rewrite (proj2 (Nat.ltb_lt attempt (maxAttempts - 1))) by done.
  unfold ls_sleep, confirmDelay. cbn [ls_jar ls_world ls_net ls_trace].
  destruct (ls_world st). by rewrite <-app_assoc.
Qed.

Lemma attemptLoop_confirmation_witness :
  @attemptLoop exampleRuntime plainOptions "FILE1" "/cwd/out" None
    (buildDownloadUrl "FILE1" None None) 14 0 None
    (mkLoopState ∅ outWorld [confirmPage; attachment] [])
  = @attemptLoop exampleRuntime plainOptions "FILE1" "/cwd/out" None
      (buildDownloadUrl "FILE1" None None) 13 1 (Some (lit "t0K_n"))
      (mkLoopState (updateCookiesFromHeaders ∅ None) outWorld [attachment]
         ([] ++ [Get (@urlToString exampleRuntime
                        (requestUrl (buildDownloadUrl "FILE1" None None) None))
                   (cookieHeader ∅);
                 Sleep (inject_Z (Z.min (2000 + Z.of_nat 0 * 1000) 15000))])) ∧
  searchParams_get "confirm"
    (searchParams (requestUrl (buildDownloadUrl "FILE1" None None) (Some (lit "t0K_n"))))
  = Some (lit "t0K_n").
Proof.
  destruct (@attemptLoop_confirmation exampleRuntime plainOptions "FILE1" "/cwd/out" None
              (buildDownloadUrl "FILE1" None None) 13 0 None
              (mkLoopState ∅ outWorld [confirmPage; attachment] [])
              (plainResponse 200 linkPage) [attachment]
              (buildDownloadUrl "FILE1" None None) linkPage (lit "t0K_n"))
    as (Hloop & Hconfirm & _).
  - reflexivity.
  - reflexivity.
  - split_and!; [done | done | done | reflexivity | reflexivity | reflexivity].
  - split_and!; reflexivity.
  - reflexivity.
  - unfold maxAttempts. lia.
  - split; [exact Hloop | exact Hconfirm].
Defined.

(** The whole download: the page, two seconds, the request with the
    token, the file. *)
Example downloadFile_confirmed :
  let r := @downloadFile exampleRuntime "FILE1" (Some (lit "out")) plainOptions outWorld
             [confirmPage; attachment] in
  dr_result r = Resolved (lit "/cwd/out/report.pdf") ∧
  requests (dr_trace r)
  = [(lit "https://drive.google.com/uc?export=download&id=FILE1", None);
     (lit "https://drive.google.com/uc?export=download&id=FILE1&confirm=t0K_n", None)] ∧
  sleeps (dr_trace r) = [2000%Q].
Proof. repeat split; vm_compute; reflexivity. Qed.

(** ** fetchText: redirects and bounds *)

Lemma fetchText_redirect `{NodeRuntime} net url u jar maxRetries retryCount res :
  newURL url = Some u → isRedirect res = true →
  fetchText (NetResponse res :: net) url jar maxRetries retryCount
  = fr_after [Get url (cookieHeader (default ∅ jar))]
      (fetchText net (resolveURL (default [] (h_location res)) url) jar maxRetries retryCount).
Proof. intros Hu Hr. simpl. by rewrite Hu, Hr. Qed.

(** X15. [fetchText] follows redirects without a bound on their
    number: a run of redirect responses, however long, is answered by
    one request per hop, each to the URL that the response before it
    points to, without any delay; the jar and the retry counter are as
    before when the response after the last redirect is handled.
    (Every URL on the way is one that [new URL] accepts.) *)
Theorem fetchText_redirects `{NodeRuntime} (rs : list Response) (net : list NetEvent)
    (url : str) (jar : option CookieJar) (maxRetries retryCount : nat) :
  Forall (λ res, isRedirect res = true) rs →
  Forall (λ hop, is_Some (newURL hop)) (hops url rs) →
  fetchText ((NetResponse <$> rs) ++ net) url jar maxRetries retryCount
  = fr_after ((λ hop, Get hop (cookieHeader (default ∅ jar))) <$> hops url rs)
      (fetchText net (followRedirects url rs) jar maxRetries retryCount).
Proof.
  intros Hrs. revert url. induction Hrs as [|res rs Hres _ IH]; intros url Hhops.
  - simpl. by rewrite fr_after_nil.
  - cbn [hops] in Hhops. apply Forall_cons in Hhops as [[u Hu] Hhops].
    rewrite fmap_cons, <-app_comm_cons.
    rewrite (fetchText_redirect _ url u) by done.
    rewrite IH by done. by rewrite fr_after_app.
Qed.

Lemma fetchText_redirects_witness :
  @fetchText exampleRuntime
    ((NetResponse <$> [movedTo "https://a.example/1"; movedTo "https://b.example/2"])
     ++ [listingPage]) listingUrl (Some ∅) 5 0
  = fr_after
      ((λ hop, Get hop (cookieHeader (default ∅ (Some ∅))))
       <$> @hops exampleRuntime listingUrl
             [movedTo "https://a.example/1"; movedTo "https://b.example/2"])
      (@fetchText exampleRuntime [listingPage]
         (@followRedirects exampleRuntime listingUrl
            [movedTo "https://a.example/1"; movedTo "https://b.example/2"]) (Some ∅) 5 0).
Proof.
  apply (@fetchText_redirects exampleRuntime).
  - repeat constructor.
  - repeat constructor; eexists; reflexivity.
Defined.

Example fetchText_two_hops :
  let r := @fetchText exampleRuntime
             ((NetResponse <$> [movedTo "https://a.example/1"; movedTo "https://b.example/2"])
              ++ [listingPage]) listingUrl (Some ∅) 5 0 in
  fr_result r = Resolved (lit "<html></html>") ∧
  requests (fr_trace r)
  = [(listingUrl, None); (lit "https://a.example/1", None); (lit "https://b.example/2", None)] ∧
  sleeps (fr_trace r) = [].
Proof. repeat split; vm_compute; reflexivity. Qed.

Lemma fetchRateLimitDelay_le n : (inject_Z (fetchRateLimitDelay n) <= 60000)%Q.
Proof. unfold Qle, fetchRateLimitDelay. simpl. lia. Qed.

Lemma fetchErrorDelay_le n : (inject_Z (fetchErrorDelay n) <= 60000)%Q.
Proof. unfold Qle, fetchErrorDelay. simpl. lia. Qed.

Lemma fr_after_sleeps es r :
  sleeps (fr_trace (fr_after es r)) = sleeps es ++ sleeps (fr_trace r).
Proof. unfold fr_after. simpl. by rewrite sleeps_app. Qed.



(** ** formats.ts *)

Lemma toLower_idemp c : JS.toLower (JS.toLower c) = JS.toLower c.
Proof. destruct c as [[] [] [] [] [] [] [] []]; reflexivity. Qed.

Lemma toLower_fmap_idemp (s : str) :
  JS.toLower <$> (JS.toLower <$> s) = JS.toLower <$> s.
Proof.
  rewrite <-list_fmap_compose. apply list_fmap_ext. intros _ c _. apply toLower_idemp.
Qed.

Lemma lookupFormat_spec table format :
  lookupFormat table format
  = if bool_decide (JS.toLower <$> format ∈ table) then Some (JS.toLower <$> format) else None.
Proof. done. Qed.

Lemma getExportFormat_table fileType format :
  getExportFormat fileType format = lookupFormat (formatTable fileType) format.
Proof.
  destruct fileType; try done; unfold lookupFormat; simpl;
    by rewrite bool_decide_eq_false_2 by apply not_elem_of_nil.
Qed.

(** X17. [getExportFormat] reads the format without regard to letter
    case and answers in lower case: the result depends on the
    lower-case form of the format only; for a format whose lower-case
    form is in the table of the kind (documents, spreadsheets and
    presentations have one) the result is that lower-case form; a
    result is always such a form and is itself accepted again (the
    names of the inherited members of the table object apart, which a
    lookup in the object finds as well); the files, folders, drawings
    and resources of unknown kind have no export format at all.  The
    getters of the three tables are [getExportFormat] at their
    kinds. *)
Theorem getExportFormat_normalized (fileType : UrlType) (format : str) :
  getExportFormat fileType format = getExportFormat fileType (JS.toLower <$> format) ∧
  (JS.toLower <$> format ∈ formatTable fileType →
   getExportFormat fileType format = Some (JS.toLower <$> format)) ∧
  (JS.toLower <$> format ∉ inheritedKeys →
   ∀ g, getExportFormat fileType format = Some g →
        g = JS.toLower <$> format ∧ g ∈ formatTable fileType ∧
        getExportFormat fileType g = Some g) ∧
  (fileType ∈ [TFile; TFolder; TDrawing; TUnknown] → getExportFormat fileType format = None) ∧
  (getDocumentFormat format = getExportFormat TDocument format ∧
   getSpreadsheetFormat format = getExportFormat TSpreadsheet format ∧
   getPresentationFormat format = getExportFormat TPresentation format).
Proof.
  rewrite !getExportFormat_table, !lookupFormat_spec, toLower_fmap_idemp.
  split; [done|]. split; [|split; [|split]].
  - intros Hin. by rewrite bool_decide_eq_true_2.
  - intros _ g. case_bool_decide as Hin; [|done]. intros [= <-].
    rewrite getExportFormat_table, lookupFormat_spec, toLower_fmap_idemp.
    by rewrite bool_decide_eq_true_2.
  - intros Hty. rewrite bool_decide_eq_false_2; [done|].
    rewrite !elem_of_cons, elem_of_nil in Hty.
    destruct Hty as [-> | [-> | [-> | [-> | []]]]]; apply not_elem_of_nil.
  - done.
Qed.

Lemma getExportFormat_normalized_witness :
  getExportFormat TSpreadsheet "XLSX" = Some (JS.toLower <$> lit "XLSX") ∧
  getExportFormat TDrawing "pdf" = None ∧
  (lit "pdf" = JS.toLower <$> lit "Pdf" ∧ lit "pdf" ∈ formatTable TPresentation ∧
   getExportFormat TPresentation "pdf" = Some (lit "pdf")).
Proof.
  split; [|split].
  - apply (proj1 (proj2 (getExportFormat_normalized TSpreadsheet "XLSX"))).
    vm_compute. set_solver.
  - apply (proj1 (proj2 (proj2 (proj2 (getExportFormat_normalized TDrawing "pdf"))))).
    set_solver.
  - apply (proj1 (proj2 (proj2 (getExportFormat_normalized TPresentation "Pdf")))).
    + apply (bool_decide_unpack _). vm_compute. reflexivity.
    + reflexivity.
Defined.

Lemma assoc_elem key table v : assoc key table = Some v → (key, v) ∈ table.
Proof.
  induction table as [|[k w] table IH]; simpl; [done|].
  case_bool_decide as Hk.
  - intros [= ->]. subst k. apply elem_of_cons. by left.
  - intros Hv. apply elem_of_cons. right. by apply IH.
Qed.

Lemma mimeTypes_cover_all :
  Forall (λ g, ∃ mime, getFormatMimeType g = LString mime ∧ mime ≠ octetStream ∧
                       assoc g mimeTypes = Some mime)
    (DOCUMENT_FORMATS ++ SPREADSHEET_FORMATS ++ PRESENTATION_FORMATS).
Proof.
  unfold DOCUMENT_FORMATS, SPREADSHEET_FORMATS, PRESENTATION_FORMATS. cbn [app].
  repeat (apply Forall_cons; split;
          [eexists; split; [vm_compute; reflexivity
                           | split; [discriminate | vm_compute; reflexivity]]|]).
  apply Forall_nil. done.
Qed.

Lemma mimeTypes_cover g :
  g ∈ DOCUMENT_FORMATS ++ SPREADSHEET_FORMATS ++ PRESENTATION_FORMATS →
  ∃ mime, getFormatMimeType g = LString mime ∧ mime ≠ octetStream ∧
          (g, mime) ∈ mimeTypes.
Proof.
  intros Hg. destruct (proj1 (Forall_forall _ _) mimeTypes_cover_all g Hg)
    as (mime & Hm & Hne & Ha).
  exists mime. split_and!; [done | done | by apply assoc_elem].
Qed.

(** X18. Every format that [getExportFormat] can return has a MIME
    type of its own in the table of [getFormatMimeType], which is
    looked up without regard to letter case: the default
    [application/octet-stream] is never the answer for an export format.
    A name that is not in the table gets the default, unless it is the
    name of an inherited member of the table object ([constructor],
    [__proto__]), for which the lookup finds that member. *)
Theorem getFormatMimeType_covers (fileType : UrlType) (format g : str) :
  getExportFormat fileType format = Some g →
  (∃ mime, getFormatMimeType g = LString mime ∧ mime ≠ octetStream ∧
           (g, mime) ∈ mimeTypes ∧ getFormatMimeType format = LString mime) ∧
  (∀ name, JS.toLower <$> name ∉ mimeTypes.*1 →
     getFormatMimeType name
     = if bool_decide (JS.toLower <$> name ∈ inheritedKeys)
       then LInherited (JS.toLower <$> name) else LString octetStream).
Proof.
  intros Hg. split.
  - rewrite getExportFormat_table, lookupFormat_spec in Hg.
    case_bool_decide as Hin; [|done]. injection Hg as <-.
    destruct (mimeTypes_cover (JS.toLower <$> format)) as (mime & Hm & Hne & Hmem).
    { destruct fileType; simpl in Hin; try by apply elem_of_nil in Hin.
      all: rewrite !elem_of_app; eauto. }
    exists mime. split_and!; [done | done | done |].
    unfold getFormatMimeType in *. by rewrite toLower_fmap_idemp in Hm.
  - intros name Hno. unfold getFormatMimeType.
    assert (assoc (JS.toLower <$> name) mimeTypes = None) as ->; [|done].
    revert Hno. generalize (JS.toLower <$> name). intros key.
    induction mimeTypes as [|[k v] table IH]; [done|]. simpl.
    rewrite not_elem_of_cons. intros [Hk Hno]. by rewrite bool_decide_eq_false_2, IH.
Qed.

Lemma getFormatMimeType_covers_witness :
  ∃ mime, getFormatMimeType "xlsx" = LString mime ∧ mime ≠ octetStream ∧
          (lit "xlsx", mime) ∈ mimeTypes ∧ getFormatMimeType "XLSX" = LString mime.
Proof.
  apply (proj1 (getFormatMimeType_covers TSpreadsheet "XLSX" "xlsx" eq_refl)).
Defined.

Example getFormatMimeType_values :
  getFormatMimeType "PDF" = LString "application/pdf" ∧
  getFormatMimeType "zip" = LString "application/octet-stream" ∧
  getFormatMimeType "constructor" = LInherited "constructor".
Proof. repeat split; vm_compute; reflexivity. Qed.

(** ** folder.ts: classifyDriveHref *)

(** X19. [classifyDriveHref] tries the folder pattern before the file
    pattern, the other way round than [parseGoogleDriveUrl]: a link whose
    path holds [/drive/folders/<id>] is a folder with the id of the
    leftmost occurrence, whatever else the path holds; a path that
    reads [/drive/folders/] without an id after it gets no id, and the
    file pattern is not tried; without the folder text, [/file/d/<id>]
    gives a file; without both texts the [id] parameter of the query
    decides, and a link without one (a document of the editor, for one)
    gets no id.  A link that [new URL] refuses gets no id. *)
Theorem classifyDriveHref_order `{NodeRuntime} (href : str) :
  (newURL href = None → classifyDriveHref href = (None, EFile, None)) ∧
  (∀ u key, newURL href = Some u →
     key = orUndefined (searchParams_get "resourcekey" (searchParams u)) →
     (∀ id, Leftmost (IdAt "/drive/folders/" (pathname u)) id →
            classifyDriveHref href = (Some id, EFolder, key)) ∧
     (JS.includes (pathname u) "/drive/folders/" = true →
      (∀ pre id, ¬ IdAt "/drive/folders/" (pathname u) pre id) →
      classifyDriveHref href = (None, EFolder, key)) ∧
     (JS.includes (pathname u) "/drive/folders/" = false →
      (∀ id, Leftmost (IdAt "/file/d/" (pathname u)) id →
             classifyDriveHref href = (Some id, EFile, key)) ∧
      (JS.includes (pathname u) "/file/d/" = false →
       (∀ id, searchParams_get "id" (searchParams u) = Some id → id ≠ [] →
              classifyDriveHref href = (Some id, EFile, key)) ∧
       (JS.truthy (searchParams_get "id" (searchParams u)) = false →
        classifyDriveHref href = (None, EFile, None))))).
Proof.
  unfold classifyDriveHref. split; [by intros ->|].
  intros u key Hu ->. rewrite Hu. split_and!.
  - intros id [-> (m & Hm & <-)]%search_idRe_Some. unfold folderRe. by rewrite Hm.
  - intros -> Hno. unfold folderRe. by rewrite (search_idRe_None _ _ Hno).
  - intros ->. split.
    + intros id [-> (m & Hm & <-)]%search_idRe_Some. unfold fileRe. by rewrite Hm.
    + intros ->. split.
      * intros id -> Hne. cbn [JS.truthy]. by rewrite (proj2 (nonEmpty_true id) Hne).
      * by intros ->.
Qed.

Lemma classifyDriveHref_order_witness :
  @classifyDriveHref exampleRuntime folderThenFileUrl = (Some (lit "FOLDER1"), EFolder, None) ∧
  @classifyDriveHref exampleRuntime fileUrl = (Some (lit "ABC123"), EFile, Some (lit "0-k")) ∧
  @classifyDriveHref exampleRuntime fileUrl1
  = (Some (lit "FILE1"), EFile, orUndefined None) ∧
  @classifyDriveHref exampleRuntime docLink = (None, EFile, None) ∧
  @classifyDriveHref exampleRuntime "FILE1" = (None, EFile, None).
Proof.
  split_and!.
  - eapply (proj1 (proj2 (@classifyDriveHref_order exampleRuntime folderThenFileUrl)
                    _ _ eq_refl eq_refl)).
    eapply (search_idRe "/drive/folders/"
              (lit "/drive/folders/FOLDER1/file/d/FILE2")
              (mkMatch [] [lit "FOLDER1"] "/file/d/FILE2")).
    reflexivity.
  - eapply (proj1 (proj2 (proj2 (proj2 (@classifyDriveHref_order exampleRuntime fileUrl)
                                   _ _ eq_refl eq_refl)) eq_refl)).
    eapply (search_idRe "/file/d/" (lit "/file/d/ABC123/view")
              (mkMatch [] [lit "ABC123"] "/view")).
    reflexivity.
  - eapply (proj1 (proj2 (proj2 (proj2 (proj2 (@classifyDriveHref_order exampleRuntime fileUrl1)
                                          _ _ eq_refl eq_refl)) eq_refl) eq_refl));
      [reflexivity | done].
  - eapply (proj2 (proj2 (proj2 (proj2 (proj2 (@classifyDriveHref_order exampleRuntime docLink)
                                          _ _ eq_refl eq_refl)) eq_refl) eq_refl)).
    reflexivity.
  - apply (proj1 (@classifyDriveHref_order exampleRuntime "FILE1")). reflexivity.
Defined.

(** A listing page with a document of the editor between two files:
    the document has no id and is left out. *)
Example pageEntries_skips_documents :
  @entryOfMatch exampleRuntime (entryMatch docLink "Notes") = None ∧
  fe_id <$> @pageEntries exampleRuntime
              (entryBlock 1
               ++ "<div class=" ++ [dquote] ++ "flip-entry" ++ [dquote] ++ " id=" ++ [dquote]
               ++ "entry-DOC1" ++ [dquote] ++ "><a href=" ++ [dquote] ++ docLink ++ [dquote]
               ++ "><div class=" ++ [dquote] ++ "flip-entry-title" ++ [dquote]
               ++ ">Notes</div></a></div>"
               ++ entryBlock 2)
  = [lit "ID1"; lit "ID2"].
Proof. split; vm_compute; reflexivity. Qed.

(** ** folder.ts: what the listing consumes *)

Lemma fetchText_consumes `{NodeRuntime} net url jar maxRetries retryCount :
  let r := fetchText net url jar maxRetries retryCount in
  (∃ used, net = used ++ fr_net r) ∧
  (fr_result r = Pending → fr_net r = []) ∧
  (∀ text, fr_result r = Resolved text → (length (fr_net r) < length net)%nat).
Proof.
  revert url retryCount. induction net as [|e net IH]; intros url retryCount; simpl.
  - destruct (newURL url); simpl; (split_and!; [by exists [] | done | done]).
  - destruct (newURL url); simpl; [|split_and!; [by exists [] | done | done]].
    assert (∀ url' retryCount' pre,
              let r' := fr_after pre (fetchText net url' jar maxRetries retryCount') in
              (∃ used, e :: net = used ++ fr_net r') ∧
              (fr_result r' = Pending → fr_net r' = []) ∧
              (∀ text, fr_result r' = Resolved text →
                       (length (fr_net r') < S (length net))%nat)) as Hnext.
    { intros url' retryCount' pre. destruct (IH url' retryCount') as ([used Hn] & Hp & Hr).
      simpl. split_and!; [|done|].
      - exists (e :: used). simpl. by rewrite Hn at 1.
      - intros text Ht. specialize (Hr text Ht). lia. }
    destruct e as [res | err |]; simpl.
    + destruct (isRedirect res); [apply Hnext|].
      destruct (statusCode res =? 429).
      { destruct (retryCount <? maxRetries)%nat; [apply Hnext|].
        simpl. split_and!; [by exists [NetResponse res] | done | done]. }
      destruct (400 <=? statusCode res).
      { simpl. split_and!; [by exists [NetResponse res] | done | done]. }
      destruct (decodeBody (rawBody res) (h_contentEncoding res)); simpl;
        (split_and!; [by exists [NetResponse res] | done | intros; lia]).
    + destruct (retryCount <? maxRetries)%nat; [apply Hnext|].
      simpl. split_and!; [by exists [NetError err] | done | done].
    + split_and!; [by exists [NetTimeout] | done | done].
Qed.

Lemma suffix_length {A} (net used rest : list A) :
  net = used ++ rest → (length rest ≤ length net)%nat.
Proof. intros ->. rewrite length_app. lia. Qed.

Lemma fetchDriveFolderEntries_consumes `{NodeRuntime} folderId resourceKey options w net :
  let r := fetchDriveFolderEntries folderId resourceKey options w net in
  (∃ used, net = used ++ fo_net r) ∧
  (fo_result r = Pending → fo_net r = []) ∧
  (∀ entries, fo_result r = Resolved entries → (length (fo_net r) < length net)%nat) ∧
  (opt_quiet options = true → warnings (fo_trace r) = []).
Proof.
  unfold fetchDriveFolderEntries.
  set (jar := if opt_noCookies options then ∅ else w_cookieFile w).
  pose proof (fetchText_consumes net (folderListingUrl folderId resourceKey) (Some jar) 5 0)
    as (Hused & Hp & Hr).
  pose proof (fetchText_no_warnings net (folderListingUrl folderId resourceKey) (Some jar) 5 0)
    as Hw.
  destruct (fr_result (fetchText net _ (Some jar) 5 0)) as [html | e |] eqn:E.
  - rewrite parseFolderPage_spec. cbv beta iota. cbn [fo_result fo_net fo_trace].
    split_and!; [done | done | intros entries _; by eapply Hr |].
    intros ->. by rewrite warnings_app, Hw, andb_false_r.
  - cbn [fo_result fo_net fo_trace]. split_and!; [done | done | done | done].
  - cbn [fo_result fo_net fo_trace]. split_and!; [done | by intros _; apply Hp | done | done].
Qed.

(** ** folder.ts: what a folder download keeps *)

Section FolderProofs2.
Context `{NodeRuntime}.
Variable options : DownloadOptions.
Hypothesis join_inj : JoinKeepsApart.

Local Abbreviation good := (goodRun (opt_quiet options)).

Lemma downloadFile_good urlOrId output opts w net :
  let r := downloadFile urlOrId output opts w net in
  good w net (mkFolderDownload (forget (dr_result r)) (dr_world r) (dr_net r) (dr_trace r)).
Proof.
  apply downloadFile_cases.
  - intros e. split_and!; [done | by exists [] | done | done].
  - intros fs1 p Hfs. split_and!; [done | by exists [] | done | done].
  - intros fileId destDir preferredName downloadUrl fs1 Hfs.
    destruct (downloadAttempts_keeps opts fileId destDir preferredName downloadUrl
                (if opt_noCookies opts then ∅ else w_cookieFile w)
                (mkWorld fs1 (w_cache w) (w_cookieFile w)) net)
      as (Hfs' & Hnet & Hw & _).
    split_and!; cbn [fd_world fd_net fd_result fd_trace]; [by etrans | done | | done].
    unfold downloadAttempts.
    destruct (attemptLoop _ _ _ _ _ maxAttempts 0 None _) as [result st] eqn:Hl.
    cbn [dr_result dr_net]. destruct result; [done | done |]. intros _.
    eapply (attemptLoop_pending join_inj); [|exact Hl]. lia.
Qed.

Lemma good_after w net r pre r2 :
  good w net r → good (fd_world r) (fd_net r) r2 →
  (opt_quiet options = true → warnings pre = []) →
  good w net (fd_after pre r2).
Proof.
  intros (F1 & [u1 N1] & _ & W1) (F2 & [u2 N2] & P2 & W2) Hpre.
  split_and!; cbn [fd_after fd_world fd_net fd_result fd_trace].
  - by etrans.
  - exists (u1 ++ u2). by rewrite N1, N2, app_assoc.
  - done.
  - intros Hq. by rewrite warnings_app, Hpre, W2.
Qed.

Lemma good_mkdir w net r dir :
  good (mkWorld (if existsSync (w_fs w) dir then w_fs w else <[dir := Dir]> (w_fs w))
          (w_cache w) (w_cookieFile w)) net r →
  good w net r.
Proof.
  intros (F & N & P & W). split_and!; [|done..]. etrans; [|exact F]. cbn [w_fs].
  destruct (existsSync (w_fs w) dir) eqn:E; [done|].
  apply insert_subseteq. unfold existsSync in E. apply bool_decide_eq_false in E.
  by apply eq_None_not_Some.
Qed.

Section Loop.
Variable recurse : str → str → option str → World → list NetEvent → FolderDownload.
Variable n : nat.
Hypothesis recurse_good :
  ∀ folderId dir key w net, (length net ≤ n)%nat → good w net (recurse folderId dir key w net).

Lemma downloadEntry_good destDir entry w net :
  (length net ≤ n)%nat → good w net (downloadEntry options recurse destDir entry w net).
Proof.
  intros Hn. unfold downloadEntry. destruct (fe_type entry).
  - apply downloadFile_good.
  - eapply good_mkdir. by apply recurse_good.
Qed.

Lemma entriesFor_good destDir count i entries w net :
  (length net ≤ n)%nat → good w net (entriesFor options recurse destDir count i entries w net).
Proof.
  revert i w net. induction entries as [|entry rest IH]; intros i w net Hn.
  - split_and!; [done | by exists [] | done | done].
  - cbn [entriesFor].
    pose proof (downloadEntry_good destDir entry w net Hn) as Hr.
    set (r := downloadEntry options recurse destDir entry w net) in *.
    assert (length (fd_net r) ≤ n)%nat as Hn'.
    { destruct Hr as (_ & [used Hu] & _). apply suffix_length in Hu. lia. }
    pose proof Hr as (_ & _ & _ & Hw).
    destruct (fd_result r) as [[] | fileErr |] eqn:E.
    + eapply good_after; [exact Hr | by apply IH |].
      intros Hq. rewrite warnings_app, (Hw Hq). by destruct (i <? count - 1)%nat.
    + destruct (opt_remainingOk options).
      * eapply good_after; [exact Hr | by apply IH |].
        intros Hq. rewrite !warnings_app, (Hw Hq), Hq. by destruct (i <? count - 1)%nat.
      * destruct Hr as (F & N & P & _).
        split_and!; cbn [fd_world fd_net fd_result fd_trace]; [done | done | done |].
        intros Hq. by rewrite warnings_app, (Hw Hq), Hq.
    + exact Hr.
Qed.

End Loop.

Lemma downloadFolderRecursive_good fuel folderId destDir resourceKey w net :
  (length net < fuel)%nat →
  good w net (downloadFolderRecursive options fuel folderId destDir resourceKey w net).
Proof.
  revert folderId destDir resourceKey w net.
  induction fuel as [|fuel IH]; intros folderId destDir resourceKey w net Hfuel; [lia|].
  cbn [downloadFolderRecursive].
  destruct (fetchDriveFolderEntries_consumes folderId resourceKey options w net)
    as (Hused & Hp & Hr & Hw).
  destruct (fo_result (fetchDriveFolderEntries folderId resourceKey options w net))
    as [entries | e |] eqn:E.
  - assert (good w net (mkFolderDownload (Resolved tt) w
                          (fo_net (fetchDriveFolderEntries folderId resourceKey options w net))
                          (fo_trace (fetchDriveFolderEntries folderId resourceKey options w net))))
      as Hlisting by (split_and!; done).
    destruct entries as [|entry rest]; [exact Hlisting|].
    specialize (Hr _ eq_refl).
    eapply (good_after w net _ _ _ Hlisting); cbn [fd_world fd_net]; [|done].
    apply (entriesFor_good (downloadFolderRecursive options fuel)
             (length (fo_net (fetchDriveFolderEntries folderId resourceKey options w net))));
      [|done].
    intros folderId' dir key w' net' Hn. apply IH. lia.
  - split_and!; done.
  - split_and!; cbn [fd_world fd_net fd_result fd_trace]; [done | done | by intros _; apply Hp | done].
Qed.

End FolderProofs2.



(** ** folder.ts: entries that fail *)

Section Failures.
Context `{NodeRuntime}.
Variable options : DownloadOptions.

Lemma entriesFor_lenient recurse destDir count i entries w net e :
  opt_remainingOk options = true →
  fd_result (entriesFor options recurse destDir count i entries w net) ≠ Rejected e.
Proof.
  intros Hok. revert i w net. induction entries as [|entry rest IH]; intros i w net; [done|].
  cbn [entriesFor]. rewrite Hok.
  destruct (fd_result (downloadEntry options recurse destDir entry w net)) eqn:E;
    [apply IH | apply IH | by rewrite E].
Qed.

Lemma fetchDriveFolderEntries_warnings folderId resourceKey w net :
  nothingSkipped (fo_trace (fetchDriveFolderEntries folderId resourceKey options w net)).
Proof.
  unfold nothingSkipped, fetchDriveFolderEntries.
  pose proof (fetchText_no_warnings net (folderListingUrl folderId resourceKey)
                (Some (if opt_noCookies options then ∅ else w_cookieFile w)) 5 0) as Hw.
  destruct (fr_result _); cbn [fo_trace]; [|by rewrite Hw..].
  rewrite parseFolderPage_spec. cbv beta iota. cbn [fo_trace]. rewrite warnings_app, Hw.
  destruct (_ && _); repeat constructor.
Qed.

Lemma downloadFile_no_warnings urlOrId output opts w net :
  warnings (dr_trace (downloadFile urlOrId output opts w net)) = [].
Proof.
  apply downloadFile_cases; [done | done |].
  intros fileId destDir preferredName downloadUrl fs1 _.
  by destruct (downloadAttempts_keeps opts fileId destDir preferredName downloadUrl
                 (if opt_noCookies opts then ∅ else w_cookieFile w)
                 (mkWorld fs1 (w_cache w) (w_cookieFile w)) net) as (_ & _ & Hw & _).
Qed.

Lemma strictRun_after pre r :
  nothingSkipped pre → strictRun r → strictRun (fd_after pre r).
Proof.
  intros Hpre [[e He] | Hr]; [left; by exists e | right].
  unfold nothingSkipped, fd_after in *. cbn [fd_trace]. rewrite warnings_app.
  by apply Forall_app.
Qed.

Hypothesis strict : opt_remainingOk options = false.

Lemma entriesFor_strict recurse destDir count i entries w net :
  (∀ folderId dir key w' net', strictRun (recurse folderId dir key w' net')) →
  strictRun (entriesFor options recurse destDir count i entries w net).
Proof.
  intros Hrec. revert i w net. induction entries as [|entry rest IH]; intros i w net.
  - right. constructor.
  - cbn [entriesFor]. rewrite strict.
    assert (strictRun (downloadEntry options recurse destDir entry w net)) as Hr.
    { unfold downloadEntry. destruct (fe_type entry); [|apply Hrec].
      right. unfold nothingSkipped. cbn [fd_trace]. rewrite downloadFile_no_warnings.
      constructor. }
    destruct (fd_result (downloadEntry options recurse destDir entry w net)) as [[] | e |] eqn:E.
    + apply strictRun_after; [|apply IH].
      destruct Hr as [[e He] | Hr]; [congruence|].
      unfold nothingSkipped in *. rewrite warnings_app. apply Forall_app. split; [done|].
      destruct (i <? count - 1)%nat; constructor.
    + left. by exists e.
    + exact Hr.
Qed.

Lemma downloadFolderRecursive_strict fuel folderId destDir resourceKey w net :
  strictRun (downloadFolderRecursive options fuel folderId destDir resourceKey w net).
Proof.
  revert folderId destDir resourceKey w net.
  induction fuel as [|fuel IH]; intros folderId destDir resourceKey w net.
  - right. constructor.
  - cbn [downloadFolderRecursive].
    pose proof (fetchDriveFolderEntries_warnings folderId resourceKey w net) as Hw.
    destruct (fo_result (fetchDriveFolderEntries folderId resourceKey options w net))
      as [[|entry rest] | e |].
    + by right.
    + apply strictRun_after; [done|]. by apply entriesFor_strict.
    + left. by exists e.
    + by right.
Qed.

End Failures.

(** X21. Entries that fail.  With [remainingOk] set, a folder download
    whose reference and output are in order is rejected by the listing
    of the folder itself only: whatever happens to its entries and to
    the folders below it is skipped.  Without [remainingOk], the first
    failure ends the download: a run that is not rejected has skipped
    nothing, its only warnings are those about the cap. *)
Theorem downloadFolder_failures `{NodeRuntime} (options : DownloadOptions) (urlOrId : str)
    (output : option str) (w : World) (net : list NetEvent)
    (folderId : str) (resourceKey : option str) :
  resolveFolder options urlOrId = Some (folderId, resourceKey) →
  existsSync (w_fs w) (folderOutputPath output folderId)
  && negb (isDirectory (w_fs w) (folderOutputPath output folderId)) = false →
  let r := downloadFolder options urlOrId output w net in
  let w1 := mkWorld (if existsSync (w_fs w) (folderOutputPath output folderId) then w_fs w
                     else <[folderOutputPath output folderId := Dir]> (w_fs w))
              (w_cache w) (w_cookieFile w) in
  (opt_remainingOk options = true →
   ∀ e, dr_result r = Rejected e →
        fo_result (fetchDriveFolderEntries folderId resourceKey options w1 net) = Rejected e) ∧
  (opt_remainingOk options = false →
   (∀ e, dr_result r ≠ Rejected e) → nothingSkipped (dr_trace r)) ∧
  (∀ p, dr_result r = Resolved p → p = folderOutputPath output folderId).
Proof.
  intros Hid Hout r w1. unfold r, downloadFolder. rewrite Hid. cbv zeta. rewrite Hout.
  fold w1. cbn [dr_result dr_trace]. split_and!.
  - intros Hok e. cbn [downloadFolderRecursive].
    destruct (fo_result (fetchDriveFolderEntries folderId resourceKey options w1 net))
      as [[|entry rest] | e' |]; cbn [fd_result fd_after]; [done | | congruence | done].
    pose proof (entriesFor_lenient options
                  (downloadFolderRecursive options (length net))
                  (folderOutputPath output folderId) (length (entry :: rest)) 0
                  (entry :: rest) w1
                  (fo_net (fetchDriveFolderEntries folderId resourceKey options w1 net))) as Hno.
    destruct (fd_result (entriesFor _ _ _ _ _ _ _ _)) as [[] | e' |] eqn:E; [done | | done].
    by destruct (Hno e' Hok).
  - intros Hstrict Hno.
    destruct (downloadFolderRecursive_strict options Hstrict (S (length net)) folderId
                (folderOutputPath output folderId) resourceKey w1 net) as [[e He] | Hr];
      [|done].
    destruct (Hno e). by rewrite He.
  - intros p. destruct (fd_result _); [by intros [= <-] | done | done].
Qed.

Lemma downloadFolder_failures_witness :
  (∀ e, dr_result (@downloadFolder exampleRuntime remainingOkOptions folderUrl
                     (Some (lit "out")) outWorld firstDenied) = Rejected e →
        fo_result (@fetchDriveFolderEntries exampleRuntime "XYZ987" None remainingOkOptions
                     (mkWorld (if existsSync (w_fs outWorld)
                                    (@folderOutputPath exampleRuntime (Some (lit "out")) "XYZ987")
                               then w_fs outWorld
                               else <[@folderOutputPath exampleRuntime (Some (lit "out"))
                                        "XYZ987" := Dir]> (w_fs outWorld))
                        (w_cache outWorld) (w_cookieFile outWorld)) firstDenied)
        = Rejected e) ∧
  nothingSkipped
    (dr_trace (@downloadFolder exampleRuntime folderOptions folderUrl (Some (lit "out"))
                 outWorld [twoFiles; namedAttachment "a.txt" "A"; namedAttachment "b.txt" "B"])).
Proof.
  split.
  - apply (proj1 (@downloadFolder_failures exampleRuntime remainingOkOptions folderUrl
                    (Some (lit "out")) outWorld firstDenied "XYZ987" None eq_refl eq_refl)).
    reflexivity.
  - apply (proj1 (proj2 (@downloadFolder_failures exampleRuntime folderOptions folderUrl
                    (Some (lit "out")) outWorld
                    [twoFiles; namedAttachment "a.txt" "A"; namedAttachment "b.txt" "B"]
                    "XYZ987" None eq_refl eq_refl))).
    + reflexivity.
    + intros e He. vm_compute in He. discriminate.
Defined.

(** A folder of two files.  Both are downloaded, two seconds apart.
    When the first one cannot be read, the download is rejected after
    its fifteen attempts; with [remainingOk] it goes on to the second
    file after three more seconds and resolves. *)
Example downloadFolder_two_files :
  let ok := @downloadFolder exampleRuntime folderOptions folderUrl (Some (lit "out")) outWorld
              [twoFiles; namedAttachment "a.txt" "A"; namedAttachment "b.txt" "B"] in
  let strict := @downloadFolder exampleRuntime folderOptions folderUrl (Some (lit "out"))
                  outWorld firstDenied in
  let lenient := @downloadFolder exampleRuntime remainingOkOptions folderUrl
                   (Some (lit "out")) outWorld firstDenied in
  (dr_result ok = Resolved (lit "/cwd/out") ∧
   w_fs (dr_world ok) !! lit "/cwd/out/a.txt" = Some (File "A") ∧
   w_fs (dr_world ok) !! lit "/cwd/out/b.txt" = Some (File "B") ∧
   sleeps (dr_trace ok) = [2000%Q] ∧
   (fst <$> requests (dr_trace ok))
   = [lit "https://drive.google.com/embeddedfolderview?id=XYZ987#list";
      lit "https://drive.google.com/uc?export=download&id=ID1";
      lit "https://drive.google.com/uc?export=download&id=ID2"]) ∧
  (dr_result strict
   = Rejected (PermissionError "Permission denied. The file may not be publicly accessible.") ∧
   length (warnings (dr_trace strict)) = 1%nat ∧
   dr_net strict = [namedAttachment "b.txt" "B"]) ∧
  (dr_result lenient = Resolved (lit "/cwd/out") ∧
   w_fs (dr_world lenient) !! lit "/cwd/out/b.txt" = Some (File "B") ∧
   last (sleeps (dr_trace lenient)) = Some 3000%Q ∧
   warnings (dr_trace lenient)
   = [lit "Skipping file ID1 (File 1): Permission denied. The file may not be publicly accessible."]).
Proof. repeat split; vm_compute; reflexivity. Qed.

(** ** folder.ts: the reference of a folder *)

Lemma lastResort_type url p : lastResort url = Some p → pu_type p = TFile.
Proof. unfold lastResort. destruct (search fuzzyRe url); [by intros [= <-] | done]. Qed.

Lemma fetchText_first `{NodeRuntime} net url u jar maxRetries retryCount :
  newURL url = Some u →
  ∃ rest, fr_trace (fetchText net url jar maxRetries retryCount)
          = Get url (cookieHeader (default ∅ jar)) :: rest.
Proof.
  intros Hu. destruct net as [|[res | err |] net]; simpl; rewrite Hu; [eauto | | | eauto].
  - destruct (isRedirect res); [simpl; eauto|].
    destruct (statusCode res =? 429).
    { destruct (retryCount <? maxRetries)%nat; simpl; eauto. }
    destruct (400 <=? statusCode res); [eauto|].
    destruct (decodeBody (rawBody res) (h_contentEncoding res)); eauto.
  - destruct (retryCount <? maxRetries)%nat; simpl; eauto.
Qed.

Lemma downloadFolderRecursive_first `{NodeRuntime} options fuel folderId destDir resourceKey
    w net u :
  newURL (folderListingUrl folderId resourceKey) = Some u →
  ∃ rest, fd_trace (downloadFolderRecursive options (S fuel) folderId destDir resourceKey w net)
          = Get (folderListingUrl folderId resourceKey)
              (cookieHeader (if opt_noCookies options then ∅ else w_cookieFile w)) :: rest.
Proof.
  intros Hu. cbn [downloadFolderRecursive]. unfold fetchDriveFolderEntries.
  destruct (fetchText_first net (folderListingUrl folderId resourceKey) u
              (Some (if opt_noCookies options then ∅ else w_cookieFile w)) 5 0 Hu)
    as [rest Hrest].
  destruct (fr_result _) as [html | e |]; cbn [fo_result fo_trace fd_trace].
  - destruct (parseFolderPage (opt_quiet options) html) as [[|entry entries] warns];
      cbn [fo_result fo_trace fd_trace fd_after]; rewrite Hrest; cbn [default app]; eauto.
  - rewrite Hrest. cbn [default]. eauto.
  - rewrite Hrest. cbn [default]. eauto.
Qed.

(** X22. The reference of a folder download.  Without the [id] option
    the reference has to be a URL that [parseGoogleDriveUrl] reads as a
    folder: a reference that is read as something else or not at all is
    rejected before anything is requested or written, and so is every
    reference that [new URL] refuses, a bare folder id included (what
    the fuzzy pattern finds is a file).  For a URL whose path holds
    [/drive/folders/<id>] and no file pattern, the folder is that id
    with the access key of the URL, and the first request is the one
    for its listing page.  With the [id] option the folder is that id,
    without an access key: the one of the options is not read. *)
Theorem downloadFolder_reference `{NodeRuntime} (options : DownloadOptions) (urlOrId : str)
    (output : option str) (w : World) (net : list NetEvent) :
  (JS.truthy (opt_id options) = false →
   (extractFolderId urlOrId = None →
    downloadFolder options urlOrId output w net
    = mkDownloadRun (Rejected (noFolderId urlOrId)) w net []) ∧
   (newURL urlOrId = None → extractFolderId urlOrId = None) ∧
   (∀ u id, newURL urlOrId = Some u →
      (∀ pre id', ¬ IdAt "/file/d/" (pathname u) pre id') →
      Leftmost (IdAt "/drive/folders/" (pathname u)) id →
      resolveFolder options urlOrId
      = Some (id, orUndefined (searchParams_get "resourcekey" (searchParams u))))) ∧
  (JS.truthy (opt_id options) = true →
   resolveFolder options urlOrId = Some (default [] (opt_id options), None)) ∧
  (∀ folderId resourceKey u,
     resolveFolder options urlOrId = Some (folderId, resourceKey) →
     existsSync (w_fs w) (folderOutputPath output folderId)
     && negb (isDirectory (w_fs w) (folderOutputPath output folderId)) = false →
     newURL (folderListingUrl folderId resourceKey) = Some u →
     ∃ rest, dr_trace (downloadFolder options urlOrId output w net)
             = Get (folderListingUrl folderId resourceKey)
                 (cookieHeader (if opt_noCookies options then ∅ else w_cookieFile w))
               :: rest).
Proof.
  split_and!.
  - intros Hid. split_and!.
    + unfold downloadFolder, resolveFolder, extractFolderId. rewrite Hid.
      destruct (parseGoogleDriveUrl urlOrId) as [[id ty key]|]; [|done].
      by destruct ty.
    + intros Hurl. unfold extractFolderId, parseGoogleDriveUrl. rewrite Hurl.
      destruct (lastResort urlOrId) as [p|] eqn:E; [|done].
      by rewrite (lastResort_type _ _ E).
    + intros u id Hu Hfile [Hinc (m & Hm & <-)]%search_idRe_Some.
      unfold resolveFolder, parseGoogleDriveUrl, parseStructured. rewrite Hid, Hu.
      unfold fileRe, folderRe. rewrite (no_IdAt_search _ _ Hfile), Hinc, Hm. done.
  - intros Hid. unfold resolveFolder. by rewrite Hid.
  - intros folderId resourceKey u Hid Hout Hu. unfold downloadFolder. rewrite Hid.
    cbv zeta. rewrite Hout. cbn [dr_trace].
    destruct (downloadFolderRecursive_first options (length net) folderId
                (folderOutputPath output folderId) resourceKey
                (mkWorld (if existsSync (w_fs w) (folderOutputPath output folderId)
                          then w_fs w
                          else <[folderOutputPath output folderId := Dir]> (w_fs w))
                   (w_cache w) (w_cookieFile w)) net u Hu) as [rest Hrest].
    exists rest. exact Hrest.
Qed.

Lemma downloadFolder_reference_witness :
  @downloadFolder exampleRuntime folderOptions bareId (Some (lit "out")) outWorld [twoFiles]
  = mkDownloadRun (Rejected (noFolderId bareId)) outWorld [twoFiles] [] ∧
  @downloadFolder exampleRuntime folderOptions fileUrl (Some (lit "out")) outWorld [twoFiles]
  = mkDownloadRun (Rejected (noFolderId fileUrl)) outWorld [twoFiles] [] ∧
  @resolveFolder exampleRuntime folderOptions folderUrl = Some (lit "XYZ987", orUndefined None) ∧
  @resolveFolder exampleRuntime folderIdOptions folderUrl
  = Some (default [] (opt_id folderIdOptions), None) ∧
  ∃ rest, dr_trace (@downloadFolder exampleRuntime folderIdOptions folderUrl
                      (Some (lit "out")) outWorld [twoFiles])
          = Get (folderListingUrl bareId None)
              (cookieHeader (if opt_noCookies folderIdOptions then ∅
                             else w_cookieFile outWorld)) :: rest.
Proof.
  destruct (@downloadFolder_reference exampleRuntime folderOptions bareId (Some (lit "out"))
              outWorld [twoFiles]) as ((Hrej & Hbare & _) & _); [reflexivity|].
  destruct (@downloadFolder_reference exampleRuntime folderOptions fileUrl (Some (lit "out"))
              outWorld [twoFiles]) as ((Hrej' & _ & _) & _); [reflexivity|].
  destruct (@downloadFolder_reference exampleRuntime folderOptions folderUrl (Some (lit "out"))
              outWorld [twoFiles]) as ((_ & _ & Hfolder) & _); [reflexivity|].
  destruct (@downloadFolder_reference exampleRuntime folderIdOptions folderUrl
              (Some (lit "out")) outWorld [twoFiles]) as (_ & Hid & Hfirst).
  split_and!.
  - apply Hrej, Hbare. reflexivity.
  - apply Hrej'. reflexivity.
  - eapply (Hfolder _ (lit "XYZ987") eq_refl).
    + apply no_IdAt. reflexivity.
    + apply (search_idRe "/drive/folders/" (lit "/drive/folders/XYZ987")
               (mkMatch [] [lit "XYZ987"] [])). reflexivity.
  - apply Hid. reflexivity.
  - eapply (Hfirst bareId None); [by apply Hid | reflexivity | reflexivity].
Defined.

(** index.ts: [download] hands the call to [downloadFolder] when the
    [folder] option is set and to [downloadFile] otherwise; the id of
    a folder given as the reference is then downloaded as a file. *)
Example download_dispatch :
  @download exampleRuntime folderOptions true folderUrl (Some (lit "out")) outWorld [twoFiles]
  = @downloadFolder exampleRuntime folderOptions folderUrl (Some (lit "out")) outWorld
      [twoFiles] ∧
  dr_result (@download exampleRuntime folderOptions true bareId (Some (lit "out")) outWorld
               [twoFiles]) = Rejected (noFolderId bareId) ∧
  head (fst <$> requests (dr_trace (@download exampleRuntime folderOptions false bareId
                                      (Some (lit "out")) outWorld [twoFiles])))
  = Some (lit "https://drive.google.com/uc?export=download&id=1aBcD_efGh-IjKlMnOpQrStUvWxYz012").
Proof. repeat split; vm_compute; reflexivity. Qed.

(** ** folder.ts: [decodeHtmlEntities] *)

Lemma replaceAll_amp_free p by_ s rest :
  amp ∉ s →
  JS.replaceAll (amp :: p) by_ (s ++ rest) = s ++ JS.replaceAll (amp :: p) by_ rest.
Proof.
  unfold JS.replaceAll. induction s as [|a s IH]; [done|].
  intros [Ha Hs]%not_elem_of_cons. rewrite <-!app_comm_cons.
  cbn [JS.replaceFrom JS.nonEmpty JS.startsWith andb].
  replace (JS.chr amp a) with false; [cbn [andb]; by rewrite (IH Hs)|].
  symmetry. apply not_true_iff_false. intros Hc. apply Ha. symmetry.
  revert Hc. unfold JS.chr. by intros ?%bool_decide_eq_true.
Qed.

Lemma replaceAll_amp_free_all p by_ s :
  amp ∉ s → JS.replaceAll (amp :: p) by_ s = s.
Proof.
  intros Hs. rewrite <-(app_nil_r s) at 1.
  rewrite (replaceAll_amp_free p by_ s [] Hs). by rewrite app_nil_r.
Qed.

Lemma startsWith_app p rest : JS.startsWith p (p ++ rest) = true.
Proof.
  induction p as [|a p IH]; [done|]. cbn [JS.startsWith app]. rewrite IH.
  unfold JS.chr. by rewrite bool_decide_eq_true_2.
Qed.

Lemma replaceFrom_skip pat by_ u rest :
  JS.replaceFrom pat by_ (length u) (u ++ rest) = JS.replaceFrom pat by_ 0 rest.
Proof. induction u as [|a u IH]; [done|]. exact IH. Qed.

(** An occurrence of the pattern is replaced, and the scan goes on
    behind it. *)
Lemma replaceAll_hit p by_ rest :
  JS.replaceAll (amp :: p) by_ (amp :: p ++ rest) = by_ ++ JS.replaceAll (amp :: p) by_ rest.
Proof.
  unfold JS.replaceAll. cbn [JS.replaceFrom JS.nonEmpty andb].
  rewrite (startsWith_app (amp :: p) rest
           : JS.startsWith (amp :: p) (amp :: p ++ rest) = true).
  cbn [length Nat.sub].
  by rewrite Nat.sub_0_r, replaceFrom_skip.
Qed.

(** An ampersand that starts another entity is passed over. *)
Lemma replaceAll_miss p by_ e t :
  JS.startsWith (amp :: p) (amp :: e ++ t) = false → amp ∉ e → amp ∉ t →
  JS.replaceAll (amp :: p) by_ (amp :: e ++ t) = amp :: e ++ t.
Proof.
  intros Hno He Ht. unfold JS.replaceAll. cbn [JS.replaceFrom JS.nonEmpty andb].
  rewrite Hno. f_equal. fold (JS.replaceAll (amp :: p) by_ (e ++ t)).
  apply replaceAll_amp_free_all. by intros [?|?]%elem_of_app.
Qed.

(** The patterns of [decodeHtmlEntities] all start with an ampersand. *)
Lemma decodeHtmlEntities_patterns value :
  decodeHtmlEntities value
  = JS.replaceAll (amp :: lit "#x2F;") "/"
      (JS.replaceAll (amp :: lit "#39;") "'"
        (JS.replaceAll (amp :: lit "quot;") [dquote]
          (JS.replaceAll (amp :: lit "gt;") ">"
            (JS.replaceAll (amp :: lit "lt;") "<"
              (JS.replaceAll (amp :: lit "amp;") "&" value))))).
Proof. reflexivity. Qed.

Lemma decodeHtmlEntities_amp_free s : amp ∉ s → decodeHtmlEntities s = s.
Proof.
  intros Hs. rewrite decodeHtmlEntities_patterns.
  by rewrite !(replaceAll_amp_free_all _ _ s Hs).
Qed.

Lemma entityNames_amp_free e c : (e, c) ∈ entityNames → (amp ∉ e) ∧ (amp ∉ c).
Proof.
  unfold entityNames. intros He.
  repeat (apply elem_of_cons in He as [[= -> ->] | He]);
    [| | | | | by apply elem_of_nil in He].
  all: split; apply (bool_decide_unpack _); vm_compute; reflexivity.
Qed.

Lemma decodeHtmlEntities_entity s t e c :
  amp ∉ s → amp ∉ t → (e, c) ∈ entityNames →
  decodeHtmlEntities (s ++ amp :: e ++ t) = s ++ c ++ t.
Proof.
  intros Hs Ht He. destruct (entityNames_amp_free e c He) as [Hne Hnc].
  assert (Hct : amp ∉ c ++ t) by (by intros [?|?]%elem_of_app).
  unfold entityNames in He. rewrite decodeHtmlEntities_patterns.
  repeat (apply elem_of_cons in He as [[= -> ->] | He]);
    [| | | | | by apply elem_of_nil in He].
  all: repeat first
    [ rewrite (replaceAll_amp_free _ _ s _ Hs)
    | rewrite (replaceAll_amp_free_all _ _ _ Hct)
    | rewrite (replaceAll_hit _ _ t)
    | rewrite (replaceAll_amp_free_all _ _ t Ht)
    | rewrite replaceAll_miss by (first [exact Hne | exact Ht | vm_compute; reflexivity]) ].
  all: reflexivity.
Qed.

Lemma decodeHtmlEntities_after_amp x y :
  JS.replaceAll "&amp;" "&" x = JS.replaceAll "&amp;" "&" y →
  decodeHtmlEntities x = decodeHtmlEntities y.
Proof. unfold decodeHtmlEntities. by intros ->. Qed.

Lemma startsWith_amp p t :
  JS.startsWith p t = false → JS.startsWith (amp :: p) (amp :: [] ++ t) = false.
Proof. intros Hp. cbn [JS.startsWith app]. rewrite Hp. apply andb_false_r. Qed.

(** X23. [decodeHtmlEntities] leaves a value without an ampersand as it
    is, and decodes each of [&lt;], [&gt;], [&quot;], [&#39;] and
    [&#x2F;] between two such values.  [&amp;] is replaced first and
    its ampersand is read again by the later replacements: [&amp;]
    becomes an ampersand only where none of the five names follows it,
    and a doubly escaped entity such as [&amp;lt;] is decoded twice, to
    the character and not to the entity. *)
Theorem decodeHtmlEntities_decodes (s t e c : str) :
  amp ∉ s → amp ∉ t →
  decodeHtmlEntities s = s ∧
  (Forall (λ ec, JS.startsWith ec.1 t = false) entityNames →
   decodeHtmlEntities (s ++ lit "&amp;" ++ t) = s ++ lit "&" ++ t) ∧
  ((e, c) ∈ entityNames →
   decodeHtmlEntities (s ++ lit "&" ++ e ++ t) = s ++ c ++ t ∧
   decodeHtmlEntities (s ++ lit "&amp;" ++ e ++ t) = s ++ c ++ t).
Proof.
  intros Hs Ht. split_and!.
  - by apply decodeHtmlEntities_amp_free.
  - intros Hnames. unfold entityNames in Hnames.
    repeat (apply Forall_cons in Hnames as [?%startsWith_amp Hnames]).
    rewrite decodeHtmlEntities_patterns.
    change (lit "&amp;" ++ t) with (amp :: lit "amp;" ++ t).
    rewrite (replaceAll_amp_free _ _ s _ Hs).
    rewrite (replaceAll_hit (lit "amp;") (lit "&") t).
    rewrite (replaceAll_amp_free_all _ _ t Ht).
    change (lit "&" ++ t) with (amp :: [] ++ t).
    repeat (rewrite (replaceAll_amp_free _ _ s _ Hs);
            rewrite (replaceAll_miss _ _ [] t)
              by first [assumption | apply not_elem_of_nil]).
    reflexivity.
  - intros He. split; [exact (decodeHtmlEntities_entity s t e c Hs Ht He)|].
    destruct (entityNames_amp_free e c He) as [Hne Hnc].
    rewrite <-(decodeHtmlEntities_entity s t e c Hs Ht He).
    apply decodeHtmlEntities_after_amp.
    change (lit "&amp;") with (amp :: lit "amp;").
    change ((amp :: lit "amp;") ++ e ++ t) with (amp :: lit "amp;" ++ e ++ t).
    rewrite !(replaceAll_amp_free _ _ s _ Hs).
    rewrite (replaceAll_hit (lit "amp;") (lit "&") (e ++ t)).
    rewrite (replaceAll_amp_free_all _ _ (e ++ t))
      by (by intros [?|?]%elem_of_app).
    rewrite (replaceAll_miss _ _ e t); [reflexivity | | exact Hne | exact Ht].
    unfold entityNames in He.
    repeat (apply elem_of_cons in He as [[= -> ->] | He]);
      [| | | | | by apply elem_of_nil in He].
    all: vm_compute; reflexivity.
Qed.

Lemma decodeHtmlEntities_decodes_witness :
  decodeHtmlEntities (lit "a b") = lit "a b" ∧
  decodeHtmlEntities (lit "a b" ++ lit "&amp;" ++ lit "c") = lit "a b" ++ lit "&" ++ lit "c" ∧
  decodeHtmlEntities (lit "a b" ++ lit "&" ++ lit "lt;" ++ lit "c")
  = lit "a b" ++ lit "<" ++ lit "c" ∧
  decodeHtmlEntities (lit "a b" ++ lit "&amp;" ++ lit "lt;" ++ lit "c")
  = lit "a b" ++ lit "<" ++ lit "c".
Proof.
  destruct (decodeHtmlEntities_decodes (lit "a b") (lit "c") (lit "lt;") (lit "<"))
    as (H1 & H2 & H3).
  - apply (bool_decide_unpack _). vm_compute. reflexivity.
  - apply (bool_decide_unpack _). vm_compute. reflexivity.
  - destruct H3 as [H3 H4]; [left|].
    split; [exact H1|]. split; [|split; [exact H3 | exact H4]].
    apply H2. repeat constructor.
Defined.
